(** * Sales funnel assistant: funnel engine, response post-processor,
      message batcher and dispatcher

    A shallow embedding of the orchestration code of the WhatsApp sales
    agent (funnel service, memory manager, AI handler, chat handler) and the
    properties of its specification checked against it.

    Conventions.
    - A JavaScript string is the list of its UTF-16 code units ([jsstring]);
      [length], [indexOf], [substring] and regular expressions without the
      [u] flag all work on code units.
    - Identifiers that the code only compares for equality (phone numbers,
      memory keys and types, stage ids, plan ids) are Rocq strings.
    - JavaScript numbers that hold indices and counts are [Z]; the
      confidence of the offer classifier is an IEEE 754 binary64 [float],
      computed with the same operations as the source.
    - Asynchronous methods over the memory manager are functions in a
      state-and-exception monad over the manager's table and cache. *)

From Stdlib Require Import ZArith NArith List String Ascii Floats Lia Bool.
From stdpp Require Import base option list gmap strings pretty.
Import ListNotations.

Set Warnings "-inexact-float".
Open Scope Z_scope.

(* ===================================================================== *)
(** ** JavaScript strings *)
(* ===================================================================== *)

Module JsString.

(** A string value: its UTF-16 code units. *)
Definition jsstring := list N.

(** Decoding of a UTF-8 byte sequence into UTF-16 code units, used only to
    write the string literals of the source as they appear in it. *)
Fixpoint utf8_to_utf16 (bs : list N) : jsstring :=
  match bs with
  | [] => []
  | b1 :: t1 =>
    if (b1 <? 128)%N then b1 :: utf8_to_utf16 t1
    else if (b1 <? 224)%N then
      match t1 with
      | b2 :: t2 =>
        (N.lor (N.shiftl (N.land b1 31) 6) (N.land b2 63)) :: utf8_to_utf16 t2
      | [] => [65533%N]
      end
    else if (b1 <? 240)%N then
      match t1 with
      | b2 :: b3 :: t3 =>
        (N.lor (N.shiftl (N.land b1 15) 12)
               (N.lor (N.shiftl (N.land b2 63) 6) (N.land b3 63)))
          :: utf8_to_utf16 t3
      | _ => [65533%N]
      end
    else
      match t1 with
      | b2 :: b3 :: b4 :: t4 =>
        let cp := N.lor (N.shiftl (N.land b1 7) 18)
                  (N.lor (N.shiftl (N.land b2 63) 12)
                  (N.lor (N.shiftl (N.land b3 63) 6) (N.land b4 63))) in
        let v := (cp - 65536)%N in
        (55296 + N.shiftr v 10)%N :: (56320 + N.land v 1023)%N
          :: utf8_to_utf16 t4
      | _ => [65533%N]
      end
  end.

Fixpoint bytes_of_string (s : string) : list N :=
  match s with
  | EmptyString => []
  | String a r => N_of_ascii a :: bytes_of_string r
  end.

(** [js "texto"] is the JavaScript string written ["texto"] in the source. *)
Definition js (s : string) : jsstring := utf8_to_utf16 (bytes_of_string s).

(** [s.length] *)
Definition jslength (s : jsstring) : Z := Z.of_nat (length s).

(** Does [s] start with [p]? *)
Fixpoint starts_with (p s : jsstring) : bool :=
  match p, s with
  | [], _ => true
  | _ :: _, [] => false
  | a :: p', b :: s' => (a =? b)%N && starts_with p' s'
  end.

(** [s.indexOf(p)] counted from position [i] of the whole string: the
    first position at which [p] occurs, or [-1]. *)
Fixpoint indexOf_from (i : Z) (s p : jsstring) : Z :=
  if starts_with p s then i
  else match s with
       | [] => -1
       | _ :: s' => indexOf_from (i + 1) s' p
       end.

Definition indexOf (s p : jsstring) : Z := indexOf_from 0 s p.

(** [s.includes(p)] *)
Fixpoint includes (s p : jsstring) : bool :=
  starts_with p s ||
  match s with
  | [] => false
  | _ :: s' => includes s' p
  end.

(** [s.lastIndexOf(p, pos)]: the largest [k <= pos] at which [p] occurs in
    [s], or [-1]; a negative [pos] counts as 0. [lastIndexOf_from] scans
    the suffixes of [s] from left to right, [i] being the position of the
    current suffix, and keeps the last hit. *)
Fixpoint lastIndexOf_from (i : Z) (s p : jsstring) (pos : Z) (best : Z) : Z :=
  let best' := if starts_with p s && (i <=? pos) then i else best in
  match s with
  | [] => best'
  | _ :: s' => lastIndexOf_from (i + 1) s' p pos best'
  end.

Definition lastIndexOf (s p : jsstring) (pos : Z) : Z :=
  lastIndexOf_from 0 s p (Z.max pos 0) (-1).

(** [s.substring(a, b)]: both ends are clamped to [0, s.length] and
    swapped when out of order; [substring_from] is [s.substring(a)]. *)
Definition clamp (s : jsstring) (i : Z) : Z :=
  Z.min (Z.max i 0) (jslength s).

Definition substring (s : jsstring) (a b : Z) : jsstring :=
  let lo := Z.min (clamp s a) (clamp s b) in
  let hi := Z.max (clamp s a) (clamp s b) in
  firstn (Z.to_nat (hi - lo)) (skipn (Z.to_nat lo) s).

Definition substring_from (s : jsstring) (a : Z) : jsstring :=
  substring s a (jslength s).

(** White space and line terminators of ECMAScript: the characters matched
    by [\s] and removed by [trim]. *)
Definition is_space (c : N) : bool :=
  ((9 <=? c) && (c <=? 13) || (c =? 32) || (c =? 160) || (c =? 5760)
   || (8192 <=? c) && (c <=? 8202) || (c =? 8232) || (c =? 8233)
   || (c =? 8239) || (c =? 8287) || (c =? 12288) || (c =? 65279))%N.

(** The longest prefix of [s] whose characters all satisfy [f], and what
    follows it. *)
Fixpoint take_while (f : N -> bool) (s : jsstring) : jsstring :=
  match s with
  | [] => []
  | c :: s' => if f c then c :: take_while f s' else []
  end.

Fixpoint drop_while (f : N -> bool) (s : jsstring) : jsstring :=
  match s with
  | [] => []
  | c :: s' => if f c then drop_while f s' else s
  end.

Definition trimStart (s : jsstring) : jsstring := drop_while is_space s.

Definition trimEnd (s : jsstring) : jsstring := rev (trimStart (rev s)).

(** [s.trim()] *)
Definition trim (s : jsstring) : jsstring := trimEnd (trimStart s).

(** Lower-casing restricted to Basic Latin and Latin-1: on a string whose
    code units are all below U+0100, [String.prototype.toLowerCase] maps
    A-Z, U+00C0-U+00D6 and U+00D8-U+00DE to the letter 32 places further
    and leaves the rest. Used for the concrete runs; the general theorems
    take lower-casing as a parameter. *)
Definition lower_latin1 (c : N) : N :=
  if ((65 <=? c) && (c <=? 90) || (192 <=? c) && (c <=? 214)
      || (216 <=? c) && (c <=? 222))%N
  then (c + 32)%N else c.

Definition toLowerCase_latin1 (s : jsstring) : jsstring := map lower_latin1 s.

(** Case folding of the [i] flag (without [u]) against an ASCII pattern
    character: only the two ASCII cases of a letter are identified. *)
Definition ascii_lower (c : N) : N :=
  if ((65 <=? c) && (c <=? 90))%N then (c + 32)%N else c.

End JsString.
Import JsString.

(* ===================================================================== *)
(** ** Funnel service: the offer-response classifier *)
(* ===================================================================== *)

Module Classifier.

(** The argument of [analyzeUpsellResponse]: a string, or one of the two
    absent values the guard [!userMessage] is written for. *)
Inductive message_arg :=
| Undefined
| Null
| Str (s : jsstring).

(** [{ accepted, confidence }] *)
Record analysis := { accepted : bool; confidence : float }.

Definition positiveIndicators : list jsstring :=
  [ js "sim"; js "quero"; js "aceito"; js "concordo"; js "interessante";
    js "gostei"; js "vamos"; js "ótimo"; js "excelente"; js "perfeito";
    js "bom"; js "legal"; js "parece bom"; js "me interessa"; js "bacana";
    js "gostaria" ].

Definition negativeIndicators : list jsstring :=
  [ js "não"; js "agora não"; js "talvez depois"; js "muito caro";
    js "caro"; js "sem condições"; js "preciso pensar";
    js "não tenho interesse"; js "não quero"; js "recuso"; js "não posso";
    js "não consigo"; js "deixa pra depois"; js "outra hora";
    js "no momento não" ].

(** [indicators.forEach(i => { if (message.includes(i)) matches++; })] *)
Definition countMatches (message : jsstring) (indicators : list jsstring) : Z :=
  fold_left (fun matches indicator =>
               if includes message indicator then matches + 1 else matches)
            indicators 0.

(** A count as a JavaScript number. *)
Definition number (n : Z) : float := PrimFloat.of_uint63 (Uint63.of_Z n).

(** [Math.min(a, b)] *)
Definition Math_min (a b : float) : float :=
  if PrimFloat.is_nan a || PrimFloat.is_nan b then PrimFloat.nan
  else if PrimFloat.ltb a b then a
  else if PrimFloat.ltb b a then b
  else if PrimFloat.is_zero a && PrimFloat.get_sign a then a
  else b.

Section Analyze.

(** [String.prototype.toLowerCase] *)
Variable toLowerCase : jsstring -> jsstring.

Definition analyzeUpsellResponse (userMessage : message_arg) : analysis :=
  match userMessage with
  | Undefined | Null | Str [] => {| accepted := false; confidence := 0 |}
  | Str userMessage =>
    let message := toLowerCase userMessage in
    let positiveMatches := countMatches message positiveIndicators in
    let negativeMatches := countMatches message negativeIndicators in
    if (0 <? positiveMatches) || (0 <? negativeMatches) then
      if (0 <? positiveMatches) && (0 <? negativeMatches) then
        if indexOf message (js "não") <? indexOf message (js "interessante")
        then {| accepted := false; confidence := 0.6 |}
        else {| accepted := negativeMatches <? positiveMatches;
                confidence := 0.6 |}
      else if 0 <? positiveMatches then
        {| accepted := true;
           confidence := Math_min (0.3 + number positiveMatches * 0.2) 0.95 |}
      else
        {| accepted := false;
           confidence := Math_min (0.3 + number negativeMatches * 0.2) 0.95 |}
    else
      if includes message (js "?") then
        {| accepted := false; confidence := 0.65 |}
      else if jslength message <? 10 then
        {| accepted := false; confidence := 0.5 |}
      else
        {| accepted := false; confidence := 0.55 |}
  end.

End Analyze.

(** What the specification says of a text in which both keyword sets hit:
    negative when ["não"] occurs before the first occurring positive
    keyword, the majority of the counts otherwise. *)
Definition first_positive_index (message : jsstring) : Z :=
  fold_left (fun best indicator =>
               let i := indexOf message indicator in
               if (0 <=? i) && ((best <? 0) || (i <? best)) then i else best)
            positiveIndicators (-1).

Definition nao_before_first_positive (message : jsstring) : bool :=
  let n := indexOf message (js "não") in
  (0 <=? n) && (n <? first_positive_index message).

Definition spec_both_hit (message : jsstring) : bool :=
  if nao_before_first_positive message then false
  else countMatches message negativeIndicators
       <? countMatches message positiveIndicators.

End Classifier.
Import Classifier.

(* ===================================================================== *)
(** ** Regular expressions of the source *)
(* ===================================================================== *)

Module Regex.

(** A pattern tried at the head of the remaining input: the text it
    consumes there ([match[0]]), or [None]. None of the patterns of the
    source matches the empty string. *)
Definition matcher := jsstring -> option jsstring.

(** [s.replace(/pattern/g, replacement)]: the scan goes left to right;
    after a match it resumes behind the consumed text, which [skip] counts
    down. *)
Fixpoint replace_from (m : matcher) (replacement : jsstring)
         (skip : nat) (s : jsstring) : jsstring :=
  match s with
  | [] => []
  | c :: t =>
    match skip with
    | S k => replace_from m replacement k t
    | O =>
      match m s with
      | Some m0 => replacement ++ replace_from m replacement (length m0 - 1) t
      | None => c :: replace_from m replacement 0 t
      end
    end
  end.

Definition replace_all (m : matcher) (replacement s : jsstring) : jsstring :=
  replace_from m replacement 0 s.

(** [s.split(/pattern/)]: the pieces between the matches; [cur] is the
    piece being read. *)
Fixpoint split_from (m : matcher) (skip : nat) (cur s : jsstring)
  : list jsstring :=
  match s with
  | [] => [cur]
  | c :: t =>
    match skip with
    | S k => split_from m k cur t
    | O =>
      match m s with
      | Some m0 => cur :: split_from m (length m0 - 1) [] t
      | None => split_from m 0 (cur ++ [c]) t
      end
    end
  end.

Definition split (m : matcher) (s : jsstring) : list jsstring :=
  split_from m 0 [] s.

Definition LF : N := 10.
Definition is_LF (c : N) : bool := (c =? LF)%N.

(** [/\n{3,}/]: a greedy run of at least three line feeds. *)
Definition newlines3 : matcher := fun s =>
  let run := take_while is_LF s in
  if (3 <=? length run)%nat then Some run else None.

(** The longest prefix of [w] that ends in a line feed, if any. *)
Fixpoint upto_last_LF (w : jsstring) : option jsstring :=
  match w with
  | [] => None
  | c :: w' =>
    match upto_last_LF w' with
    | Some p => Some (c :: p)
    | None => if is_LF c then Some [c] else None
    end
  end.

(** [/\n\s*\n/]: a line feed, then white space as far as it goes (line
    feeds are white space), given back up to its last line feed. *)
Definition paragraphBreak : matcher := fun s =>
  match s with
  | c :: r =>
    if is_LF c then
      match upto_last_LF (take_while is_space r) with
      | Some p => Some (c :: p)
      | None => None
      end
    else None
  | [] => None
  end.

End Regex.
Import Regex.

(* ===================================================================== *)
(** ** AI handler: special commands in the model's reply *)
(* ===================================================================== *)

Module AiHandler.

(** [{ type, id, fullCommand }] *)
Record command := {
  type : jsstring;
  id : jsstring;
  fullCommand : jsstring
}.

(** The alternatives of the first group of the command pattern. *)
Definition commandTypes : list jsstring :=
  [ js "prova_social"; js "checkout"; js "etapa"; js "suporte" ].

(** Under the [i] flag a lower-case ASCII pattern [p] matches at the head
    of [s] when the text there equals it up to ASCII case. *)
Fixpoint starts_with_ci (p s : jsstring) : bool :=
  match p, s with
  | [], _ => true
  | _ :: _, [] => false
  | a :: p', b :: s' => (a =? ascii_lower b)%N && starts_with_ci p' s'
  end.

(** [[a-z0-9_-]] under the [i] flag. *)
Definition is_id_char (c : N) : bool :=
  ((97 <=? c) && (c <=? 122) || (65 <=? c) && (c <=? 90)
   || (48 <=? c) && (c <=? 57) || (c =? 95) || (c =? 45))%N.

Definition BANG : N := 33.
Definition COLON : N := 58.

(** The optional group [(?::\s*([a-z0-9_-]+))?] tried on [r]: the text it
    consumes and its capture. *)
Definition commandIdGroup (r : jsstring) : jsstring * option jsstring :=
  match r with
  | c :: r1 =>
    if (c =? COLON)%N then
      let ws := take_while is_space r1 in
      let ident := take_while is_id_char (drop_while is_space r1) in
      match ident with
      | [] => ([], None)
      | _ :: _ => (c :: ws ++ ident, Some ident)
      end
    else ([], None)
  | [] => ([], None)
  end.

(** [/!(prova_social|checkout|etapa|suporte)(?::\s*([a-z0-9_-]+))?/i] tried
    at the head of [s]: [match[0]], [match[1]] and [match[2]]. *)
Definition commandPattern_at (s : jsstring)
  : option (jsstring * jsstring * option jsstring) :=
  match s with
  | c :: r =>
    if (c =? BANG)%N then
      match find (fun name => starts_with_ci name r) commandTypes with
      | Some name =>
        let m1 := firstn (length name) r in
        let '(g, m2) := commandIdGroup (skipn (length name) r) in
        Some (c :: m1 ++ g, m1, m2)
      | None => None
      end
    else None
  | [] => None
  end.

Definition commandPattern : matcher := fun s =>
  match commandPattern_at s with
  | Some (m0, _, _) => Some m0
  | None => None
  end.

(** The [while ((match = commandPattern.exec(content)) !== null)] loop. *)
Fixpoint extract_from (skip : nat) (content : jsstring) : list command :=
  match content with
  | [] => []
  | c :: t =>
    match skip with
    | S k => extract_from k t
    | O =>
      match commandPattern_at content with
      | Some (m0, m1, m2) =>
        {| type := map ascii_lower m1;
           id := match m2 with Some i => i | None => [] end;
           fullCommand := m0 |}
          :: extract_from (length m0 - 1) t
      | None => extract_from 0 t
      end
    end
  end.

Definition _extractSpecialCommands (content : jsstring) : list command :=
  extract_from 0 content.

Definition _removeSpecialCommands (content : jsstring) : jsstring :=
  trim (replace_all newlines3 [LF; LF] (replace_all commandPattern [] content)).

(** The directive syntax as the specification words it: [!<name>] or
    [!<name>:<id>], the name one of social_proof, checkout, stage, support
    up to case, the id a non-empty run of [[a-z0-9_-]]. *)
Definition spec_names : list jsstring :=
  [ js "social_proof"; js "checkout"; js "stage"; js "support" ].

Definition is_spec_id_char (c : N) : bool :=
  ((97 <=? c) && (c <=? 122) || (48 <=? c) && (c <=? 57)
   || (c =? 95) || (c =? 45))%N.

Definition spec_directive (d : jsstring) : Prop :=
  exists name ident,
    In (map ascii_lower name) spec_names /\
    (d = BANG :: name \/
     (d = BANG :: name ++ COLON :: ident /\ ident <> [] /\
      forallb is_spec_id_char ident = true)).

(** The syntax the command pattern accepts: [!<name>] or
    [!<name>:<spaces><id>], the name one of prova_social, checkout, etapa,
    suporte up to ASCII case, any run of white space after the colon, the
    id a non-empty run of letters of either case, digits, [_] and [-]. *)
Definition wire_directive (d : jsstring) : Prop :=
  exists name,
    In (map ascii_lower name) commandTypes /\
    (d = BANG :: name \/
     exists ws ident,
       d = BANG :: name ++ COLON :: ws ++ ident /\
       forallb is_space ws = true /\ ident <> [] /\
       forallb is_id_char ident = true).

End AiHandler.
Import AiHandler.

(* ===================================================================== *)
(** ** Chat handler: splitting an outgoing reply *)
(* ===================================================================== *)

Module Splitter.

(** One pass of the body of the [while (start < text.length)] loop of
    [_splitTextChunks] chooses where the chunk that begins at [start]
    ends. [maxLength / 2] is compared exactly: [b < start + maxLength / 2]
    is [2 * b < 2 * start + maxLength]. *)
Definition sentenceBoundary (text : jsstring) (maxLength start : Z) : Z :=
  let end_ := start + maxLength in
  let weak b := 2 * b <? 2 * start + maxLength in
  let b := lastIndexOf text (js ". ") end_ in
  let b := if weak b then lastIndexOf text (js "? ") end_ else b in
  let b := if weak b then lastIndexOf text (js "! ") end_ else b in
  let b := if weak b then lastIndexOf text [LF] end_ else b in
  let b := if weak b then lastIndexOf text (js " ") end_ else b in
  if b <? start then start + maxLength - 1 else b.

(** The loop, [fuel] bounding the number of passes; [None] when the bound
    is reached with the loop still running. *)
Fixpoint splitTextChunks_loop (fuel : nat) (text : jsstring) (maxLength : Z)
         (start : Z) (chunks : list jsstring) : option (list jsstring) :=
  match fuel with
  | O => None
  | S fuel' =>
    if start <? jslength text then
      if jslength text <=? start + maxLength then
        Some (chunks ++ [trim (substring_from text start)])
      else
        let b := sentenceBoundary text maxLength start in
        splitTextChunks_loop fuel' text maxLength (b + 1)
          (chunks ++ [trim (substring text start (b + 1))])
    else Some chunks
  end.

(** [_splitTextChunks(text, maxLength)]. With [maxLength >= 1] every pass
    moves [start] forward, so [text.length + 1] passes are enough. *)
Definition _splitTextChunks (text : jsstring) (maxLength : Z)
  : option (list jsstring) :=
  splitTextChunks_loop (S (length text)) text maxLength 0 [].

(** The [for (const paragraph of paragraphs)] loop of [_splitMessage] and
    the push of what is left in [currentMessage]. *)
Fixpoint splitParagraphs (maxLength : Z) (paragraphs : list jsstring)
         (messages : list jsstring) (currentMessage : jsstring)
  : option (list jsstring) :=
  match paragraphs with
  | [] =>
    match currentMessage with
    | [] => Some messages
    | _ :: _ => Some (messages ++ [trim currentMessage])
    end
  | paragraph :: rest =>
    if maxLength <? jslength currentMessage + jslength paragraph + 2 then
      let messages :=
        match currentMessage with
        | [] => messages
        | _ :: _ => messages ++ [trim currentMessage]
        end in
      if maxLength <? jslength paragraph then
        match _splitTextChunks paragraph maxLength with
        | Some paragraphChunks =>
          splitParagraphs maxLength rest (messages ++ paragraphChunks) []
        | None => None
        end
      else splitParagraphs maxLength rest messages paragraph
    else
      match currentMessage with
      | [] => splitParagraphs maxLength rest messages paragraph
      | _ :: _ =>
        splitParagraphs maxLength rest messages
                        (currentMessage ++ [LF; LF] ++ paragraph)
      end
  end.

(** [_splitMessage(content)], the two settings it reads from the
    configuration being arguments. *)
Definition _splitMessage (maxCharsPerMessage : Z) (splitInParagraphs : bool)
           (content : jsstring) : option (list jsstring) :=
  let maxLength := maxCharsPerMessage in
  if jslength content <=? maxLength then Some [content]
  else if splitInParagraphs then
    splitParagraphs maxLength (split paragraphBreak content) [] []
  else _splitTextChunks content maxLength.

(** [parseIntEnv(process.env.MAX_CHARS_PER_MESSAGE, 1000, 100, 4000)]: the
    values the configuration can give [maxCharsPerMessage]. *)
Definition configured_maxChars (n : Z) : Prop := 100 <= n <= 4000.

End Splitter.
Import Splitter.

(* ===================================================================== *)
(** ** Memory manager: the table of memory entries and its cache *)
(* ===================================================================== *)

Module Memory.

(** Upsell and downsell offers, as the object literals of the funnel
    service have them. *)
Record UpsellOpportunity := {
  targetPlanId : string;
  title : string;
  pitch : string;
  valueProposition : string;
  timing : string;
  discount : float;
  limitedTime : string
}.

Record DownsellOpportunity := {
  d_targetPlanId : string;
  d_title : string;
  d_pitch : string;
  d_valueProposition : string;
  d_discount : float;
  d_limitedTime : string
}.

(** The values the funnel service stores. A value is serialized on the
    way in ([JSON.stringify] for objects and [null], [String] otherwise)
    and parsed back on the way out ([_tryParseJson]); on these values the
    round trip gives the value back, dates being kept as milliseconds
    since the epoch instead of their ISO text. (A stored string that is
    itself a JSON text, such as ["123"] or ["null"], would come back as
    another type; no identifier stored here is one.) *)
Inductive jsvalue :=
| VNull
| VString (s : string)
| VUpsell (o : UpsellOpportunity)
| VDownsell (o : DownsellOpportunity)
| VRejectedUpsell (target_plan_id : option string) (rejection_time : Z)
| VStageTransition (from to : string) (timestamp : Z)
| VPurchase (product_id : string) (amount : Z) (purchase_date : Z)
| VLastInteraction (purchase_date : Z) (product_id : string).

(** Truthiness, as in [mem && mem.value]. *)
Definition truthy (v : jsvalue) : bool :=
  match v with
  | VNull => false
  | VString s => negb (String.eqb s "")
  | _ => true
  end.

(** A row of [prisma.memoryEntry], with the columns the manager uses. *)
Record MemoryEntry := {
  conversationId : string;
  key : string;
  value : jsvalue;
  type : string;
  updatedAt : Z
}.

(** [this.cache.memoryEntries] and [this.cache.lastAccess]. *)
Record Cache := {
  memoryEntries : gmap string (list MemoryEntry);
  lastAccess : gmap string Z
}.

Record MemoryManager := {
  table : list MemoryEntry;
  cache : Cache
}.

Definition empty_manager : MemoryManager :=
  {| table := []; cache := {| memoryEntries := ∅; lastAccess := ∅ |} |}.

(** *** Asynchronous methods

    A method reads the clock ([Date.now()]) and the manager, and either
    returns or throws an [Error] with a message; what it wrote before
    throwing stays written. *)
Inductive result (A : Type) :=
| Ok (a : A)
| Throw (message : string).
Arguments Ok {A} a.
Arguments Throw {A} message.

Definition M (A : Type) : Type := Z -> MemoryManager -> result A * MemoryManager.

Definition ret {A} (a : A) : M A := fun _ mm => (Ok a, mm).

Definition bind {A B} (m : M A) (k : A -> M B) : M B :=
  fun now mm =>
    match m now mm with
    | (Ok a, mm') => k a now mm'
    | (Throw e, mm') => (Throw e, mm')
    end.

Definition throw {A} (message : string) : M A := fun _ mm => (Throw message, mm).

(** [try { m } catch (error) { handler(error.message) }] *)
Definition try_catch {A} (m : M A) (handler : string -> M A) : M A :=
  fun now mm =>
    match m now mm with
    | (Ok a, mm') => (Ok a, mm')
    | (Throw e, mm') => handler e now mm'
    end.

Definition Date_now : M Z := fun now mm => (Ok now, mm).

(** The methods are written with the monad notations of stdpp:
    [x ← m; k] awaits [m] and goes on with [k]. *)
#[global] Instance M_ret : MRet M := @ret.
#[global] Instance M_bind : MBind M := fun A B k m => bind m k.

Definition same_slot (phoneNumber key type : string) (e : MemoryEntry) : bool :=
  String.eqb (conversationId e) phoneNumber && String.eqb (e.(Memory.key)) key
  && String.eqb (e.(Memory.type)) type.

(** The first element that satisfies [f] replaced by its image under [g]
    ([update] of the row [findFirst] returned). *)
Fixpoint update_first {A} (f : A -> bool) (g : A -> A) (l : list A) : list A :=
  match l with
  | [] => []
  | x :: l' => if f x then g x :: l' else x :: update_first f g l'
  end.

(** [entries.splice(entries.findIndex(f), 1)] when the index is not -1. *)
Fixpoint remove_first {A} (f : A -> bool) (l : list A) : list A :=
  match l with
  | [] => []
  | x :: l' => if f x then l' else x :: remove_first f l'
  end.

(** The first entry among those with the greatest [updatedAt]: the head
    of the list after the (stable) descending sort, and the row
    [findFirst] with [orderBy: { updatedAt: "desc" }] is taken to return. *)
Fixpoint latest_from (best : MemoryEntry) (l : list MemoryEntry) : MemoryEntry :=
  match l with
  | [] => best
  | e :: l' => latest_from (if updatedAt best <? updatedAt e then e else best) l'
  end.

Definition latest (l : list MemoryEntry) : option MemoryEntry :=
  match l with
  | [] => None
  | e :: l' => Some (latest_from e l')
  end.

(** [_updateMemoryEntryCache(phoneNumber, entry)] *)
Definition _updateMemoryEntryCache (phoneNumber : string) (entry : MemoryEntry)
           (now : Z) (c : Cache) : Cache :=
  let entries :=
    match memoryEntries c !! phoneNumber with
    | Some entries => entries
    | None => []
    end in
  let entries :=
    remove_first (fun e => String.eqb (e.(Memory.key)) (entry.(Memory.key))
                           && String.eqb (e.(Memory.type)) (entry.(Memory.type)))
                 entries in
  {| memoryEntries := <[phoneNumber := entries ++ [entry]]> (memoryEntries c);
     lastAccess := <[phoneNumber := now]> (lastAccess c) |}.

(** [saveMemoryEntry(phoneNumber, key, value, type)] *)
Definition saveMemoryEntry (phoneNumber key : string) (value : jsvalue)
           (type : string) : M MemoryEntry :=
  fun now mm =>
    if String.eqb phoneNumber "" || String.eqb key "" then
      (Throw ("Failed to save memory entry: "
              +:+ "Missing required fields: phoneNumber, key"), mm)
    else
      let slot := same_slot phoneNumber key type in
      let stored e :=
        {| conversationId := conversationId e; key := e.(Memory.key);
           value := value; type := e.(Memory.type); updatedAt := now |} in
      let '(entry, table') :=
        match find slot (table mm) with
        | Some existingEntry =>
          (stored existingEntry, update_first slot stored (table mm))
        | None =>
          let created :=
            {| conversationId := phoneNumber; key := key; value := value;
               type := type; updatedAt := now |} in
          (created, table mm ++ [created])
        end in
      (Ok entry,
       {| table := table';
          cache := _updateMemoryEntryCache phoneNumber entry now (cache mm) |}).

(** [getLatestMemoryEntry(phoneNumber, type)]: its second argument is a
    memory type. *)
Definition getLatestMemoryEntry (phoneNumber type : string)
  : M (option MemoryEntry) :=
  fun now mm =>
    let of_type e := String.eqb (e.(Memory.type)) type in
    let query mm :=
      match latest (List.filter (fun e => String.eqb (conversationId e) phoneNumber
                                     && of_type e) (table mm)) with
      | Some entry =>
        (Ok (Some entry),
         {| table := table mm;
            cache := _updateMemoryEntryCache phoneNumber entry now (cache mm) |})
      | None => (Ok None, mm)
      end in
    match memoryEntries (cache mm) !! phoneNumber with
    | Some cachedEntries =>
      let mm1 :=
        {| table := table mm;
           cache := {| memoryEntries := memoryEntries (cache mm);
                       lastAccess := <[phoneNumber := now]> (lastAccess (cache mm)) |} |} in
      match latest (List.filter of_type cachedEntries) with
      | Some entry => (Ok (Some entry), mm1)
      | None => query mm1
      end
    | None => query mm
    end.

(** [getMemoryEntry(phoneNumber, key, type)] *)
Definition getMemoryEntry (phoneNumber key type : string)
  : M (option MemoryEntry) :=
  fun now mm =>
    let query mm :=
      match find (same_slot phoneNumber key type) (table mm) with
      | Some entry =>
        (Ok (Some entry),
         {| table := table mm;
            cache := _updateMemoryEntryCache phoneNumber entry now (cache mm) |})
      | None => (Ok None, mm)
      end in
    match memoryEntries (cache mm) !! phoneNumber with
    | Some cachedEntries =>
      let mm1 :=
        {| table := table mm;
           cache := {| memoryEntries := memoryEntries (cache mm);
                       lastAccess := <[phoneNumber := now]> (lastAccess (cache mm)) |} |} in
      match find (fun e => String.eqb (e.(Memory.key)) key
                           && String.eqb (e.(Memory.type)) type) cachedEntries with
      | Some entry => (Ok (Some entry), mm1)
      | None => query mm1
      end
    | None => query mm
    end.

(** What is persisted for a conversation under a key and a type. *)
Definition persisted (mm : MemoryManager) (phoneNumber key type : string)
  : option jsvalue :=
  match find (same_slot phoneNumber key type) (table mm) with
  | Some e => Some (e.(Memory.value))
  | None => None
  end.

End Memory.

(* ===================================================================== *)
(** ** Funnel service: stages, offers and transitions *)
(* ===================================================================== *)

Module Funnel.
Import Memory.

(** [FUNNEL_STAGES] *)
Definition GREETING := "greeting"%string.
Definition QUALIFICATION := "qualification"%string.
Definition NEED_DISCOVERY := "need_discovery"%string.
Definition PAIN_POINT_EXPLORATION := "pain_point_exploration"%string.
Definition SOLUTION_PRESENTATION := "solution_presentation"%string.
Definition PRODUCT_DEMONSTRATION := "product_demonstration"%string.
Definition VALUE_PROPOSITION := "value_proposition"%string.
Definition PROOF_AND_CREDIBILITY := "proof_and_credibility"%string.
Definition OBJECTION_HANDLING := "objection_handling"%string.
Definition PRICE_DISCUSSION := "price_discussion"%string.
Definition CLOSING := "closing"%string.
Definition CHECKOUT := "checkout"%string.
Definition POST_PURCHASE_FOLLOWUP := "post_purchase_followup"%string.
Definition UPSELL := "upsell"%string.
Definition DOWNSELL := "downsell"%string.
Definition CROSS_SELL := "cross_sell"%string.
Definition REACTIVATION := "reactivation"%string.
Definition FEEDBACK := "feedback"%string.

(** [Object.values(FUNNEL_STAGES)] *)
Definition FUNNEL_STAGES_values : list string :=
  [ GREETING; QUALIFICATION; NEED_DISCOVERY; PAIN_POINT_EXPLORATION;
    SOLUTION_PRESENTATION; PRODUCT_DEMONSTRATION; VALUE_PROPOSITION;
    PROOF_AND_CREDIBILITY; OBJECTION_HANDLING; PRICE_DISCUSSION; CLOSING;
    CHECKOUT; POST_PURCHASE_FOLLOWUP; UPSELL; DOWNSELL; CROSS_SELL;
    REACTIVATION; FEEDBACK ].

(** [array.includes(x)] on strings *)
Definition includes_str (l : list string) (x : string) : bool :=
  existsb (String.eqb x) l.

(** The [detection] lists of [OBJECTION_STRATEGIES], in the order of its
    keys (the strategies and examples are not read by what follows). *)
Definition OBJECTION_STRATEGIES_detection : list (string * list jsstring) :=
  [ ("price_too_high"%string,
     [ js "caro"; js "preço"; js "custo"; js "valor"; js "barato";
       js "desconto"; js "promoção"; js "investimento"; js "orçamento" ]);
    ("need_time"%string,
     [ js "tempo"; js "pensar"; js "depois"; js "consultar"; js "decidir";
       js "amanhã"; js "semana"; js "reflexão"; js "analisar" ]);
    ("need_approval"%string,
     [ js "consultar"; js "chefe"; js "sócio"; js "esposa"; js "marido";
       js "equipe"; js "decidir junto"; js "gerente"; js "superior";
       js "diretor" ]);
    ("competitor"%string,
     [ js "concorrente"; js "outra empresa"; js "outro sistema";
       js "alternativa"; js "comparando"; js "diferente"; js "similar";
       js "serviço parecido" ]);
    ("no_need"%string,
     [ js "não preciso"; js "desnecessário"; js "resolvido"; js "satisfeito";
       js "não tenho problema"; js "sem interesse"; js "não é prioridade" ]);
    ("technical_concerns"%string,
     [ js "complicado"; js "difícil"; js "técnico"; js "complexo";
       js "implementação"; js "integração"; js "instalar"; js "configurar";
       js "aprender" ]) ].

(** [UPSELL_OPPORTUNITIES], indexed by the purchased plan. *)
Definition UPSELL_OPPORTUNITIES : list (string * list UpsellOpportunity) :=
  [ ("basic_plan"%string,
     [ {| targetPlanId := "pro_plan";
          title := "Upgrade para Plano Pro";
          pitch := "Com o Plano Pro, você terá acesso a todas as funcionalidades avançadas como [FEATURES], que podem aumentar seus resultados em até 47% com base nos dados de clientes similares.";
          valueProposition := "O investimento adicional de apenas R$X/mês se paga em Y semanas considerando o aumento de produtividade.";
          timing := "após_7_dias";
          discount := 0.15;
          limitedTime := "72h" |} ]);
    ("pro_plan"%string,
     [ {| targetPlanId := "enterprise_plan";
          title := "Upgrade para Plano Enterprise";
          pitch := "O Plano Enterprise inclui recursos exclusivos como [EXCLUSIVE_FEATURES], além de suporte prioritário e consultoria estratégica mensal.";
          valueProposition := "Empresas que utilizam nosso plano Enterprise aumentam o ROI em média 3.2x comparado ao Pro.";
          timing := "após_30_dias";
          discount := 0.1;
          limitedTime := "7d" |};
       {| targetPlanId := "addon_training";
          title := "Treinamento Personalizado";
          pitch := "Complementando seu Plano Pro, oferecemos um programa de treinamento personalizado para sua equipe maximizar o uso da plataforma.";
          valueProposition := "Equipes que passam por nosso treinamento personalizado reportam 68% mais resultados nos primeiros 60 dias.";
          timing := "após_3_dias";
          discount := 0.2;
          limitedTime := "48h" |} ]) ].

(** [DOWNSELL_ALTERNATIVES], indexed by the target plan of the upsell. *)
Definition DOWNSELL_ALTERNATIVES : list (string * DownsellOpportunity) :=
  [ ("pro_plan"%string,
     {| d_targetPlanId := "basic_plus_plan";
        d_title := "Plano Básico Plus";
        d_pitch := "Entendo que o Plano Pro pode não ser o ideal neste momento. O Básico Plus oferece os recursos essenciais do Pro, como [KEY_FEATURES], mantendo um investimento mais acessível.";
        d_valueProposition := "Você obtém 70% dos benefícios do Pro por apenas 50% do investimento.";
        d_discount := 0.25;
        d_limitedTime := "24h" |});
    ("enterprise_plan"%string,
     {| d_targetPlanId := "pro_plus_plan";
        d_title := "Plano Pro Plus";
        d_pitch := "Pensando em suas necessidades, desenvolvemos o Pro Plus, que inclui os principais recursos do Enterprise, como [KEY_FEATURES], sem o investimento completo do Enterprise.";
        d_valueProposition := "O Pro Plus entrega 80% do valor do Enterprise por 60% do investimento.";
        d_discount := 0.15;
        d_limitedTime := "48h" |});
    ("addon_training"%string,
     {| d_targetPlanId := "addon_quickstart";
        d_title := "Quickstart Guide Premium";
        d_pitch := "Como alternativa ao treinamento completo, nosso Quickstart Guide Premium oferece um conjunto de vídeos e documentação avançada para auto-aprendizado.";
        d_valueProposition := "Economize 70% comparado ao treinamento personalizado e ainda obtenha resultados significativos.";
        d_discount := 0.3;
        d_limitedTime := "24h" |}) ].

(** [object[key]] on one of the two catalogues (plan ids are not names of
    members of [Object.prototype]). *)
Fixpoint lookup_key {A} (o : list (string * A)) (k : string) : option A :=
  match o with
  | [] => None
  | (k', a) :: o' => if String.eqb k' k then Some a else lookup_key o' k
  end.

(** [this.options] *)
Record UpsellTiming := {
  default : Z;
  premium_threshold : Z;
  quick_wins : Z
}.

Record Options := {
  defaultStage : string;
  stageAdvancementThreshold : float;
  enableUpsellDownsell : bool;
  upsellTiming : UpsellTiming
}.

(** The options of the exported instance, [new SalesFunnelService()]. *)
Definition default_options : Options :=
  {| defaultStage := GREETING;
     stageAdvancementThreshold := 0.7;
     enableUpsellDownsell := true;
     upsellTiming := {| default := 7; premium_threshold := 30; quick_wins := 3 |} |}.

(** [{ role, content }] and [chatState] *)
Record Message := { role : string; content : jsstring }.
Record ChatState := { messages : option (list Message) }.

Definition MS_PER_DAY : Z := 1000 * 60 * 60 * 24.
Definition MS_PER_HOUR : Z := 1000 * 60 * 60.

(** [Math.ceil(n / d)] for [0 <= n] and [0 < d] *)
Definition ceil_div (n d : Z) : Z := (n + d - 1) / d.

(** [calculateDaysBetween(date1, date2)], dates in milliseconds *)
Definition calculateDaysBetween (date1 date2 : Z) : Z :=
  ceil_div (Z.abs (date2 - date1)) MS_PER_DAY.

(** [calculateHoursBetween(date1, date2)] *)
Definition calculateHoursBetween (date1 date2 : Z) : Z :=
  ceil_div (Z.abs (date2 - date1)) MS_PER_HOUR.

(** [timing.match(/\d+/)?.[0]] read by [parseInt]: the first run of
    decimal digits of the text, as a number. *)
Definition digit_of (a : ascii) : option Z :=
  let n := Z.of_N (N_of_ascii a) in
  if (48 <=? n) && (n <=? 57) then Some (n - 48) else None.

Fixpoint read_digits (acc : Z) (s : string) : Z :=
  match s with
  | EmptyString => acc
  | String a s' =>
    match digit_of a with
    | Some d => read_digits (10 * acc + d) s'
    | None => acc
    end
  end.

Fixpoint first_digits (s : string) : option Z :=
  match s with
  | EmptyString => None
  | String a s' =>
    match digit_of a with
    | Some d => Some (read_digits d s')
    | None => first_digits s'
    end
  end.

Section Service.

(** [this.options] of the service, [String.prototype.toLowerCase], and
    [new Date(text).getTime()] ([None] for an invalid date). *)
Variable options : Options.
Variable toLowerCase : jsstring -> jsstring.
Variable Date_parse : string -> option Z.

(** The days an offer waits for, from its [timing]. *)
Definition timingDays (opportunity : UpsellOpportunity) : Z :=
  let t := timing opportunity in
  if String.eqb t "após_3_dias" then quick_wins (upsellTiming options)
  else if String.eqb t "após_7_dias" then default (upsellTiming options)
  else if String.eqb t "após_30_dias" then premium_threshold (upsellTiming options)
  else match first_digits t with
       | Some n => n
       | None => default (upsellTiming options)
       end.

(** [checkUpsellOpportunity(productId, daysSincePurchase)] *)
Definition checkUpsellOpportunity (productId : string) (daysSincePurchase : Z)
  : option UpsellOpportunity :=
  if negb (enableUpsellDownsell options) then None
  else
    match lookup_key UPSELL_OPPORTUNITIES productId with
    | None => None
    | Some opportunities =>
      find (fun opportunity =>
              (timingDays opportunity - 1 <=? daysSincePurchase)
              && (daysSincePurchase <=? timingDays opportunity + 3))
           opportunities
    end.

(** [getDownsellForRejectedUpsell(upsellPlanId)]; the id is [None] when
    the caller read it from a value without that field. *)
Definition getDownsellForRejectedUpsell (upsellPlanId : option string)
  : option DownsellOpportunity :=
  if negb (enableUpsellDownsell options) then None
  else
    match upsellPlanId with
    | Some planId => lookup_key DOWNSELL_ALTERNATIVES planId
    | None => None
    end.

(** [value.targetPlanId] *)
Definition targetPlanId_of (v : jsvalue) : option string :=
  match v with
  | VUpsell o => Some (targetPlanId o)
  | VDownsell o => Some (d_targetPlanId o)
  | _ => None
  end.

(** [new Date(value.purchase_date || value)], [None] for an invalid date *)
Definition purchase_date_of (v : jsvalue) : option Z :=
  match v with
  | VPurchase _ _ d => Some d
  | VLastInteraction d _ => Some d
  | VString s => Date_parse s
  | _ => None
  end.

(** The stage read off the conversation when nothing else decides. *)
Definition stage_from_conversation (chatState : ChatState) : string :=
  let messageCount :=
    match messages chatState with
    | Some ms => Z.of_nat (length ms)
    | None => 0
    end in
  if messageCount =? 0 then GREETING
  else if messageCount <? 5 then QUALIFICATION
  else if messageCount <? 10 then NEED_DISCOVERY
  else
    let all := match messages chatState with Some ms => ms | None => [] end in
    let recentMessages := skipn (length all - 5) all in
    let userMessages :=
      map (fun m => toLowerCase (content m))
          (List.filter (fun m => String.eqb (role m) "user") recentMessages) in
    let some_signal signals :=
      existsb (fun msg => existsb (fun signal => includes msg signal) signals)
              userMessages in
    let pricingSignals :=
      [ js "preço"; js "valor"; js "investimento"; js "custo"; js "plano";
        js "pacote"; js "quanto custa" ] in
    let hasPricingDiscussion := some_signal pricingSignals in
    let closingSignals :=
      [ js "comprar"; js "adquirir"; js "assinar"; js "contratar";
        js "fechar"; js "pagamento" ] in
    let hasClosingDiscussion := some_signal closingSignals in
    let demoSignals :=
      [ js "funciona"; js "exemplo"; js "demonstração"; js "mostrar";
        js "ver como" ] in
    let hasDemoRequest := some_signal demoSignals in
    let objectionSignals := flat_map snd OBJECTION_STRATEGIES_detection in
    let hasObjections := some_signal objectionSignals in
    if hasClosingDiscussion then CLOSING
    else if hasPricingDiscussion then PRICE_DISCUSSION
    else if hasObjections then OBJECTION_HANDLING
    else if hasDemoRequest then PRODUCT_DEMONSTRATION
    else if messageCount <? 15 then PAIN_POINT_EXPLORATION
    else if messageCount <? 20 then SOLUTION_PRESENTATION
    else VALUE_PROPOSITION.

(** [mem && mem.value]: the value, when the entry exists and it is truthy *)
Definition truthy_value (mem : option MemoryEntry) : option jsvalue :=
  match mem with
  | Some e => if truthy (e.(Memory.value)) then Some (e.(Memory.value)) else None
  | None => None
  end.

(** The stage a stored value stands for when it is returned as one. *)
Definition stage_of_value (v : jsvalue) : string :=
  match v with
  | VString s => s
  | _ => "[object Object]"
  end.

(** The part of [determineCurrentStage] that looks for an offer: [Some]
    stage when it returns from inside the [if], [None] when control falls
    through to the analysis of the conversation. *)
Definition offer_stage (phoneNumber : string) : M (option string) :=
  if enableUpsellDownsell options then
    purchasedProductMem ← getLatestMemoryEntry phoneNumber "purchased_product";
    lastInteractionMem ← getLatestMemoryEntry phoneNumber "last_interaction";
    match truthy_value purchasedProductMem, truthy_value lastInteractionMem with
    | Some purchasedProduct, Some lastInteraction =>
      now ← Date_now;
      let purchasedProductId := stage_of_value purchasedProduct in
      let upsellOpportunity :=
        match purchase_date_of lastInteraction with
        | Some date =>
          checkUpsellOpportunity purchasedProductId (calculateDaysBetween date now)
        | None => None
        end in
      match upsellOpportunity with
      | Some upsellOpportunity =>
        saveMemoryEntry phoneNumber "active_upsell" (VUpsell upsellOpportunity)
                        "sales_opportunity";;
        mret (Some UPSELL)
      | None =>
        rejectedUpsellMem ← getLatestMemoryEntry phoneNumber "rejected_upsell";
        match truthy_value rejectedUpsellMem with
        | Some (VRejectedUpsell target_plan_id rejection_time) =>
          if calculateHoursBetween rejection_time now <? 24 then
            match getDownsellForRejectedUpsell target_plan_id with
            | Some downsellOpportunity =>
              saveMemoryEntry phoneNumber "active_downsell"
                              (VDownsell downsellOpportunity) "sales_opportunity";;
              mret (Some DOWNSELL)
            | None => mret None
            end
          else mret None
        | _ => mret None
        end
      end
    | _, _ => mret None
    end
  else mret None.

(** [determineCurrentStage(phoneNumber, chatState)] *)
Definition determineCurrentStage (phoneNumber : string) (chatState : ChatState)
  : M string :=
  try_catch
    (stageMem ← getLatestMemoryEntry phoneNumber "funnel_stage";
     match truthy_value stageMem with
     | Some saved => mret (stage_of_value saved)
     | None =>
       offered ← offer_stage phoneNumber;
       match offered with
       | Some stage => mret stage
       | None =>
         let stage := stage_from_conversation chatState in
         saveMemoryEntry phoneNumber "current_stage" (VString stage) "funnel_stage";;
         mret stage
       end
     end)
    (fun _ => mret (defaultStage options)).

(** [updateFunnelStage(phoneNumber, newStage)] *)
Definition updateFunnelStage (phoneNumber newStage : string) : M unit :=
  try_catch
    (if negb (includes_str FUNNEL_STAGES_values newStage) then
       throw ("Invalid funnel stage: " +:+ newStage)
     else
       currentStageMem ← getLatestMemoryEntry phoneNumber "funnel_stage";
       let currentStage :=
         match truthy_value currentStageMem with
         | Some v => stage_of_value v
         | None => defaultStage options
         end in
       newStage ←
         (if String.eqb currentStage UPSELL && negb (String.eqb newStage UPSELL)
          then
            activeUpsellMem ← getLatestMemoryEntry phoneNumber "active_upsell";
            match truthy_value activeUpsellMem with
            | Some activeUpsell =>
              now ← Date_now;
              saveMemoryEntry phoneNumber "rejected_upsell"
                (VRejectedUpsell (targetPlanId_of activeUpsell) now)
                "sales_opportunity";;
              match getDownsellForRejectedUpsell (targetPlanId_of activeUpsell) with
              | Some downsellOpportunity =>
                saveMemoryEntry phoneNumber "active_downsell"
                  (VDownsell downsellOpportunity) "sales_opportunity";;
                mret DOWNSELL
              | None => mret newStage
              end
            | None => mret newStage
            end
          else mret newStage);
       saveMemoryEntry phoneNumber "current_stage" (VString newStage) "funnel_stage";;
       now ← Date_now;
       saveMemoryEntry phoneNumber ("stage_transition_" +:+ pretty now)
         (VStageTransition currentStage newStage now) "funnel_analytics";;
       mret tt)
    (fun message => throw ("Failed to update funnel stage: " +:+ message)).

(** [recordPurchase(phoneNumber, productId, value)] *)
Definition recordPurchase (phoneNumber productId : string) (value : Z) : M unit :=
  try_catch
    (saveMemoryEntry phoneNumber "purchased_product" (VString productId)
                     "purchase_history";;
     now ← Date_now;
     saveMemoryEntry phoneNumber ("purchase_" +:+ pretty now)
                     (VPurchase productId value now) "purchase_history";;
     saveMemoryEntry phoneNumber "last_interaction"
                     (VLastInteraction now productId) "customer_journey";;
     updateFunnelStage phoneNumber POST_PURCHASE_FOLLOWUP;;
     mret tt)
    (fun message => throw ("Failed to record purchase: " +:+ message)).

End Service.

End Funnel.

(* ===================================================================== *)
(** ** Chat handler: grouping incoming messages and processing runs *)
(* ===================================================================== *)

Module Batcher.

Section Batcher.

(** An incoming WhatsApp message. *)
Variable message : Type.

(** [{ pendingMessages, isProcessing }]. The object is shared between
    [processingChats] and the run that created it, so objects live in a
    heap and are referred to by address. *)
Record processor := {
  pendingMessages : list message;
  isProcessing : bool
}.

(** An invocation of [_processChatMessages] that has not settled: the
    conversation, the address of its [processor] argument, and the
    [messages] of the pass of the loop it is in ([None] while it still
    awaits the chat state). *)
Record run := {
  run_phone : string;
  run_processor : nat;
  run_messages : option (list message)
}.

(** The maps of the handler, the heap of processor objects and the runs
    in flight. Every group of [incomingMessages] carries its armed timer. *)
Record ChatHandler := {
  incomingMessages : gmap string (list message);
  processingChats : gmap string nat;
  heap : gmap nat processor;
  next_address : nat;
  runs : list run
}.

Definition initial : ChatHandler :=
  {| incomingMessages := ∅; processingChats := ∅; heap := ∅;
     next_address := 0; runs := [] |}.

(** [_addToMessageGroup(phoneNumber, message)]: the message joins the
    pending group, whose timer is armed anew. *)
Definition _addToMessageGroup (phoneNumber : string) (m : message)
           (h : ChatHandler) : ChatHandler :=
  let group :=
    match incomingMessages h !! phoneNumber with
    | Some existingGroup => existingGroup ++ [m]
    | None => [m]
    end in
  {| incomingMessages := <[phoneNumber := group]> (incomingMessages h);
     processingChats := processingChats h; heap := heap h;
     next_address := next_address h; runs := runs h |}.

(** [_processMessageGroup(phoneNumber)], from its entry to its first
    [await]: the timer callback. *)
Definition _processMessageGroup (phoneNumber : string) (h : ChatHandler)
  : ChatHandler :=
  let without :=
    {| incomingMessages := delete phoneNumber (incomingMessages h);
       processingChats := processingChats h; heap := heap h;
       next_address := next_address h; runs := runs h |} in
  match incomingMessages h !! phoneNumber with
  | None | Some [] => without
  | Some group =>
    match processingChats h !! phoneNumber with
    | Some existingProcessor =>
      let pushed :=
        match heap h !! existingProcessor with
        | Some p => {| pendingMessages := pendingMessages p ++ group;
                       isProcessing := isProcessing p |}
        | None => {| pendingMessages := group; isProcessing := true |}
        end in
      {| incomingMessages := incomingMessages without;
         processingChats := processingChats h;
         heap := <[existingProcessor := pushed]> (heap h);
         next_address := next_address h; runs := runs h |}
    | None =>
      let a := next_address h in
      {| incomingMessages := incomingMessages without;
         processingChats := <[phoneNumber := a]> (processingChats h);
         heap := <[a := {| pendingMessages := group; isProcessing := true |}]> (heap h);
         next_address := S a;
         runs := runs h ++ [ {| run_phone := phoneNumber; run_processor := a;
                                run_messages := None |} ] |}
    end
  end.

Definition is_run (a : nat) (r : run) : bool := Nat.eqb (run_processor r) a.

(** The run leaves [_processChatMessages], by return or by exception, and
    the [finally] of [_processMessageGroup] follows before any timer
    callback can run. *)
Definition settle (r : run) (h : ChatHandler) : ChatHandler :=
  {| incomingMessages := incomingMessages h;
     processingChats := delete (run_phone r) (processingChats h);
     heap := heap h; next_address := next_address h;
     runs := List.filter (fun r' => negb (is_run (run_processor r) r')) (runs h) |}.

(** The run whose processor is at [a] comes back from an [await] to the
    head of [while (processor.pendingMessages.length > 0)]: it takes the
    pending messages for a pass, or returns. *)
Definition resume (a : nat) (h : ChatHandler) : ChatHandler :=
  match find (is_run a) (runs h), heap h !! a with
  | Some r, Some p =>
    match pendingMessages p with
    | [] => settle r h
    | messages =>
      {| incomingMessages := incomingMessages h;
         processingChats := processingChats h;
         heap := <[a := {| pendingMessages := []; isProcessing := isProcessing p |}]> (heap h);
         next_address := next_address h;
         runs := map (fun r' => if is_run a r'
                                then {| run_phone := run_phone r';
                                        run_processor := a;
                                        run_messages := Some messages |}
                                else r') (runs h) |}
    end
  | _, _ => h
  end.

(** An awaited call of the run whose processor is at [a] throws. *)
Definition abort (a : nat) (h : ChatHandler) : ChatHandler :=
  match find (is_run a) (runs h) with
  | Some r => settle r h
  | None => h
  end.

(** What the event loop can run next. A timer callback is allowed for any
    conversation at any time, which covers every schedule of the timers. *)
Inductive event :=
| Incoming (phoneNumber : string) (m : message)
| TimerFires (phoneNumber : string)
| Resumes (a : nat)
| Throws (a : nat).

Definition handle (h : ChatHandler) (e : event) : ChatHandler :=
  match e with
  | Incoming phoneNumber m => _addToMessageGroup phoneNumber m h
  | TimerFires phoneNumber => _processMessageGroup phoneNumber h
  | Resumes a => resume a h
  | Throws a => abort a h
  end.

(** The handler after a sequence of events. *)
Definition after (events : list event) : ChatHandler :=
  fold_left handle events initial.

(** The runs in flight for a conversation. *)
Definition active_runs (phoneNumber : string) (h : ChatHandler) : list run :=
  List.filter (fun r => String.eqb (run_phone r) phoneNumber) (runs h).

End Batcher.

Arguments pendingMessages {message} _.
Arguments isProcessing {message} _.
Arguments run_phone {message} _.
Arguments run_processor {message} _.
Arguments run_messages {message} _.
Arguments incomingMessages {message} _.
Arguments processingChats {message} _.
Arguments heap {message} _.
Arguments next_address {message} _.
Arguments runs {message} _.
Arguments initial {message}.
Arguments _addToMessageGroup {message} _ _ _.
Arguments _processMessageGroup {message} _ _.
Arguments settle {message} _ _.
Arguments resume {message} _ _.
Arguments abort {message} _ _.
Arguments Incoming {message} _ _.
Arguments TimerFires {message} _.
Arguments Resumes {message} _.
Arguments Throws {message} _.
Arguments handle {message} _ _.
Arguments after {message} _.
Arguments active_runs {message} _ _.
Arguments is_run {message} _ _.

End Batcher.

(* ===================================================================== *)
(** ** Memory manager: deleting an entry, coherence of the cache *)
(* ===================================================================== *)

Module MemoryOps.
Import Memory.

(** How an awaited call of the database client ends. *)
Inductive prisma_call :=
| Fulfilled
| Rejected (message : string).

(** [deleteMemoryEntry(phoneNumber, key, type)], [deleteMany] being how its
    call of [prisma.memoryEntry.deleteMany] ends: when that call is
    rejected the [catch] returns [false] and nothing has changed;
    otherwise the rows are gone from the table, the cached list of the
    conversation, when there is one, loses the entries of that key and
    type, and the method returns [true]. *)
Definition deleteMemoryEntry (deleteMany : prisma_call)
           (phoneNumber key type : string) : M bool :=
  fun now mm =>
    match deleteMany with
    | Rejected _ => (Ok false, mm)
    | Fulfilled =>
      let table' :=
        List.filter (fun e => negb (same_slot phoneNumber key type e)) (table mm) in
      let entries' :=
        match memoryEntries (cache mm) !! phoneNumber with
        | Some cachedEntries =>
          <[phoneNumber :=
              List.filter (fun e => negb (String.eqb (e.(Memory.key)) key
                                          && String.eqb (e.(Memory.type)) type))
                          cachedEntries]> (memoryEntries (cache mm))
        | None => memoryEntries (cache mm)
        end in
      (Ok true,
       {| table := table';
          cache := {| memoryEntries := entries';
                      lastAccess := lastAccess (cache mm) |} |})
    end.

(** [_tryParseJson] gives a stored string back as another value when the
    string is a JSON text. A JSON text begins, after white space, with an
    opening brace or bracket, a quotation mark, a minus sign, a digit, or
    one of the letters [t], [f], [n]; [JSON.parse] throws on every other
    string, the empty one included, and the string comes back as it is. *)
Definition json_space (a : ascii) : bool :=
  let n := N_of_ascii a in
  ((n =? 32) || (n =? 9) || (n =? 10) || (n =? 13))%N.

Definition json_start (a : ascii) : bool :=
  let n := N_of_ascii a in
  ((n =? 123) || (n =? 91) || (n =? 34) || (n =? 45)
   || (48 <=? n) && (n <=? 57) || (n =? 116) || (n =? 102) || (n =? 110))%N.

Fixpoint not_json (s : string) : bool :=
  match s with
  | EmptyString => true
  | String a s' => if json_space a then not_json s' else negb (json_start a)
  end.

(** The numbers [JSON.stringify] writes so that [JSON.parse] reads them
    back: not [NaN] or an infinity, which are written as [null], and not
    the negative zero, which is written as [0]. *)
Definition json_number (f : float) : bool :=
  PrimFloat.is_finite f && negb (PrimFloat.is_zero f && PrimFloat.get_sign f).

(** The values [_deserializeMemoryEntry] returns as they were saved: the
    objects, which are stored as their JSON text, when their numbers are
    read back as written, and the strings [JSON.parse] rejects. *)
Definition kept_by_json (v : jsvalue) : bool :=
  match v with
  | VString s => not_json s
  | VUpsell o => json_number (discount o)
  | VDownsell o => json_number (d_discount o)
  | _ => true
  end.

(** The conversation, key and type of an entry: what [saveMemoryEntry]
    looks a row up by. *)
Definition slot_of (e : MemoryEntry) : string * string * string :=
  (conversationId e, e.(Memory.key), e.(Memory.type)).

(** The cache agrees with the table: the table has one row for a
    conversation, key and type at most; a cached list belongs to its
    conversation, has one entry for a key and type at most, and every
    entry in it is a row of the table. *)
Record coherent (mm : MemoryManager) : Prop := {
  table_slots : List.NoDup (map slot_of (table mm));
  cached_slots :
    forall phoneNumber entries,
      memoryEntries (cache mm) !! phoneNumber = Some entries ->
      List.NoDup (map slot_of entries);
  cached_rows :
    forall phoneNumber entries e,
      memoryEntries (cache mm) !! phoneNumber = Some entries ->
      In e entries -> conversationId e = phoneNumber /\ In e (table mm)
}.

End MemoryOps.

(* ===================================================================== *)
(** ** AI handler: history, stage suggestions, retries, processed reply *)
(* ===================================================================== *)

Module AiHandlerOps.

(** *** [_prepareMessagesForAI] *)

Definition MAX_HISTORY_TOKENS : Z := 4000.

(** [_simpleTokenCount(text)], the [countTokens] of the handler:
    [Math.ceil(text.length / 4)], and 0 for the empty string. *)
Definition _simpleTokenCount (text : jsstring) : Z :=
  match text with
  | [] => 0
  | _ :: _ => Funnel.ceil_div (jslength text) 4
  end.

Definition countTokens : jsstring -> Z := _simpleTokenCount.

(** The [for (let i = recentMessages.length - 1; i >= 0; i--)] loop, over
    the messages from the most recent one back: [continue] on a system
    message, [unshift] while the budget allows, [break] otherwise. *)
Fixpoint select_history (recentMessages : list Funnel.Message) (totalTokens : Z)
         (historyToInclude : list Funnel.Message) : list Funnel.Message * Z :=
  match recentMessages with
  | [] => (historyToInclude, totalTokens)
  | msg :: older =>
    let msgTokens := countTokens (Funnel.content msg) in
    if String.eqb (Funnel.role msg) "system" then
      select_history older totalTokens historyToInclude
    else if totalTokens + msgTokens <=? MAX_HISTORY_TOKENS then
      select_history older (totalTokens + msgTokens) (msg :: historyToInclude)
    else (historyToInclude, totalTokens)
  end.

(** [_prepareMessagesForAI(systemPrompt, conversationHistory)] *)
Definition _prepareMessagesForAI (systemPrompt : jsstring)
           (conversationHistory : list Funnel.Message) : list Funnel.Message :=
  let messages := [ {| Funnel.role := "system"; Funnel.content := systemPrompt |} ] in
  let '(historyToInclude, _) :=
    select_history (rev conversationHistory) (countTokens systemPrompt) [] in
  messages ++ map (fun msg => {| Funnel.role := Funnel.role msg;
                                 Funnel.content := Funnel.content msg |})
                  historyToInclude.

(** *** [_detectStageSuggestion] *)

(** [[a-z_]] under the [i] flag. *)
Definition is_stage_char (c : N) : bool :=
  ((97 <=? c) && (c <=? 122) || (65 <=? c) && (c <=? 90) || (c =? 95))%N.

(** [/!etapa:([a-z_]+)/i] tried at the head of [s]: its capture. *)
Definition stageCommand_at (s : jsstring) : option jsstring :=
  if starts_with_ci (js "!etapa:") s then
    match take_while is_stage_char (skipn 7 s) with
    | [] => None
    | c :: g => Some (c :: g)
    end
  else None.

(** [/!etapa:([a-z_]+)/i.exec(content)]: the capture of the first match. *)
Fixpoint stageCommand_exec (content : jsstring) : option jsstring :=
  match stageCommand_at content with
  | Some g => Some g
  | None =>
    match content with
    | [] => None
    | _ :: rest => stageCommand_exec rest
    end
  end.

(** [stageIndicators], in the order of its keys. Every pattern is a
    literal text in lower case. *)
Definition stageIndicators : list (string * list jsstring) :=
  [ (Funnel.QUALIFICATION,
     [ js "poderia me contar mais sobre";
       js "me fale um pouco sobre sua empresa";
       js "quantos funcionários vocês têm";
       js "qual o tamanho da sua operação" ]);
    (Funnel.NEED_DISCOVERY,
     [ js "quais são os principais desafios";
       js "o que você busca resolver";
       js "quais problemas você enfrenta";
       js "o que tem sido difícil no seu processo" ]);
    (Funnel.PAIN_POINT_EXPLORATION,
     [ js "quanto isso tem custado para você";
       js "qual o impacto desse problema";
       js "como isso afeta seus resultados";
       js "que consequências isso traz" ]);
    (Funnel.SOLUTION_PRESENTATION,
     [ js "nossa solução pode ajudar";
       js "temos uma solução que";
       js "nosso produto resolve isso";
       js "deixe-me apresentar como podemos" ]);
    (Funnel.VALUE_PROPOSITION,
     [ js "o valor que entregamos";
       js "o retorno sobre o investimento";
       js "nossos clientes conseguem";
       js "em termos de resultados" ]);
    (Funnel.OBJECTION_HANDLING,
     [ js "entendo sua preocupação";
       js "é natural ter essa dúvida";
       js "muitos clientes também questionam";
       js "compreendo seu ponto" ]);
    (Funnel.PRICE_DISCUSSION,
     [ js "o investimento para";
       js "nossos preços são";
       js "temos diferentes planos";
       js "o valor do nosso produto" ]);
    (Funnel.CLOSING,
     [ js "podemos seguir com";
       js "qual plano faz mais sentido para você";
       js "quer começar com";
       js "vamos avançar com" ]) ].

(** [pattern.test(content)] for a literal pattern in lower case under the
    [i] flag: the letters of the patterns are Basic Latin and Latin-1
    letters, which the flag identifies with their capitals only. *)
Definition test_ci (pattern content : jsstring) : bool :=
  includes (map lower_latin1 content) pattern.

(** [_detectStageSuggestion(content, currentStage)]; [None] is [null]. *)
Definition _detectStageSuggestion (content : jsstring) (currentStage : string)
  : option string :=
  let explicit :=
    match stageCommand_exec content with
    | Some g =>
      let suggestedStage := map ascii_lower g in
      find (fun stage => bool_decide (js stage = suggestedStage))
           Funnel.FUNNEL_STAGES_values
    | None => None
    end in
  match explicit with
  | Some suggestedStage => Some suggestedStage
  | None =>
    match find (fun '(stage, patterns) =>
                  negb (String.eqb stage currentStage)
                  && existsb (fun pattern => test_ci pattern content) patterns)
               stageIndicators with
    | Some (stage, _) => Some stage
    | None => None
    end
  end.

(** *** [_isRetryableError] and the retry loop of [_sendToOpenAI] *)

(** What the handler reads of a thrown error: whether it is an axios
    error, its [code], the status of its [response] ([None] without a
    response) and its [message]. *)
Record Error := {
  isAxiosError : bool;
  code : string;
  response_status : option Z;
  message : jsstring
}.

Definition _isRetryableError (error : Error) : bool :=
  let by_message :=
    negb (Nat.eqb (length (message error)) 0)
    && (includes (message error) (js "timeout")
        || includes (message error) (js "rate limit")
        || includes (message error) (js "overloaded")
        || includes (message error) (js "internal error")
        || includes (message error) (js "service unavailable")) in
  if isAxiosError error then
    if String.eqb (code error) "ECONNABORTED" then true
    else
      match response_status error with
      | None => true
      | Some status =>
        if (500 <=? status) && (status <? 600) then true
        else if status =? 429 then true
        else if (400 <=? status) && (status <? 500) then
          if (status =? 400) || (status =? 401) then false else true
        else by_message
      end
  else by_message.

(** [botConfig.openai.retryConfig] *)
Record RetryConfig := {
  maxRetries : Z;
  initialDelayMs : float;
  maxDelayMs : float
}.

(** How a call of [createChatCompletion] ends: with a response or with an
    error. Of a response the handler reads [data.choices[0]]:
    [first_choice] is [None] when the response, its [data], its [choices]
    or that first choice is missing, and otherwise the [message] of the
    choice, which is [None] when the choice has none ([undefined]). *)
Inductive outcome (Msg : Type) :=
| Resolves (first_choice : option (option Msg))
| Rejects (error : Error).
Arguments Resolves {Msg}.
Arguments Rejects {Msg}.

(** How [_sendToOpenAI] ends: it returns [choices[0].message], which may be
    [undefined] ([None]), or throws the error of a request, or throws
    [Invalid response from OpenAI]. *)
Inductive sent (Msg : Type) :=
| Returns (message : option Msg)
| ThrowsError (error : Error)
| ThrowsInvalidResponse.
Arguments Returns {Msg}.
Arguments ThrowsError {Msg}.
Arguments ThrowsInvalidResponse {Msg}.

Section SendToOpenAI.

Variable Msg : Type.
Variable retryConfig : RetryConfig.
(** The outcome of the [n]-th request and the [n]-th value of
    [Math.random()]. *)
Variable createChatCompletion : nat -> outcome Msg.
Variable Math_random : nat -> float.

(** The [while (attempts <= maxRetries)] loop; [requests] counts the calls
    made so far, [waited] lists the delays of the [setTimeout]s, latest
    first. The result is the response the loop leaves ([None] for [null],
    else what the handler reads of it), or the error it throws. *)
Fixpoint send_loop (fuel : nat) (attempts : Z) (delay : float)
         (requests : nat) (waited : list float)
  : option ((option (option (option Msg)) + Error) * nat * list float) :=
  match fuel with
  | O => None
  | S fuel' =>
    if attempts <=? maxRetries retryConfig then
      match createChatCompletion requests with
      | Resolves response => Some (inl (Some response), S requests, waited)
      | Rejects error =>
        let attempts := attempts + 1 in
        let shouldRetry :=
          (attempts <=? maxRetries retryConfig) && _isRetryableError error in
        if shouldRetry then
          let delay' :=
            Classifier.Math_min
              (PrimFloat.mul (PrimFloat.mul delay 2)
                 (PrimFloat.add 0.8 (PrimFloat.mul 0.4 (Math_random requests))))
              (maxDelayMs retryConfig) in
          send_loop fuel' attempts delay' (S requests) (delay :: waited)
        else Some (inr error, S requests, waited)
      end
    else Some (inl None, requests, waited)
  end.

(** [_sendToOpenAI(messages)]: after the loop, a [response] that is [null]
    or lacks [data.choices[0]] is an invalid response; otherwise the
    message of the first choice is returned as it is. *)
Definition _sendToOpenAI (fuel : nat) : option (sent Msg * nat * list float) :=
  match send_loop fuel 0 (initialDelayMs retryConfig) 0 [] with
  | Some (inl (Some (Some message)), requests, waited) =>
    Some (Returns message, requests, rev waited)
  | Some (inl _, requests, waited) =>
    Some (ThrowsInvalidResponse, requests, rev waited)
  | Some (inr error, requests, waited) =>
    Some (ThrowsError error, requests, rev waited)
  | None => None
  end.

End SendToOpenAI.

(** *** [_processAIResponse] *)

(** [processedResponse.metadata]: a field is [None] while it is not set. *)
Record Metadata := {
  socialProofId : option jsstring;
  checkoutPlanId : option jsstring;
  suggestedStage : option jsstring;
  requiresHumanSupport : option bool
}.

Record ProcessedResponse := {
  content : jsstring;
  metadata : Metadata;
  actions : list command
}.

(** The [switch (command.type)] of the [forEach]. *)
Definition apply_command (m : Metadata) (c : command) : Metadata :=
  if bool_decide (AiHandler.type c = js "prova_social") then
    {| socialProofId := Some (AiHandler.id c); checkoutPlanId := checkoutPlanId m;
       suggestedStage := suggestedStage m;
       requiresHumanSupport := requiresHumanSupport m |}
  else if bool_decide (AiHandler.type c = js "checkout") then
    {| socialProofId := socialProofId m; checkoutPlanId := Some (AiHandler.id c);
       suggestedStage := suggestedStage m;
       requiresHumanSupport := requiresHumanSupport m |}
  else if bool_decide (AiHandler.type c = js "etapa") then
    {| socialProofId := socialProofId m; checkoutPlanId := checkoutPlanId m;
       suggestedStage := Some (AiHandler.id c);
       requiresHumanSupport := requiresHumanSupport m |}
  else if bool_decide (AiHandler.type c = js "suporte") then
    {| socialProofId := socialProofId m; checkoutPlanId := checkoutPlanId m;
       suggestedStage := suggestedStage m;
       requiresHumanSupport := Some true |}
  else m.

(** [_processAIResponse(aiResponse, currentFunnelStage)], of which only
    [aiResponse.content] is read. *)
Definition _processAIResponse (aiResponse_content : jsstring) : ProcessedResponse :=
  let specialCommands := _extractSpecialCommands aiResponse_content in
  {| content :=
       if (0 <? Z.of_nat (length specialCommands))
       then _removeSpecialCommands aiResponse_content
       else aiResponse_content;
     metadata :=
       fold_left apply_command specialCommands
                 {| socialProofId := None; checkoutPlanId := None;
                    suggestedStage := None; requiresHumanSupport := None |};
     actions := specialCommands |}.

End AiHandlerOps.

(* ===================================================================== *)
(** ** Bot configuration: integers read from the environment *)
(* ===================================================================== *)

Module BotConfig.

Definition is_digit (c : N) : bool := ((48 <=? c) && (c <=? 57))%N.

(** The number a run of decimal digits writes. *)
Definition digits_value (digits : jsstring) : Z :=
  fold_left (fun n d => 10 * n + (Z.of_N d - 48)) digits 0.

Definition MINUS : N := 45.
Definition PLUS : N := 43.

(** [parseInt(value, 10)]: leading white space is skipped, a sign is read,
    then the longest run of decimal digits; [None] is [NaN]. The result is
    the integer the digits write. [parseInt] gives the binary64 number
    nearest to it, which is that integer up to 2^53 and compares with an
    integer of at most that size as the integer itself does: the
    configuration only uses the result between two such bounds. *)
Definition parseInt (value : jsstring) : option Z :=
  let text := trimStart value in
  let '(sign, text) :=
    match text with
    | c :: rest =>
      if (c =? MINUS)%N then (-1, rest)
      else if (c =? PLUS)%N then (1, rest)
      else (1, text)
    | [] => (1, text)
    end in
  match take_while is_digit text with
  | [] => None
  | d :: ds => Some (sign * digits_value (d :: ds))
  end.

(** [parseIntEnv(value, defaultValue, minValue, maxValue)]; a variable
    that is not set is [None], and so is a bound that is [null]. Every
    call of the configuration gives both bounds, integers below 2^53. *)
Definition parseIntEnv (value : option jsstring) (defaultValue : Z)
           (minValue maxValue : option Z) : Z :=
  match value with
  | None => defaultValue
  | Some value =>
    match parseInt value with
    | None => defaultValue
    | Some parsedValue =>
      match minValue with
      | Some m =>
        if parsedValue <? m then m
        else match maxValue with
             | Some M => if M <? parsedValue then M else parsedValue
             | None => parsedValue
             end
      | None =>
        match maxValue with
        | Some M => if M <? parsedValue then M else parsedValue
        | None => parsedValue
        end
      end
    end
  end.

(** [messageSettings.maxCharsPerMessage], from [MAX_CHARS_PER_MESSAGE] *)
Definition maxCharsPerMessage (env : option jsstring) : Z :=
  parseIntEnv env 1000 (Some 100) (Some 4000).

(** [openai.retryConfig.maxRetries], from [OPENAI_MAX_RETRIES] *)
Definition maxRetries (env : option jsstring) : Z :=
  parseIntEnv env 3 (Some 0) (Some 10).

End BotConfig.

(* ===================================================================== *)
(** ** Chat handler: the message counters of the spam protection *)
(* ===================================================================== *)

Module SpamProtection.

(** [{ count, timestamp, timeout }]: a counter carries its armed timer. *)
Record counter := { count : Z; timestamp : Z }.

(** [this.messageCounters] *)
Abbreviation messageCounters := (gmap string counter).

Section SpamProtection.

(** [botConfig.behavior.spamProtection] and [.maxMessagesPerMinute] *)
Variable spamProtection : bool.
Variable maxMessagesPerMinute : Z.

(** [_isSpamming(phoneNumber)] *)
Definition _isSpamming (phoneNumber : string) (counters : messageCounters) : bool :=
  match counters !! phoneNumber with
  | None => false
  | Some c => maxMessagesPerMinute <? count c
  end.

(** [_updateMessageCounter(phoneNumber)] at the time [now] *)
Definition _updateMessageCounter (phoneNumber : string) (now : Z)
           (counters : messageCounters) : messageCounters :=
  let c :=
    match counters !! phoneNumber with
    | Some c => c
    | None => {| count := 0; timestamp := now |}
    end in
  let c :=
    if 60000 <=? now - timestamp c then {| count := 0; timestamp := now |} else c in
  <[phoneNumber := {| count := count c + 1; timestamp := timestamp c |}]> counters.

(** The callback of the timer of a counter: the counter it finds is the
    one that armed it, whose [timestamp] it compares with itself. *)
Definition reset (phoneNumber : string) (counters : messageCounters)
  : messageCounters :=
  match counters !! phoneNumber with
  | Some _ => delete phoneNumber counters
  | None => counters
  end.

(** The spam check and the counting of [handleIncomingMessage]: the
    counters afterwards, and whether the message goes on to its group. *)
Definition check_and_count (phoneNumber : string) (now : Z)
           (counters : messageCounters) : messageCounters * bool :=
  if spamProtection && _isSpamming phoneNumber counters then (counters, false)
  else (_updateMessageCounter phoneNumber now counters, true).

Inductive event :=
| Message (phoneNumber : string) (now : Z)
| CounterTimerFires (phoneNumber : string).

Definition handle (counters : messageCounters) (e : event) : messageCounters :=
  match e with
  | Message phoneNumber now => fst (check_and_count phoneNumber now counters)
  | CounterTimerFires phoneNumber => reset phoneNumber counters
  end.

Definition after (events : list event) : messageCounters :=
  fold_left handle events ∅.

End SpamProtection.

End SpamProtection.

(* ===================================================================== *)
(** * Properties *)
(* ===================================================================== *)

(** ** JavaScript strings *)

Module JsStringFacts.

Example js_nao : js "não" = [110; 227; 111]%N.
Proof. reflexivity. Qed.

Example lower_latin1_upper :
  toLowerCase_latin1 (js "NÃO, Ótimo") = js "não, ótimo".
Proof. reflexivity. Qed.

Example lastIndexOf_at_pos : lastIndexOf (js "ab. cd. e") (js ". ") 6 = 6.
Proof. reflexivity. Qed.

Example lastIndexOf_before_pos : lastIndexOf (js "ab. cd. e") (js ". ") 5 = 2.
Proof. reflexivity. Qed.

Example lastIndexOf_negative_pos : lastIndexOf (js ". ab") (js ". ") (-3) = 0.
Proof. reflexivity. Qed.

Example substring_swaps : substring (js "abcdef") 4 2 = js "cd".
Proof. reflexivity. Qed.

Lemma starts_with_app (p s : jsstring) :
  starts_with p s = true <-> exists post, s = p ++ post.
Proof.
  revert s. induction p as [|a p IH]; intros s; simpl.
  - split; [intros _; now exists s | reflexivity].
  - destruct s as [|b s]; simpl.
    + split; [discriminate | intros [post H]; discriminate].
    + rewrite andb_true_iff, N.eqb_eq, IH. split.
      * intros [-> [post ->]]. now exists post.
      * intros [post H]. injection H as -> ->. split; [reflexivity | now exists post].
Qed.

(** [includes] is the substring test. *)
Lemma includes_substring (s p : jsstring) :
  includes s p = true <-> exists pre post, s = pre ++ p ++ post.
Proof.
  induction s as [|c s IH].
  - simpl. rewrite orb_false_r, starts_with_app. split.
    + intros [post H]. now exists [], post.
    + intros [pre [post H]]. destruct pre as [|x pre]; [|discriminate].
      now exists post.
  - cbn [includes]. rewrite orb_true_iff, starts_with_app, IH. split.
    + intros [[post H] | [pre [post H]]].
      * now exists [], post.
      * exists (c :: pre), post. now rewrite H.
    + intros [pre [post H]]. destruct pre as [|x pre].
      * left. now exists post.
      * right. injection H as _ H. now exists pre, post.
Qed.

End JsStringFacts.

(** ** The offer-response classifier *)

Module ClassifierFacts.
Import JsStringFacts.

Lemma countMatches_from (message : jsstring) (l : list jsstring) (k : Z) :
  fold_left (fun matches indicator =>
               if includes message indicator then matches + 1 else matches) l k
  = k + countMatches message l.
Proof.
  unfold countMatches. revert k. induction l as [|i l IH]; intros k; simpl.
  - lia.
  - rewrite (IH (if includes message i then k + 1 else k)),
            (IH (if includes message i then 0 + 1 else 0)).
    destruct (includes message i); lia.
Qed.

Lemma countMatches_cons (message i : jsstring) (l : list jsstring) :
  countMatches message (i :: l)
  = (if includes message i then 1 else 0) + countMatches message l.
Proof.
  unfold countMatches at 1. simpl. rewrite countMatches_from.
  destruct (includes message i); lia.
Qed.

Lemma countMatches_range (message : jsstring) (l : list jsstring) :
  0 <= countMatches message l <= Z.of_nat (length l).
Proof.
  induction l as [|i l IH].
  - unfold countMatches; simpl; lia.
  - rewrite countMatches_cons. cbn [length].
    destruct (includes message i); lia.
Qed.

Lemma countMatches_positive (message : jsstring) (l : list jsstring) :
  0 < countMatches message l ->
  exists i, In i l /\ includes message i = true.
Proof.
  induction l as [|i l IH].
  - unfold countMatches; simpl; lia.
  - rewrite countMatches_cons. destruct (includes message i) eqn:E.
    + intros _. exists i. split; [now left | exact E].
    + intros H. destruct IH as [j [Hj Ej]]; [lia|].
      exists j. split; [now right | exact Ej].
Qed.

(** The confidence of a one-sided verdict, for every count a keyword list
    of the classifier can give. *)
Definition one_sided (k : Z) : float := Math_min (0.3 + number k * 0.2) 0.95.

Lemma small_count_cases (k : Z) :
  0 <= k <= 16 -> In k (map Z.of_nat (seq 0 17)).
Proof.
  intros H. replace k with (Z.of_nat (Z.to_nat k)) by lia.
  apply in_map, in_seq. lia.
Qed.

Lemma one_sided_checked :
  forallb (fun k => PrimFloat.leb 0 (one_sided k)
                    && PrimFloat.leb (one_sided k) 0.95
                    && (PrimFloat.leb 0.5 (one_sided k) || (k =? 0)))
          (map Z.of_nat (seq 0 17)) = true.
Proof. vm_compute. reflexivity. Qed.

Lemma one_sided_facts (k : Z) :
  0 <= k <= 16 ->
  PrimFloat.leb 0 (one_sided k) = true /\
  PrimFloat.leb (one_sided k) 0.95 = true /\
  (0 < k -> PrimFloat.leb 0.5 (one_sided k) = true).
Proof.
  intros H. pose proof one_sided_checked as C.
  rewrite forallb_forall in C. specialize (C k (small_count_cases k H)).
  rewrite !andb_true_iff, orb_true_iff, Z.eqb_eq in C.
  repeat split; try tauto. intros Hk. destruct C as [_ [C | C]]; [exact C | lia].
Qed.

(** The product of the formula is the same in either order. *)
Lemma one_sided_commuted (k : Z) :
  0 <= k <= 16 ->
  Math_min (0.3 + 0.2 * number k) 0.95 = one_sided k.
Proof.
  intros H. apply small_count_cases in H. simpl in H.
  repeat (destruct H as [<- | H]; [vm_compute; reflexivity|]).
  destruct H.
Qed.


Section AnyLowerCase.

Variable toLowerCase : jsstring -> jsstring.

Let analyze := analyzeUpsellResponse toLowerCase.

Lemma analyze_absent (userMessage : message_arg) :
  userMessage = Undefined \/ userMessage = Null \/ userMessage = Str [] ->
  analyze userMessage = {| accepted := false; confidence := 0 |}.
Proof. intros [-> | [-> | ->]]; reflexivity. Qed.

Lemma positive_range (message : jsstring) :
  0 <= countMatches message positiveIndicators <= 16.
Proof. exact (countMatches_range message positiveIndicators). Qed.

Lemma negative_range (message : jsstring) :
  0 <= countMatches message negativeIndicators <= 16.
Proof.
  pose proof (countMatches_range message negativeIndicators) as H.
  simpl in H. lia.
Qed.

Lemma analyze_confidence_range (userMessage : message_arg) :
  PrimFloat.leb 0 (confidence (analyze userMessage)) = true /\
  PrimFloat.leb (confidence (analyze userMessage)) 0.95 = true.
Proof.
  destruct userMessage as [| |[|c s]]; try (split; reflexivity).
  unfold analyze, analyzeUpsellResponse.
  set (message := toLowerCase (c :: s)).
  pose proof (one_sided_facts _ (positive_range message)) as [P0 [P1 _]].
  pose proof (one_sided_facts _ (negative_range message)) as [N0 [N1 _]].
  repeat match goal with
         | |- context [if ?b then _ else _] => destruct b
         end; cbn [confidence]; try (split; reflexivity); split; assumption.
Qed.

Lemma analyze_accepted (userMessage : message_arg) :
  accepted (analyze userMessage) = true ->
  exists s, userMessage = Str s /\
            0 < countMatches (toLowerCase s) positiveIndicators.
Proof.
  destruct userMessage as [| |[|c s]]; try discriminate.
  unfold analyze, analyzeUpsellResponse.
  set (message := toLowerCase (c :: s)).
  destruct (0 <? countMatches message positiveIndicators) eqn:P.
  - intros _. exists (c :: s). split; [reflexivity | now apply Z.ltb_lt].
  - cbn [orb andb].
    repeat match goal with
           | |- context [if ?b then _ else _] => destruct b
           end; cbn [accepted]; discriminate.
Qed.

End AnyLowerCase.

End ClassifierFacts.

(** C10. [analyzeUpsellResponse] is a total function of its argument (a
    string, [null] or [undefined]), and whatever the argument: the
    confidence lies between 0 and 0.95; the offer is reported accepted only
    if some positive keyword is a substring of the lower-cased text; and
    for [null], [undefined] and the empty string the answer is "not
    accepted" with confidence 0. Lower-casing is any function. *)
Theorem analyzeUpsellResponse_total_and_bounded
        (toLowerCase : jsstring -> jsstring) (userMessage : message_arg) :
  exists r : analysis,
    analyzeUpsellResponse toLowerCase userMessage = r /\
    (PrimFloat.leb 0 (confidence r) = true /\
     PrimFloat.leb (confidence r) 0.95 = true) /\
    (accepted r = true ->
     exists s keyword pre post,
       userMessage = Str s /\ In keyword positiveIndicators /\
       toLowerCase s = pre ++ keyword ++ post) /\
    (userMessage = Undefined \/ userMessage = Null \/ userMessage = Str [] ->
     r = {| accepted := false; confidence := 0 |}).
Proof.
  exists (analyzeUpsellResponse toLowerCase userMessage).
  split; [reflexivity|]. split; [|split].
  - apply ClassifierFacts.analyze_confidence_range.
  - intros A. apply ClassifierFacts.analyze_accepted in A as [s [-> P]].
    apply ClassifierFacts.countMatches_positive in P as [kw [K I]].
    apply JsStringFacts.includes_substring in I as [pre [post E]].
    now exists s, kw, pre, post.
  - apply ClassifierFacts.analyze_absent.
Qed.

(** C8. When only positive keywords match the lower-cased text, the offer
    is reported accepted with confidence [min(0.3 + 0.2 * count, 0.95)]
    (lower-casing is any function that keeps the empty string empty); the
    reply "sim, quero!" is accepted and the reply "não, muito caro" is
    rejected, both with confidence at least 0.5. *)
Theorem only_positive_keywords_accept :
  (forall (toLowerCase : jsstring -> jsstring) (s : jsstring),
      toLowerCase [] = [] ->
      0 < countMatches (toLowerCase s) positiveIndicators ->
      countMatches (toLowerCase s) negativeIndicators = 0 ->
      analyzeUpsellResponse toLowerCase (Str s)
      = {| accepted := true;
           confidence :=
             Math_min (0.3 + 0.2 * number (countMatches (toLowerCase s)
                                                        positiveIndicators))
                      0.95 |}) /\
  (let r := analyzeUpsellResponse toLowerCase_latin1 (Str (js "sim, quero!")) in
   accepted r = true /\ PrimFloat.leb 0.5 (confidence r) = true) /\
  (let r := analyzeUpsellResponse toLowerCase_latin1 (Str (js "não, muito caro")) in
   accepted r = false /\ PrimFloat.leb 0.5 (confidence r) = true).
Proof.
  split; [|split; [split; vm_compute; reflexivity | split; vm_compute; reflexivity]].
  intros toLowerCase s Hempty Hpos Hneg.
  rewrite (ClassifierFacts.one_sided_commuted _
             (ClassifierFacts.positive_range (toLowerCase s))).
  destruct s as [|c s].
  - rewrite Hempty in Hpos. vm_compute in Hpos. discriminate.
  - unfold analyzeUpsellResponse. rewrite Hneg.
    apply Z.ltb_lt in Hpos. rewrite Hpos. reflexivity.
Qed.

Lemma only_positive_keywords_accept_witness :
  analyzeUpsellResponse toLowerCase_latin1 (Str (js "Sim, QUERO!"))
  = {| accepted := true; confidence := Math_min (0.3 + 0.2 * number 2) 0.95 |}.
Proof.
  exact (proj1 only_positive_keywords_accept toLowerCase_latin1
               (js "Sim, QUERO!") eq_refl eq_refl eq_refl).
Defined.

(** C7 (the code departs from it). In "não sei, sim quero" both keyword
    sets hit and "não" stands before the first positive keyword, so the
    rule asks for a rejection; the code compares the position of "não"
    with the position of the one word "interessante", which is absent
    (position -1), falls to the majority count (2 against 1) and reports
    the offer accepted. In "sim, interessante e legal, mas caro" there is
    no "não" (position -1, which is below the position of
    "interessante"), so the code rejects where the rule asks for the
    majority (3 against 1), an acceptance. *)
Theorem nao_before_positive_is_not_what_decides :
  (let text := js "não sei, sim quero" in
   toLowerCase_latin1 text = text /\
   countMatches text positiveIndicators = 2 /\
   countMatches text negativeIndicators = 1 /\
   nao_before_first_positive text = true /\
   spec_both_hit text = false /\
   analyzeUpsellResponse toLowerCase_latin1 (Str text)
   = {| accepted := true; confidence := 0.6 |}) /\
  (let text := js "sim, interessante e legal, mas caro" in
   toLowerCase_latin1 text = text /\
   countMatches text positiveIndicators = 3 /\
   countMatches text negativeIndicators = 1 /\
   nao_before_first_positive text = false /\
   spec_both_hit text = true /\
   analyzeUpsellResponse toLowerCase_latin1 (Str text)
   = {| accepted := false; confidence := 0.6 |}).
Proof. split; repeat split; vm_compute; reflexivity. Qed.

(** ** Special commands in the model's reply *)

Module AiHandlerFacts.
Import JsStringFacts.

(** *** Scanning *)

Lemma take_drop_while (f : N -> bool) (s : jsstring) :
  take_while f s ++ drop_while f s = s.
Proof.
  induction s as [|c s IH]; simpl; [reflexivity|].
  destruct (f c); simpl; [now rewrite IH | reflexivity].
Qed.

Lemma take_while_all (f : N -> bool) (s : jsstring) :
  forallb f (take_while f s) = true.
Proof.
  induction s as [|c s IH]; simpl; [reflexivity|].
  destruct (f c) eqn:E; simpl; [now rewrite E | reflexivity].
Qed.

Lemma take_while_app (f : N -> bool) (a b : jsstring) :
  forallb f a = true ->
  take_while f (a ++ b) = a ++ take_while f b.
Proof.
  induction a as [|c a IH]; simpl; [reflexivity|].
  rewrite andb_true_iff. intros [-> H]. now rewrite IH.
Qed.

Lemma drop_while_app (f : N -> bool) (a b : jsstring) :
  forallb f a = true ->
  drop_while f (a ++ b) = drop_while f b.
Proof.
  induction a as [|c a IH]; simpl; [reflexivity|].
  rewrite andb_true_iff. intros [-> H]. now apply IH.
Qed.

Lemma take_while_whole (f : N -> bool) (a : jsstring) :
  forallb f a = true -> take_while f a = a.
Proof.
  intros H. rewrite <- (app_nil_r a) at 1.
  rewrite take_while_app by exact H. simpl. apply app_nil_r.
Qed.

Lemma id_char_not_space (c : N) : is_id_char c = true -> is_space c = false.
Proof.
  unfold is_id_char, is_space.
  rewrite !orb_true_iff, !andb_true_iff, !N.leb_le, !N.eqb_eq.
  intros H.
  repeat (apply orb_false_intro); try apply andb_false_iff;
    rewrite ?N.leb_gt, ?N.eqb_neq; lia.
Qed.

(** While [skip] characters of a match remain, the scan only moves on. *)
Lemma extract_from_skip (k : nat) (s : jsstring) :
  extract_from k s = extract_from 0 (skipn k s).
Proof.
  revert s. induction k as [|k IH]; intros s; [reflexivity|].
  destruct s as [|c s]; [reflexivity|]. simpl. apply IH.
Qed.

Lemma replace_from_skip (m : matcher) (r : jsstring) (k : nat) (s : jsstring) :
  replace_from m r k s = replace_from m r 0 (skipn k s).
Proof.
  revert s. induction k as [|k IH]; intros s; [reflexivity|].
  destruct s as [|c s]; [reflexivity|]. simpl. apply IH.
Qed.

(** *** What the command pattern matches *)

Lemma starts_with_ci_app (p s : jsstring) :
  starts_with_ci p s = true <->
  exists name rest, s = name ++ rest /\ map ascii_lower name = p.
Proof.
  revert s. induction p as [|a p IH]; intros s; simpl.
  - split; [intros _; now exists [], s | reflexivity].
  - destruct s as [|b s]; simpl.
    + split; [discriminate|].
      intros [name [rest [H1 H2]]]. destruct name; discriminate.
    + rewrite andb_true_iff, N.eqb_eq, IH. split.
      * intros [-> [name [rest [-> <-]]]]. now exists (b :: name), rest.
      * intros [name [rest [H1 H2]]]. destruct name as [|x name]; [discriminate|].
        simpl in *. injection H1 as -> ->. injection H2 as -> <-.
        split; [reflexivity | now exists name, rest].
Qed.

Lemma commandIdGroup_shape (r g : jsstring) (m2 : option jsstring) :
  commandIdGroup r = (g, m2) ->
  (exists post, r = g ++ post) /\
  (g = [] /\ m2 = None \/
   exists ws ident,
     g = COLON :: ws ++ ident /\ m2 = Some ident /\
     forallb is_space ws = true /\ ident <> [] /\
     forallb is_id_char ident = true).
Proof.
  unfold commandIdGroup. destruct r as [|c r1].
  { intros [= <- <-]. split; [now exists [] | now left]. }
  destruct (c =? COLON)%N eqn:E.
  2:{ intros [= <- <-]. split; [now exists (c :: r1) | now left]. }
  apply N.eqb_eq in E. subst c.
  destruct (take_while is_id_char (drop_while is_space r1)) as [|i ident] eqn:I.
  { intros [= <- <-]. split; [now exists (COLON :: r1) | now left]. }
  intros [= <- <-]. split.
  - exists (drop_while is_id_char (drop_while is_space r1)).
    simpl. f_equal. rewrite <- app_assoc, <- I, take_drop_while.
    symmetry. apply take_drop_while.
  - right. exists (take_while is_space r1), (i :: ident).
    repeat split; try reflexivity.
    + apply take_while_all.
    + discriminate.
    + rewrite <- I. apply take_while_all.
Qed.

Lemma commandPattern_at_shape (s m0 m1 : jsstring) (m2 : option jsstring) :
  commandPattern_at s = Some (m0, m1, m2) ->
  (exists post, s = m0 ++ post) /\
  In (map ascii_lower m1) commandTypes /\
  (m0 = BANG :: m1 /\ m2 = None \/
   exists ws ident,
     m0 = BANG :: m1 ++ COLON :: ws ++ ident /\ m2 = Some ident /\
     forallb is_space ws = true /\ ident <> [] /\
     forallb is_id_char ident = true).
Proof.
  unfold commandPattern_at. destruct s as [|c r]; [discriminate|].
  destruct (c =? BANG)%N eqn:E; [|discriminate].
  apply N.eqb_eq in E. subst c.
  destruct (find _ commandTypes) as [name|] eqn:F; [|discriminate].
  apply find_some in F as [Hin Hci].
  apply starts_with_ci_app in Hci as [nm [rest [-> Hlow]]].
  assert (L : length name = length nm) by (rewrite <- Hlow; apply length_map).
  rewrite L, firstn_app, Nat.sub_diag, firstn_all, firstn_O, app_nil_r.
  rewrite skipn_app, Nat.sub_diag, skipn_all, skipn_O. simpl app at 1.
  destruct (commandIdGroup rest) as [g m2'] eqn:G.
  intros [= <- <- <-].
  apply commandIdGroup_shape in G as [[post ->] Hg].
  split; [|split].
  - exists post. simpl. now rewrite <- app_assoc.
  - now rewrite Hlow.
  - destruct Hg as [[-> ->] | [ws [ident [-> [-> H]]]]].
    + left. now rewrite app_nil_r.
    + right. now exists ws, ident.
Qed.

(** No command type is the beginning of another: at most one alternative
    of the pattern matches a text. *)
Lemma find_unique {A} (f : A -> bool) (l : list A) (x : A) :
  In x l -> f x = true ->
  (forall y, In y l -> f y = true -> y = x) ->
  find f l = Some x.
Proof.
  induction l as [|a l IH]; intros Hin Hx Huniq; [destruct Hin|].
  simpl. destruct (f a) eqn:E.
  - f_equal. apply Huniq; [now left | exact E].
  - destruct Hin as [-> | Hin]; [congruence|].
    apply IH; [exact Hin | exact Hx |].
    intros y Hy. apply Huniq. now right.
Qed.

Lemma commandTypes_by_head (n n' : jsstring) :
  In n commandTypes -> In n' commandTypes ->
  hd 0%N n = hd 0%N n' -> n = n'.
Proof.
  unfold commandTypes. simpl In.
  intros [H | [H | [H | [H | []]]]] [H' | [H' | [H' | [H' | []]]]] E;
    subst n n'; try reflexivity; vm_compute in E; discriminate.
Qed.

Lemma commandTypes_nonempty (n : jsstring) : In n commandTypes -> n <> [].
Proof.
  unfold commandTypes. simpl In.
  intros [H | [H | [H | [H | []]]]] E; subst n; vm_compute in E; discriminate.
Qed.

Lemma commandTypes_first_match (name rest : jsstring) :
  In (map ascii_lower name) commandTypes ->
  find (fun n => starts_with_ci n (name ++ rest)) commandTypes
  = Some (map ascii_lower name).
Proof.
  intros Hin. apply find_unique; [exact Hin | |].
  - apply starts_with_ci_app. now exists name, rest.
  - intros n Hn Hs. apply commandTypes_by_head; [exact Hn | exact Hin |].
    apply starts_with_ci_app in Hs as [nm [rs [E <-]]].
    pose proof (commandTypes_nonempty _ Hn) as Hn0.
    pose proof (commandTypes_nonempty _ Hin) as Hin0.
    destruct nm as [|y nm]; [now destruct Hn0|].
    destruct name as [|x name]; [now destruct Hin0|].
    simpl in E. injection E as -> _. reflexivity.
Qed.

(** A directive standing alone is matched whole. *)
Lemma commandIdGroup_ident (ws ident : jsstring) :
  forallb is_space ws = true -> ident <> [] ->
  forallb is_id_char ident = true ->
  commandIdGroup (COLON :: ws ++ ident) = (COLON :: ws ++ ident, Some ident).
Proof.
  intros Hws Hne Hid. unfold commandIdGroup. rewrite N.eqb_refl.
  destruct ident as [|i ident]; [now destruct Hne|].
  assert (Hi : is_space i = false).
  { apply id_char_not_space. simpl in Hid. now apply andb_true_iff in Hid. }
  assert (S : take_while is_space (i :: ident) = []) by (simpl; now rewrite Hi).
  assert (D : drop_while is_space (i :: ident) = i :: ident)
    by (simpl; now rewrite Hi).
  rewrite drop_while_app by exact Hws.
  rewrite take_while_app by exact Hws.
  rewrite S, D, (take_while_whole is_id_char (i :: ident) Hid).
  now rewrite app_nil_r.
Qed.

Lemma commandPattern_at_name (name rest : jsstring) :
  In (map ascii_lower name) commandTypes ->
  commandPattern_at (BANG :: name ++ rest)
  = let '(g, m2) := commandIdGroup rest in Some (BANG :: name ++ g, name, m2).
Proof.
  intros Hin. unfold commandPattern_at. rewrite N.eqb_refl.
  rewrite (commandTypes_first_match name rest Hin).
  rewrite length_map, firstn_app, Nat.sub_diag, firstn_all, firstn_O, app_nil_r.
  rewrite skipn_app, Nat.sub_diag, skipn_all, skipn_O. reflexivity.
Qed.

Lemma extract_from_whole (d m1 : jsstring) (m2 : option jsstring) :
  commandPattern_at d = Some (d, m1, m2) ->
  extract_from 0 d
  = [ {| type := map ascii_lower m1;
         id := match m2 with Some i => i | None => [] end;
         fullCommand := d |} ].
Proof.
  intros H. destruct d as [|c t]; [discriminate|].
  cbn [extract_from]. rewrite H. f_equal.
  rewrite extract_from_skip. replace (length (c :: t) - 1)%nat with (length t) by (simpl; lia).
  rewrite skipn_all.
  reflexivity.
Qed.

Lemma replace_from_whole (d m1 : jsstring) (m2 : option jsstring) :
  commandPattern_at d = Some (d, m1, m2) ->
  replace_all commandPattern [] d = [].
Proof.
  intros H. destruct d as [|c t]; [discriminate|].
  unfold replace_all, commandPattern. cbn [replace_from]. rewrite H.
  rewrite replace_from_skip. replace (length (c :: t) - 1)%nat with (length t) by (simpl; lia).
  rewrite skipn_all.
  reflexivity.
Qed.

(** Every command the loop extracts is an occurrence of the pattern. *)
Lemma extract_from_sound (n : nat) :
  forall (s : jsstring) (c : command),
    (length s <= n)%nat -> In c (extract_from 0 s) ->
    exists m1 m2 pre post,
      s = pre ++ fullCommand c ++ post /\
      commandPattern_at (fullCommand c ++ post) = Some (fullCommand c, m1, m2) /\
      type c = map ascii_lower m1 /\
      id c = match m2 with Some i => i | None => [] end.
Proof.
  induction n as [|n IH]; intros s c Hlen Hin.
  { destruct s; [destruct Hin | simpl in Hlen; lia]. }
  destruct s as [|x t]; [destruct Hin|].
  cbn [extract_from] in Hin.
  destruct (commandPattern_at (x :: t)) as [[[m0 m1] m2]|] eqn:E.
  - destruct Hin as [<- | Hin].
    + cbn [fullCommand type id].
      pose proof (commandPattern_at_shape _ _ _ _ E) as [[post Hpost] _].
      exists m1, m2, [], post. rewrite <- Hpost. now repeat split.
    + rewrite extract_from_skip in Hin.
      apply IH in Hin as [m1' [m2' [pre [post [Hs H]]]]].
      * exists m1', m2', (x :: firstn (length m0 - 1) t ++ pre), post.
        split; [|exact H].
        rewrite <- (firstn_skipn (length m0 - 1) t) at 1. rewrite Hs.
        simpl. now rewrite <- app_assoc.
      * rewrite length_skipn. simpl in Hlen. lia.
  - apply IH in Hin as [m1' [m2' [pre [post [Hs H]]]]].
    + exists m1', m2', (x :: pre), post. split; [now rewrite Hs | exact H].
    + simpl in Hlen. lia.
Qed.

End AiHandlerFacts.

(** C6 as the specification states it fails: ["!stage:closing"] has the
    stated syntax, yet nothing is extracted from it and nothing is removed;
    and ["!etapa: X"], which does not have the stated syntax (a space after
    the colon, an upper-case id), is extracted and removed. *)
Lemma spec_directive_not_recognized :
  spec_directive (js "!stage:closing") /\
  _extractSpecialCommands (js "!stage:closing") = [] /\
  _removeSpecialCommands (js "!stage:closing") = js "!stage:closing" /\
  _extractSpecialCommands (js "!etapa: X")
  = [ {| type := js "etapa"; id := js "X"; fullCommand := js "!etapa: X" |} ] /\
  _removeSpecialCommands (js "!etapa: X") = [].
Proof.
  split; [|repeat split; vm_compute; reflexivity].
  exists (js "stage"), (js "closing"). split.
  - vm_compute. tauto.
  - right. split; [reflexivity | split; [|reflexivity]].
    intros H; vm_compute in H; discriminate.
Qed.

(** ** Directives inside a text *)

Module WireFacts.
Import JsStringFacts AiHandlerFacts.

(** The text that follows goes on with [:<spaces><id>]. *)
Definition id_follows (post : jsstring) : Prop :=
  exists ws ident rest,
    post = COLON :: ws ++ ident ++ rest /\
    forallb is_space ws = true /\ ident <> [] /\
    forallb is_id_char ident = true.

(** The text that follows does not go on with a character of an id. *)
Definition id_ends (post : jsstring) : Prop :=
  match post with
  | [] => True
  | x :: _ => is_id_char x = false
  end.

Lemma take_while_stop (f : N -> bool) (a : jsstring) (x : N) (t : jsstring) :
  f x = false -> take_while f (a ++ x :: t) = take_while f a.
Proof.
  intros Hx. induction a as [|c a IH]; simpl; [now rewrite Hx|].
  destruct (f c); [now rewrite IH | reflexivity].
Qed.

Lemma drop_while_stop (f : N -> bool) (a : jsstring) (x : N) (t : jsstring) :
  f x = false -> drop_while f (a ++ x :: t) = drop_while f a ++ x :: t.
Proof.
  intros Hx. induction a as [|c a IH]; simpl; [now rewrite Hx|].
  destruct (f c); [exact IH | reflexivity].
Qed.

Lemma take_while_ends (f : N -> bool) (a post : jsstring) :
  forallb f a = true ->
  match post with [] => True | x :: _ => f x = false end ->
  take_while f (a ++ post) = a.
Proof.
  intros Ha Hpost. rewrite take_while_app by exact Ha.
  destruct post as [|x post]; simpl; [|rewrite Hpost]; apply app_nil_r.
Qed.

(** An exclamation mark is no character of a command: a match never
    reaches the next one. *)
Lemma commandTypes_no_bang (name : jsstring) :
  In name commandTypes -> forallb (fun a => negb (a =? BANG)%N) name = true.
Proof.
  unfold commandTypes. simpl In.
  intros [H | [H | [H | [H | []]]]]; subst name; vm_compute; reflexivity.
Qed.

Lemma starts_with_ci_before_bang (name r t : jsstring) :
  forallb (fun a => negb (a =? BANG)%N) name = true ->
  starts_with_ci name (r ++ BANG :: t) = starts_with_ci name r.
Proof.
  revert r. induction name as [|a name IH]; intros r Hname; [reflexivity|].
  cbn [forallb] in Hname. apply andb_true_iff in Hname as [Ha Hname].
  destruct r as [|b r]; cbn [app starts_with_ci].
  - apply negb_true_iff in Ha. change (ascii_lower BANG) with BANG.
    now rewrite Ha.
  - now rewrite IH.
Qed.

Lemma find_agree {A} (f g : A -> bool) (l : list A) :
  (forall x, In x l -> f x = g x) -> find f l = find g l.
Proof.
  induction l as [|a l IH]; intros H; [reflexivity|]. cbn [find].
  rewrite (H a (or_introl eq_refl)). destruct (g a); [reflexivity|].
  apply IH. intros x Hx. apply H. now right.
Qed.

Lemma commandIdGroup_before_bang (rest t : jsstring) :
  commandIdGroup (rest ++ BANG :: t) = commandIdGroup rest.
Proof.
  destruct rest as [|c r1]; [reflexivity|]. cbn [app commandIdGroup].
  destruct (c =? COLON)%N; [|reflexivity].
  rewrite (take_while_stop is_space r1 BANG t eq_refl).
  rewrite (drop_while_stop is_space r1 BANG t eq_refl).
  now rewrite (take_while_stop is_id_char (drop_while is_space r1) BANG t eq_refl).
Qed.

Lemma commandPattern_at_before_bang (c : N) (r t : jsstring) :
  commandPattern_at ((c :: r) ++ BANG :: t) = commandPattern_at (c :: r).
Proof.
  assert (F : find (fun name => starts_with_ci name (r ++ BANG :: t)) commandTypes
              = find (fun name => starts_with_ci name r) commandTypes).
  { apply find_agree. intros name Hin.
    apply starts_with_ci_before_bang, commandTypes_no_bang, Hin. }
  destruct (find (fun name => starts_with_ci name r) commandTypes) as [name|] eqn:E.
  - apply find_some in E as [Hin Hci].
    apply starts_with_ci_app in Hci as [nm [rest [-> Hlow]]].
    rewrite <- Hlow in Hin.
    destruct (c =? BANG)%N eqn:Ec;
      [|unfold commandPattern_at; cbn [app]; now rewrite Ec].
    apply N.eqb_eq in Ec. subst c.
    change ((BANG :: nm ++ rest) ++ BANG :: t)
      with (BANG :: (nm ++ rest) ++ BANG :: t).
    rewrite <- app_assoc.
    rewrite !commandPattern_at_name by exact Hin.
    now rewrite commandIdGroup_before_bang.
  - unfold commandPattern_at. cbn [app].
    destruct (c =? BANG)%N; [|reflexivity]. now rewrite F, E.
Qed.

(** The scan of a text up to an exclamation mark does not depend on what
    follows it. *)
Lemma extract_from_before_bang (t pre : jsstring) :
  forall k, (k <= length pre)%nat ->
    extract_from k (pre ++ BANG :: t)
    = extract_from k pre ++ extract_from 0 (BANG :: t).
Proof.
  induction pre as [|c p IH]; intros k Hk.
  - replace k with 0%nat by (simpl in Hk; lia). reflexivity.
  - destruct k as [|k].
    + change (extract_from 0 ((c :: p) ++ BANG :: t))
        with (match commandPattern_at ((c :: p) ++ BANG :: t) with
              | Some (m0, m1, m2) =>
                {| type := map ascii_lower m1;
                   id := match m2 with Some i => i | None => [] end;
                   fullCommand := m0 |}
                  :: extract_from (length m0 - 1) (p ++ BANG :: t)
              | None => extract_from 0 (p ++ BANG :: t)
              end).
      rewrite commandPattern_at_before_bang. cbn [extract_from].
      destruct (commandPattern_at (c :: p)) as [[[m0 m1] m2]|] eqn:E.
      * apply commandPattern_at_shape in E as [[post Hpost] _].
        apply (f_equal (@length N)) in Hpost. rewrite length_app in Hpost.
        simpl in Hpost. rewrite IH by lia. reflexivity.
      * now rewrite IH by lia.
    + cbn [app extract_from]. apply IH. simpl in Hk. lia.
Qed.

Lemma replace_from_before_bang (t pre : jsstring) :
  forall k, (k <= length pre)%nat ->
    replace_from commandPattern [] k (pre ++ BANG :: t)
    = replace_from commandPattern [] k pre
      ++ replace_from commandPattern [] 0 (BANG :: t).
Proof.
  induction pre as [|c p IH]; intros k Hk.
  - replace k with 0%nat by (simpl in Hk; lia). reflexivity.
  - destruct k as [|k].
    + assert (Hm : commandPattern ((c :: p) ++ BANG :: t) = commandPattern (c :: p))
        by (unfold commandPattern; now rewrite commandPattern_at_before_bang).
      change (replace_from commandPattern [] 0 ((c :: p) ++ BANG :: t))
        with (match commandPattern ((c :: p) ++ BANG :: t) with
              | Some m0 =>
                [] ++ replace_from commandPattern [] (length m0 - 1) (p ++ BANG :: t)
              | None => c :: replace_from commandPattern [] 0 (p ++ BANG :: t)
              end).
      rewrite Hm.
      change (replace_from commandPattern [] 0 (c :: p))
        with (match commandPattern (c :: p) with
              | Some m0 => [] ++ replace_from commandPattern [] (length m0 - 1) p
              | None => c :: replace_from commandPattern [] 0 p
              end).
      destruct (commandPattern (c :: p)) as [m0|] eqn:E.
      * assert (Hlen : (length m0 - 1 <= length p)%nat).
        { unfold commandPattern in E.
          destruct (commandPattern_at (c :: p)) as [[[m0' m1] m2]|] eqn:E';
            [|discriminate].
          injection E as <-.
          apply commandPattern_at_shape in E' as [[post Hpost] _].
          apply (f_equal (@length N)) in Hpost. rewrite length_app in Hpost.
          simpl in Hpost. lia. }
        rewrite IH by exact Hlen. reflexivity.
      * rewrite IH by lia. reflexivity.
    + cbn [app replace_from]. apply IH. simpl in Hk. lia.
Qed.

Lemma no_id_group (post : jsstring) :
  ~ id_follows post -> commandIdGroup post = ([], None).
Proof.
  intros Hno. destruct (commandIdGroup post) as [g m2] eqn:G.
  apply commandIdGroup_shape in G as [[rest Hrest] [[-> ->] | H]]; [reflexivity|].
  destruct H as [ws [ident [-> [_ [Hws [Hne Hid]]]]]].
  exfalso. apply Hno. exists ws, ident, rest. split; [|now repeat split].
  rewrite Hrest. simpl. now rewrite <- !app_assoc.
Qed.

Lemma id_group_ends (ws ident post : jsstring) :
  forallb is_space ws = true -> ident <> [] ->
  forallb is_id_char ident = true -> id_ends post ->
  commandIdGroup ((COLON :: ws ++ ident) ++ post) = (COLON :: ws ++ ident, Some ident).
Proof.
  intros Hws Hne Hid Hend. unfold commandIdGroup. cbn [app].
  rewrite N.eqb_refl. rewrite <- app_assoc.
  destruct ident as [|i ident]; [now destruct Hne|].
  assert (Hi : is_space i = false).
  { apply id_char_not_space. simpl in Hid. now apply andb_true_iff in Hid. }
  rewrite (drop_while_app is_space ws _ Hws), (take_while_app is_space ws _ Hws).
  cbn [app take_while drop_while]. rewrite Hi.
  change (i :: ident ++ post) with ((i :: ident) ++ post).
  rewrite (take_while_ends is_id_char (i :: ident) post Hid Hend).
  now rewrite app_nil_r.
Qed.

(** A directive that is matched as far as [d] is extracted and removed,
    and the scan goes on behind it. *)
Lemma scan_directive (pre d name post : jsstring) (m2 : option jsstring) :
  hd 0%N d = BANG ->
  commandPattern_at (d ++ post) = Some (d, name, m2) ->
  _extractSpecialCommands (pre ++ d ++ post)
  = _extractSpecialCommands pre
    ++ {| type := map ascii_lower name;
          id := match m2 with Some i => i | None => [] end;
          fullCommand := d |} :: _extractSpecialCommands post /\
  replace_all commandPattern [] (pre ++ d ++ post)
  = replace_all commandPattern [] pre ++ replace_all commandPattern [] post.
Proof.
  intros Hhd H. destruct d as [|c t]; [discriminate|].
  cbn [hd] in Hhd. subst c.
  unfold _extractSpecialCommands, replace_all. cbn [app] in *.
  rewrite extract_from_before_bang, replace_from_before_bang by lia.
  cbn [extract_from replace_from]. unfold commandPattern at 2. rewrite H.
  replace (length (BANG :: t) - 1)%nat with (length t) by (simpl; lia).
  rewrite (extract_from_skip (length t) (t ++ post)).
  rewrite (replace_from_skip commandPattern [] (length t) (t ++ post)).
  rewrite skipn_app, Nat.sub_diag, skipn_all, skipn_O. cbn [app].
  split; reflexivity.
Qed.

End WireFacts.

(** C6, amended. The commands recognized are [!<name>] and
    [!<name>:<spaces><id>], the name one of prova_social, checkout, etapa,
    suporte up to ASCII case, [<spaces>] any run of white space, the id a
    non-empty run of ASCII letters of either case, digits, [_] and [-].
    Every command extracted from a text is an occurrence of this syntax in
    it, its type is the name in lower case and its id is the id written,
    or the empty string when none is.  Conversely, wherever such a
    directive stands in a text, taken as far as it goes (no id follows a
    bare name, and no character of an id follows an id), it is extracted
    as one command, between the commands of the text before it and those
    of the text behind it, and it is removed whole. *)
Theorem wire_directives_are_what_is_extracted :
  (forall (content : jsstring) (c : command),
      In c (_extractSpecialCommands content) ->
      exists name,
        In (map ascii_lower name) commandTypes /\
        type c = map ascii_lower name /\
        (fullCommand c = BANG :: name /\ id c = [] \/
         exists ws ident,
           fullCommand c = BANG :: name ++ COLON :: ws ++ ident /\
           id c = ident /\
           forallb is_space ws = true /\ ident <> [] /\
           forallb is_id_char ident = true) /\
        exists pre post, content = pre ++ fullCommand c ++ post) /\
  (forall pre name post : jsstring,
      In (map ascii_lower name) commandTypes ->
      ~ WireFacts.id_follows post ->
      _extractSpecialCommands (pre ++ (BANG :: name) ++ post)
      = _extractSpecialCommands pre
        ++ {| type := map ascii_lower name; id := [];
              fullCommand := BANG :: name |}
        :: _extractSpecialCommands post /\
      _removeSpecialCommands (pre ++ (BANG :: name) ++ post)
      = trim (replace_all newlines3 [LF; LF]
                (replace_all commandPattern [] pre
                 ++ replace_all commandPattern [] post))) /\
  (forall pre name ws ident post : jsstring,
      In (map ascii_lower name) commandTypes ->
      forallb is_space ws = true -> ident <> [] ->
      forallb is_id_char ident = true ->
      WireFacts.id_ends post ->
      _extractSpecialCommands (pre ++ (BANG :: name ++ COLON :: ws ++ ident) ++ post)
      = _extractSpecialCommands pre
        ++ {| type := map ascii_lower name; id := ident;
              fullCommand := BANG :: name ++ COLON :: ws ++ ident |}
        :: _extractSpecialCommands post /\
      _removeSpecialCommands (pre ++ (BANG :: name ++ COLON :: ws ++ ident) ++ post)
      = trim (replace_all newlines3 [LF; LF]
                (replace_all commandPattern [] pre
                 ++ replace_all commandPattern [] post))).
Proof.
  split; [|split].
  - intros content c Hin.
    apply (AiHandlerFacts.extract_from_sound (length content)) in Hin
      as [m1 [m2 [pre [post [Hs [Hm [Ht Hi]]]]]]]; [|lia].
    apply AiHandlerFacts.commandPattern_at_shape in Hm as [_ [Hname Hshape]].
    exists m1. split; [exact Hname|]. split; [exact Ht|]. split.
    + destruct Hshape as [[-> ->] | [ws [ident [-> [-> H]]]]].
      * left. now split.
      * right. exists ws, ident. now split.
    + now exists pre, post.
  - intros pre name post Hname Hno.
    assert (H : commandPattern_at ((BANG :: name) ++ post)
                = Some (BANG :: name, name, None)).
    { cbn [app]. rewrite AiHandlerFacts.commandPattern_at_name by exact Hname.
      rewrite (WireFacts.no_id_group post Hno). now rewrite app_nil_r. }
    destruct (WireFacts.scan_directive pre (BANG :: name) name post None eq_refl H)
      as [E R].
    split; [exact E|]. unfold _removeSpecialCommands. now rewrite R.
  - intros pre name ws ident post Hname Hws Hne Hid Hend.
    assert (H : commandPattern_at ((BANG :: name ++ COLON :: ws ++ ident) ++ post)
                = Some (BANG :: name ++ COLON :: ws ++ ident, name, Some ident)).
    { cbn [app]. rewrite <- app_assoc.
      rewrite AiHandlerFacts.commandPattern_at_name by exact Hname.
      now rewrite (WireFacts.id_group_ends ws ident post Hws Hne Hid Hend). }
    destruct (WireFacts.scan_directive pre (BANG :: name ++ COLON :: ws ++ ident)
                name post (Some ident) eq_refl H) as [E R].
    split; [exact E|]. unfold _removeSpecialCommands. now rewrite R.
Qed.

Lemma wire_directives_are_what_is_extracted_witness :
  _extractSpecialCommands (js "Ok !eta" ++ js "!Checkout: Pro-1" ++ js ". !suporte")
  = _extractSpecialCommands (js "Ok !eta")
    ++ {| type := map ascii_lower (js "Checkout"); id := js "Pro-1";
          fullCommand := BANG :: js "Checkout" ++ COLON :: js " " ++ js "Pro-1" |}
    :: _extractSpecialCommands (js ". !suporte") /\
  _removeSpecialCommands (js "Ok !eta" ++ js "!Checkout: Pro-1" ++ js ". !suporte")
  = trim (replace_all newlines3 [LF; LF]
            (replace_all commandPattern [] (js "Ok !eta")
             ++ replace_all commandPattern [] (js ". !suporte"))).
Proof.
  apply (proj2 (proj2 wire_directives_are_what_is_extracted)
           (js "Ok !eta") (js "Checkout") (js " ") (js "Pro-1") (js ". !suporte")).
  - vm_compute. tauto.
  - reflexivity.
  - intros H; vm_compute in H; discriminate.
  - reflexivity.
  - reflexivity.
Defined.

(** ** Removing the commands: line feeds and trimming *)

Module StripFacts.
Import JsStringFacts AiHandlerFacts.

Definition LLL : jsstring := [LF; LF; LF].
Definition collapse (s : jsstring) : jsstring := replace_all newlines3 [LF; LF] s.

Lemma is_LF_eq (c : N) : is_LF c = true <-> c = LF.
Proof. unfold is_LF. apply N.eqb_eq. Qed.

Lemma newlines3_starts (s : jsstring) :
  newlines3 s = if starts_with LLL s then Some (take_while is_LF s) else None.
Proof.
  unfold newlines3, LLL, is_LF.
  destruct s as [|a [|b [|c s]]];
    cbn [take_while starts_with]; rewrite ?(N.eqb_sym LF);
    repeat match goal with
           | |- context [(?x =? LF)%N] =>
             destruct (x =? LF)%N; cbn [take_while length Nat.leb andb]
           end; reflexivity.
Qed.

(** A text without three line feeds in a row is left as it is. *)
Lemma collapse_fixed (s : jsstring) :
  includes s LLL = false -> collapse s = s.
Proof.
  unfold collapse, replace_all. induction s as [|c s IH]; [reflexivity|].
  cbn [includes replace_from]. rewrite orb_false_iff. intros [H1 H2].
  rewrite newlines3_starts, H1. f_equal. now apply IH.
Qed.

Lemma collapse_cons_other (c : N) (s : jsstring) :
  starts_with LLL (c :: s) = false -> collapse (c :: s) = c :: collapse s.
Proof.
  intros H. unfold collapse, replace_all. cbn [replace_from].
  now rewrite newlines3_starts, H.
Qed.

Lemma collapse_cons_run (c : N) (s : jsstring) :
  starts_with LLL (c :: s) = true ->
  collapse (c :: s) = LF :: LF :: collapse (drop_while is_LF (c :: s)).
Proof.
  intros H. unfold collapse, replace_all. cbn [replace_from].
  rewrite newlines3_starts, H, replace_from_skip. cbn [app]. do 3 f_equal.
  assert (Hc : is_LF c = true).
  { unfold LLL in H. cbn [starts_with] in H. apply andb_true_iff in H as [H _].
    unfold is_LF. now rewrite N.eqb_sym. }
  cbn [take_while drop_while]. rewrite Hc. cbn [length].
  rewrite Nat.sub_succ, Nat.sub_0_r.
  clear. induction s as [|x s IH]; [reflexivity|].
  cbn [take_while drop_while]. destruct (is_LF x); [exact IH | reflexivity].
Qed.

Lemma drop_while_head (f : N -> bool) (s : jsstring) :
  match drop_while f s with
  | [] => True
  | x :: _ => f x = false
  end.
Proof.
  induction s as [|c s IH]; simpl; [exact I|].
  destruct (f c) eqn:E; [exact IH | exact E].
Qed.

Lemma starts_LLL_needs_LF (c : N) (s : jsstring) :
  is_LF c = false -> starts_with LLL (c :: s) = false.
Proof.
  intros H. unfold LLL. cbn [starts_with]. rewrite N.eqb_sym.
  fold (is_LF c). now rewrite H.
Qed.

(** The result keeps the first character of a text that does not begin
    with a line feed. *)
Lemma collapse_head_other (s : jsstring) :
  match s with
  | [] => collapse s = []
  | c :: t => is_LF c = false -> exists r, collapse s = c :: r
  end.
Proof.
  destruct s as [|c t]; [reflexivity|].
  intros H. exists (collapse t). apply collapse_cons_other.
  now apply starts_LLL_needs_LF.
Qed.

Lemma starts_LLL_run (s : jsstring) :
  starts_with LLL s = (3 <=? length (take_while is_LF s))%nat.
Proof.
  pose proof (newlines3_starts s) as H. unfold newlines3 in H.
  destruct (starts_with LLL s), (3 <=? length (take_while is_LF s))%nat;
    congruence.
Qed.

(** The line feeds the result begins with: those of the text, or two when
    the text begins with three or more. *)
Lemma collapse_leading_run (s : jsstring) :
  take_while is_LF (collapse s)
  = if (3 <=? length (take_while is_LF s))%nat then [LF; LF]
    else take_while is_LF s.
Proof.
  induction s as [|c s IH]; [reflexivity|].
  rewrite <- starts_LLL_run.
  destruct (starts_with LLL (c :: s)) eqn:E.
  - rewrite collapse_cons_run by exact E.
    cbn [take_while]. change (is_LF LF) with true. cbv iota. do 2 f_equal.
    pose proof (drop_while_head is_LF (c :: s)) as Hd.
    pose proof (collapse_head_other (drop_while is_LF (c :: s))) as Hc.
    destruct (drop_while is_LF (c :: s)) as [|x r].
    + now rewrite Hc.
    + destruct (Hc Hd) as [r' ->]. cbn [take_while]. now rewrite Hd.
  - rewrite collapse_cons_other by exact E.
    cbn [take_while]. destruct (is_LF c) eqn:Hc; [|reflexivity].
    f_equal. rewrite IH.
    rewrite starts_LLL_run in E. cbn [take_while] in E. rewrite Hc in E.
    cbn [length] in E.
    destruct (3 <=? length (take_while is_LF s))%nat eqn:E3; [|reflexivity].
    apply Nat.leb_le in E3. apply Nat.leb_gt in E. lia.
Qed.

(** The result never begins with three line feeds. *)
Lemma collapse_starts (s : jsstring) : starts_with LLL (collapse s) = false.
Proof.
  rewrite starts_LLL_run, collapse_leading_run.
  destruct (3 <=? length (take_while is_LF s))%nat eqn:E; [reflexivity | exact E].
Qed.

Lemma includes_cons (c : N) (s p : jsstring) :
  includes (c :: s) p = starts_with p (c :: s) || includes s p.
Proof. reflexivity. Qed.

Lemma take_while_drop_while (f : N -> bool) (s : jsstring) :
  take_while f (drop_while f s) = [].
Proof.
  pose proof (drop_while_head f s) as H.
  destruct (drop_while f s) as [|x r]; [reflexivity|].
  cbn [take_while]. now rewrite H.
Qed.

(** The result has no three line feeds in a row anywhere. *)
Lemma collapse_no_run (n : nat) :
  forall s : jsstring, (length s <= n)%nat -> includes (collapse s) LLL = false.
Proof.
  induction n as [|n IH]; intros s Hlen.
  { destruct s; [reflexivity | simpl in Hlen; lia]. }
  destruct s as [|c s]; [reflexivity|].
  pose proof (collapse_starts (c :: s)) as Hstart.
  destruct (starts_with LLL (c :: s)) eqn:E.
  - rewrite collapse_cons_run in Hstart |- * by exact E.
    set (rest := drop_while is_LF (c :: s)) in *.
    assert (Hrest : (length rest <= n)%nat).
    { pose proof (take_drop_while is_LF (c :: s)) as Htd.
      apply (f_equal (@length N)) in Htd. rewrite length_app in Htd.
      fold rest in Htd.
      rewrite starts_LLL_run in E. apply Nat.leb_le in E.
      lia. }
    rewrite includes_cons, Hstart, includes_cons, (IH rest Hrest).
    rewrite starts_LLL_run. cbn [take_while]. change (is_LF LF) with true.
    cbv iota. rewrite collapse_leading_run. unfold rest.
    rewrite take_while_drop_while. reflexivity.
  - rewrite collapse_cons_other in Hstart |- * by exact E.
    rewrite includes_cons, Hstart. cbn [orb].
    apply IH. simpl in Hlen. lia.
Qed.

(** *** Trimming *)

Lemma drop_while_idem (f : N -> bool) (s : jsstring) :
  drop_while f (drop_while f s) = drop_while f s.
Proof.
  pose proof (drop_while_head f s) as H.
  destruct (drop_while f s) as [|x r]; [reflexivity|].
  cbn [drop_while]. now rewrite H.
Qed.

Lemma trimEnd_idem (s : jsstring) : trimEnd (trimEnd s) = trimEnd s.
Proof.
  unfold trimEnd, trimStart. now rewrite rev_involutive, drop_while_idem.
Qed.

(** [trimEnd s] is the beginning of [s]. *)
Lemma trimEnd_prefix (s : jsstring) :
  s = trimEnd s ++ rev (take_while is_space (rev s)).
Proof.
  unfold trimEnd, trimStart. rewrite <- rev_app_distr, take_drop_while.
  now rewrite rev_involutive.
Qed.

Lemma trimStart_trimEnd (s : jsstring) :
  trimStart s = s -> trimStart (trimEnd s) = trimEnd s.
Proof.
  intros H. pose proof (trimEnd_prefix s) as P.
  destruct (trimEnd s) as [|c v]; [reflexivity|].
  unfold trimStart in *. cbn [drop_while].
  destruct (is_space c) eqn:E; [|reflexivity].
  exfalso. rewrite P in H. cbn [app drop_while] in H. rewrite E in H.
  apply (f_equal (@length N)) in H.
  pose proof (take_drop_while is_space (v ++ rev (take_while is_space (rev s)))) as T.
  apply (f_equal (@length N)) in T. rewrite length_app in T.
  simpl in H. lia.
Qed.

Lemma trim_idem (s : jsstring) : trim (trim s) = trim s.
Proof.
  unfold trim.
  assert (H : trimStart (trimEnd (trimStart s)) = trimEnd (trimStart s)).
  { apply trimStart_trimEnd. apply drop_while_idem. }
  rewrite H. apply trimEnd_idem.
Qed.

(** [trim s] is a stretch of [s]. *)
Lemma trim_infix (s : jsstring) : exists pre post, s = pre ++ trim s ++ post.
Proof.
  exists (take_while is_space s),
         (rev (take_while is_space (rev (trimStart s)))).
  unfold trim. rewrite <- trimEnd_prefix. unfold trimStart.
  symmetry. apply take_drop_while.
Qed.

Lemma trim_no_run (s : jsstring) :
  includes s LLL = false -> includes (trim s) LLL = false.
Proof.
  intros H. destruct (includes (trim s) LLL) eqn:E; [|reflexivity].
  apply includes_substring in E as [a [b E]].
  destruct (trim_infix s) as [pre [post P]].
  assert (I : includes s LLL = true).
  { apply includes_substring. exists (pre ++ a), (b ++ post).
    rewrite P, E. now rewrite <- !app_assoc. }
  congruence.
Qed.

(** *** A text without commands *)

Lemma remove_fixed (s : jsstring) :
  extract_from 0 s = [] -> replace_all commandPattern [] s = s.
Proof.
  unfold replace_all. induction s as [|c s IH]; [reflexivity|].
  cbn [extract_from replace_from]. unfold commandPattern at 1.
  destruct (commandPattern_at (c :: s)) as [[[m0 m1] m2]|]; [discriminate|].
  intros H. f_equal. now apply IH.
Qed.

(** What [_removeSpecialCommands] returns has no three line feeds in a
    row and nothing left to trim. *)
Lemma removed_is_clean (x : jsstring) :
  includes (_removeSpecialCommands x) LLL = false /\
  trim (_removeSpecialCommands x) = _removeSpecialCommands x.
Proof.
  unfold _removeSpecialCommands. split.
  - apply trim_no_run. now apply (collapse_no_run (length (replace_all commandPattern [] x))).
  - apply trim_idem.
Qed.

(** *** Lengths *)

Lemma remove_length (n : nat) :
  forall s : jsstring,
    (length s <= n)%nat ->
    (length (replace_all commandPattern [] s) <= length s)%nat.
Proof.
  unfold replace_all.
  induction n as [|n IH]; intros s Hlen.
  { destruct s; [simpl; lia | simpl in Hlen; lia]. }
  destruct s as [|c t]; [simpl; lia|].
  cbn [replace_from]. destruct (commandPattern (c :: t)) as [m0|].
  - rewrite replace_from_skip. cbn [app length].
    pose proof (length_skipn (length m0 - 1) t) as Hs.
    specialize (IH (skipn (length m0 - 1) t)). simpl in Hlen. lia.
  - cbn [length]. specialize (IH t). simpl in Hlen. lia.
Qed.

(** A pass that finds a command returns a shorter text. *)
Lemma remove_shrinks (s : jsstring) :
  extract_from 0 s <> [] ->
  (length (replace_all commandPattern [] s) < length s)%nat.
Proof.
  unfold replace_all. induction s as [|c t IH]; [intros H; now destruct H|].
  cbn [extract_from replace_from]. unfold commandPattern at 1.
  destruct (commandPattern_at (c :: t)) as [[[m0 m1] m2]|].
  - intros _. rewrite replace_from_skip. cbn [app length].
    pose proof (remove_length _ (skipn (length m0 - 1) t) (Nat.le_refl _)) as L.
    unfold replace_all in L.
    pose proof (length_skipn (length m0 - 1) t). lia.
  - intros H. specialize (IH H). cbn [length]. lia.
Qed.

Lemma collapse_length (n : nat) :
  forall s : jsstring,
    (length s <= n)%nat -> (length (collapse s) <= length s)%nat.
Proof.
  induction n as [|n IH]; intros s Hlen.
  { destruct s; [simpl; lia | simpl in Hlen; lia]. }
  destruct s as [|c t]; [simpl; lia|].
  destruct (starts_with LLL (c :: t)) eqn:E.
  - rewrite collapse_cons_run by exact E.
    pose proof (take_drop_while is_LF (c :: t)) as Htd.
    apply (f_equal (@length N)) in Htd. rewrite length_app in Htd.
    rewrite starts_LLL_run in E. apply Nat.leb_le in E.
    specialize (IH (drop_while is_LF (c :: t))). cbn [length] in *. lia.
  - rewrite collapse_cons_other by exact E.
    specialize (IH t). cbn [length] in *. lia.
Qed.

Lemma trim_length (s : jsstring) : (length (trim s) <= length s)%nat.
Proof.
  destruct (trim_infix s) as [pre [post P]].
  apply (f_equal (@length N)) in P. rewrite !length_app in P. lia.
Qed.

Lemma removeSpecialCommands_shrinks (y : jsstring) :
  _extractSpecialCommands y <> [] ->
  (length (_removeSpecialCommands y) < length y)%nat.
Proof.
  intros H. unfold _removeSpecialCommands.
  pose proof (remove_shrinks y H) as R.
  pose proof (collapse_length _ (replace_all commandPattern [] y) (Nat.le_refl _)) as C.
  unfold collapse in C.
  pose proof (trim_length (replace_all newlines3 [LF; LF]
                             (replace_all commandPattern [] y))) as T.
  lia.
Qed.

End StripFacts.

(** C5 as the specification states it fails: removing the command in the
    middle of ["!eta!etapapa"] joins what is around it into ["!etapa"],
    which a second pass removes. *)
Lemma removeSpecialCommands_not_idempotent :
  _removeSpecialCommands (js "!eta!etapapa") = js "!etapa" /\
  _removeSpecialCommands (_removeSpecialCommands (js "!eta!etapapa")) = [] /\
  _removeSpecialCommands (_removeSpecialCommands (js "!eta!etapapa"))
  <> _removeSpecialCommands (js "!eta!etapapa").
Proof.
  split; [vm_compute; reflexivity|]. split; [vm_compute; reflexivity|].
  vm_compute. discriminate.
Qed.

(** C5, amended. Removing the commands a second time changes nothing
    exactly when the text left by the first pass contains no command (the
    first pass leaves no three line feeds in a row and nothing to trim; a
    pass that finds a command returns a shorter text). *)
Theorem removeSpecialCommands_idempotent_without_commands (x : jsstring) :
  _removeSpecialCommands (_removeSpecialCommands x) = _removeSpecialCommands x
  <-> _extractSpecialCommands (_removeSpecialCommands x) = [].
Proof.
  split.
  - intros Hfix.
    destruct (_extractSpecialCommands (_removeSpecialCommands x)) eqn:E;
      [reflexivity|].
    assert (Hne : _extractSpecialCommands (_removeSpecialCommands x) <> [])
      by (rewrite E; discriminate).
    apply StripFacts.removeSpecialCommands_shrinks in Hne.
    rewrite Hfix in Hne. lia.
  - intros H. destruct (StripFacts.removed_is_clean x) as [Hrun Htrim].
    unfold _removeSpecialCommands at 1.
    rewrite (StripFacts.remove_fixed _ H).
    fold (StripFacts.collapse (_removeSpecialCommands x)).
    rewrite (StripFacts.collapse_fixed _ Hrun). exact Htrim.
Qed.

Lemma removeSpecialCommands_idempotent_without_commands_witness :
  let x := js "  Olá !etapa:closing tudo bem" in
  _removeSpecialCommands (_removeSpecialCommands x) = _removeSpecialCommands x.
Proof.
  exact (proj2 (removeSpecialCommands_idempotent_without_commands
                  (js "  Olá !etapa:closing tudo bem")) eq_refl).
Defined.

(** ** Funnel stages and offers *)

Module FunnelFacts.
Import Memory Funnel.

Lemma includes_str_In (l : list string) (x : string) :
  includes_str l x = true <-> In x l.
Proof.
  unfold includes_str. rewrite existsb_exists. split.
  - intros [y [Hy E]]. apply String.eqb_eq in E. now subst.
  - intros H. exists x. split; [exact H | apply String.eqb_refl].
Qed.

Example eighteen_stages :
  length FUNNEL_STAGES_values = 18%nat /\ NoDup FUNNEL_STAGES_values.
Proof. split; [reflexivity|]. apply (bool_decide_unpack _). vm_compute. reflexivity. Qed.

(** A conversation for the runs below. *)
Definition phone : string := "5511999990000".

Definition pro_upsell : UpsellOpportunity :=
  {| targetPlanId := "pro_plan";
     title := "Upgrade para Plano Pro";
     pitch := "Com o Plano Pro, você terá acesso a todas as funcionalidades avançadas como [FEATURES], que podem aumentar seus resultados em até 47% com base nos dados de clientes similares.";
     valueProposition := "O investimento adicional de apenas R$X/mês se paga em Y semanas considerando o aumento de produtividade.";
     timing := "após_7_dias";
     discount := 0.15;
     limitedTime := "72h" |}.

(** The offer made on [basic_plan] waits for 7 days and is found from the
    sixth to the tenth day after the purchase. *)
Lemma basic_plan_window (days : Z) :
  checkUpsellOpportunity default_options "basic_plan" days
  = if (6 <=? days) && (days <=? 10) then Some pro_upsell else None.
Proof. reflexivity. Qed.

Example basic_plan_day_7 :
  checkUpsellOpportunity default_options "basic_plan" 7 = Some pro_upsell.
Proof. reflexivity. Qed.

Example basic_plan_day_20 :
  checkUpsellOpportunity default_options "basic_plan" 20 = None.
Proof. reflexivity. Qed.

Example pro_plan_has_downsell :
  option_map d_targetPlanId
             (getDownsellForRejectedUpsell default_options (Some "pro_plan"))
  = Some "basic_plus_plan"%string.
Proof. reflexivity. Qed.

(** The entries of a manager's table with a given key, whatever their
    type. *)
Definition with_key (k : string) (mm : MemoryManager) : list MemoryEntry :=
  List.filter (fun e => String.eqb (e.(Memory.key)) k) (table mm).

(** The stage read off a conversation is one of nine, none of them an
    offer stage. *)
Lemma stage_from_conversation_cases
      (toLowerCase : jsstring -> jsstring) (chatState : ChatState) :
  In (stage_from_conversation toLowerCase chatState)
     [ GREETING; QUALIFICATION; NEED_DISCOVERY; CLOSING; PRICE_DISCUSSION;
       OBJECTION_HANDLING; PRODUCT_DEMONSTRATION; PAIN_POINT_EXPLORATION;
       SOLUTION_PRESENTATION; VALUE_PROPOSITION ].
Proof.
  unfold stage_from_conversation.
  repeat match goal with
         | |- context [if ?b then _ else _] => destruct b
         end; simpl; tauto.
Qed.

Lemma stage_from_conversation_not_upsell
      (toLowerCase : jsstring -> jsstring) (chatState : ChatState) :
  stage_from_conversation toLowerCase chatState <> UPSELL.
Proof.
  intros E. pose proof (stage_from_conversation_cases toLowerCase chatState) as H.
  rewrite E in H. simpl in H. intuition discriminate.
Qed.

End FunnelFacts.

(** C2. For a stage id that is not one of the 18 values,
    [updateFunnelStage] throws ("Invalid funnel stage") and leaves the
    manager as it was: the persisted stage is unchanged and no transition
    record is written. *)
Theorem updateFunnelStage_rejects_unknown_stage
        (options : Funnel.Options) (phoneNumber newStage : string)
        (now : Z) (mm : Memory.MemoryManager) :
  ~ In newStage Funnel.FUNNEL_STAGES_values ->
  Funnel.updateFunnelStage options phoneNumber newStage now mm
  = (Memory.Throw ("Failed to update funnel stage: "
                   +:+ "Invalid funnel stage: " +:+ newStage), mm).
Proof.
  intros H. unfold Funnel.updateFunnelStage, Memory.try_catch.
  destruct (Funnel.includes_str Funnel.FUNNEL_STAGES_values newStage) eqn:E.
  - apply FunnelFacts.includes_str_In in E. contradiction.
  - reflexivity.
Qed.

Lemma updateFunnelStage_rejects_unknown_stage_witness :
  let mm := snd (Funnel.updateFunnelStage Funnel.default_options FunnelFacts.phone
                   Funnel.CLOSING 1000 Memory.empty_manager) in
  Funnel.updateFunnelStage Funnel.default_options FunnelFacts.phone "sold" 2000 mm
  = (Memory.Throw "Failed to update funnel stage: Invalid funnel stage: sold", mm).
Proof.
  apply (updateFunnelStage_rejects_unknown_stage Funnel.default_options
           FunnelFacts.phone "sold" 2000).
  intros H. vm_compute in H. intuition discriminate.
Defined.

(** C1 (the code departs from it). The conversation is in stage UPSELL
    with the offer for [pro_plan] attached the way [determineCurrentStage]
    attaches it (key ["active_upsell"], type ["sales_opportunity"]), and a
    downsell exists for [pro_plan]. [updateFunnelStage] asks
    [getLatestMemoryEntry] for the memory type ["active_upsell"], finds
    nothing, and so persists the stage CLOSING it was called with: no
    rejection is recorded and no downsell is activated. The same holds
    with the cache dropped. *)
Theorem upsell_rejection_is_not_recorded :
  let attach :=
    Memory.saveMemoryEntry FunnelFacts.phone "active_upsell"
      (Memory.VUpsell FunnelFacts.pro_upsell) "sales_opportunity" in
  let mm1 :=
    snd ((attach;; Funnel.updateFunnelStage Funnel.default_options
                     FunnelFacts.phone Funnel.UPSELL) 1000 Memory.empty_manager) in
  let cold :=
    {| Memory.table := Memory.table mm1;
       Memory.cache := Memory.cache Memory.empty_manager |} in
  Memory.persisted mm1 FunnelFacts.phone "current_stage" "funnel_stage"
  = Some (Memory.VString Funnel.UPSELL) /\
  Memory.persisted mm1 FunnelFacts.phone "active_upsell" "sales_opportunity"
  = Some (Memory.VUpsell FunnelFacts.pro_upsell) /\
  Funnel.getDownsellForRejectedUpsell Funnel.default_options
    (Some (Memory.targetPlanId FunnelFacts.pro_upsell)) <> None /\
  Forall (fun mm =>
            let r := Funnel.updateFunnelStage Funnel.default_options
                       FunnelFacts.phone Funnel.CLOSING 2000 mm in
            fst r = Memory.Ok tt /\
            Memory.persisted (snd r) FunnelFacts.phone "current_stage" "funnel_stage"
            = Some (Memory.VString Funnel.CLOSING) /\
            FunnelFacts.with_key "rejected_upsell" (snd r) = [] /\
            FunnelFacts.with_key "active_downsell" (snd r) = [])
         [mm1; cold].
Proof.
  cbv zeta. split; [vm_compute; reflexivity|].
  split; [vm_compute; reflexivity|]. split; [vm_compute; discriminate|].
  repeat constructor; vm_compute; reflexivity.
Qed.

(** The same call when the offer is stored under the memory type
    ["active_upsell"], which is what the lookup asks for: the rejection is
    recorded and the stage becomes DOWNSELL. *)
Example upsell_rejection_with_matching_type :
  let attach :=
    Memory.saveMemoryEntry FunnelFacts.phone "active_upsell"
      (Memory.VUpsell FunnelFacts.pro_upsell) "active_upsell" in
  let mm1 :=
    snd ((attach;; Funnel.updateFunnelStage Funnel.default_options
                     FunnelFacts.phone Funnel.UPSELL) 1000 Memory.empty_manager) in
  let r := Funnel.updateFunnelStage Funnel.default_options FunnelFacts.phone
             Funnel.CLOSING 2000 mm1 in
  fst r = Memory.Ok tt /\
  Memory.persisted (snd r) FunnelFacts.phone "current_stage" "funnel_stage"
  = Some (Memory.VString Funnel.DOWNSELL) /\
  Memory.persisted (snd r) FunnelFacts.phone "rejected_upsell" "sales_opportunity"
  = Some (Memory.VRejectedUpsell (Some "pro_plan"%string) 2000).
Proof. cbv zeta. repeat split; vm_compute; reflexivity. Qed.

(** C3 (the code departs from it). The conversation has no persisted
    stage and the purchase of [basic_plan] that [recordPurchase] wrote
    seven days ago; the seven-day offer on [basic_plan] is due on that day.
    [determineCurrentStage] asks [getLatestMemoryEntry] for the memory type
    ["purchased_product"], while the purchase is stored under the type
    ["purchase_history"]: no purchase is found, the stage is read off the
    conversation (whatever it is, never UPSELL) and no offer is activated. *)
Theorem recorded_purchase_is_not_found
        (toLowerCase : jsstring -> jsstring) (Date_parse : string -> option Z)
        (chatState : Funnel.ChatState) :
  let day0 := 1700000000000 in
  let recorded :=
    Memory.table (snd (Funnel.recordPurchase Funnel.default_options
                         FunnelFacts.phone "basic_plan" 4990 day0
                         Memory.empty_manager)) in
  let purchase :=
    List.filter (fun e => negb (String.eqb (e.(Memory.type)) "funnel_stage")
                          && negb (String.eqb (e.(Memory.type)) "funnel_analytics"))
                recorded in
  let mm := {| Memory.table := purchase;
               Memory.cache := Memory.cache Memory.empty_manager |} in
  let today := day0 + 7 * Funnel.MS_PER_DAY in
  map (fun e => (e.(Memory.key), e.(Memory.type))) purchase
  = [ ("purchased_product", "purchase_history");
      ("purchase_1700000000000", "purchase_history");
      ("last_interaction", "customer_journey") ]%string /\
  Funnel.calculateDaysBetween day0 today = 7 /\
  Funnel.checkUpsellOpportunity Funnel.default_options "basic_plan" 7
  = Some FunnelFacts.pro_upsell /\
  let r := Funnel.determineCurrentStage Funnel.default_options toLowerCase
             Date_parse FunnelFacts.phone chatState today mm in
  fst r = Memory.Ok (Funnel.stage_from_conversation toLowerCase chatState) /\
  fst r <> Memory.Ok Funnel.UPSELL /\
  FunnelFacts.with_key "active_upsell" (snd r) = [].
Proof.
  cbv zeta. split; [vm_compute; reflexivity|].
  split; [vm_compute; reflexivity|]. split; [reflexivity|].
  unfold Funnel.determineCurrentStage.
  pose proof (FunnelFacts.stage_from_conversation_not_upsell toLowerCase chatState)
    as Hne.
  set (stage := Funnel.stage_from_conversation toLowerCase chatState) in *.
  split; [vm_compute; reflexivity|]. split; [|vm_compute; reflexivity].
  vm_compute. intros [= E]. apply Hne. exact E.
Qed.

(** ** Processing runs of the chat handler *)

Module BatcherFacts.
Import Batcher.

Section Invariant.

Context {message : Type}.
Abbreviation handler := (ChatHandler message).

(** What every state reached by the event loop satisfies: the map
    [processingChats] and the runs in flight describe each other, and no
    two runs share a conversation or a processor. *)
Record consistent (h : handler) : Prop := {
  run_registered :
    forall r, In r (runs h) ->
              processingChats h !! run_phone r = Some (run_processor r);
  registered_run :
    forall phoneNumber a,
      processingChats h !! phoneNumber = Some a ->
      exists r, In r (runs h) /\ run_phone r = phoneNumber /\ run_processor r = a;
  one_run_per_phone : List.NoDup (map run_phone (runs h));
  one_run_per_processor : List.NoDup (map run_processor (runs h));
  run_allocated :
    forall r, In r (runs h) ->
              (run_processor r < next_address h)%nat /\
              is_Some (heap h !! run_processor r)
}.

Lemma NoDup_map_eq {A B} (f : A -> B) (l : list A) (x y : A) :
  List.NoDup (map f l) -> In x l -> In y l -> f x = f y -> x = y.
Proof.
  induction l as [|a l IH]; simpl; [tauto|].
  intros Hnd Hx Hy E. apply List.NoDup_cons_iff in Hnd as [Hnot Hnd].
  destruct Hx as [-> | Hx], Hy as [-> | Hy]; try reflexivity.
  - exfalso. apply Hnot. rewrite E. now apply in_map.
  - exfalso. apply Hnot. rewrite <- E. now apply in_map.
  - now apply IH.
Qed.

Lemma NoDup_map_filter {A B} (f : A -> B) (g : A -> bool) (l : list A) :
  List.NoDup (map f l) -> List.NoDup (map f (List.filter g l)).
Proof.
  induction l as [|a l IH]; simpl; [tauto|].
  intros Hnd. apply List.NoDup_cons_iff in Hnd as [Hnot Hnd].
  destruct (g a); [|now apply IH]. simpl. constructor; [|now apply IH].
  intros Hin. apply Hnot. apply in_map_iff in Hin as [x [E Hx]].
  apply filter_In in Hx as [Hx _]. rewrite <- E. now apply in_map.
Qed.

(** Among elements with distinct images, those with a given image are at
    most one, and exactly the one known to be there. *)
Lemma filter_unique {A B} (f : A -> B) (g : A -> bool) (l : list A) (x : A) :
  List.NoDup (map f l) -> In x l -> g x = true ->
  (forall y, g y = true -> f y = f x) ->
  List.filter g l = [x].
Proof.
  induction l as [|a l IH]; simpl; [tauto|].
  intros Hnd Hx Hg Hsame. apply List.NoDup_cons_iff in Hnd as [Hnot Hnd].
  assert (Hnone : forall l', (forall y, In y l' -> In y l) -> ~ In x l' ->
                             (forall y, In y l' -> g y = true -> y = x) ->
                             List.filter g l' = []).
  { clear. intros l' _ Hx Hy. induction l' as [|b l' IH]; [reflexivity|].
    simpl. destruct (g b) eqn:E.
    - exfalso. apply Hx. left. apply Hy; [now left | exact E].
    - apply IH; [intros H; apply Hx; now right|].
      intros y Hin. apply Hy. now right. }
  destruct Hx as [-> | Hx].
  - rewrite Hg. f_equal. apply Hnone; [tauto | |].
    + intros Hin. apply Hnot. now apply in_map.
    + intros y Hy Hgy. exfalso. apply Hnot.
      rewrite <- (Hsame y Hgy). now apply in_map.
  - destruct (g a) eqn:E; [|now apply IH].
    exfalso. apply Hnot. rewrite (Hsame a E). now apply in_map.
Qed.

Lemma filter_at_most_one {A B} (f : A -> B) (g : A -> bool) (l : list A) :
  List.NoDup (map f l) ->
  (forall x y, g x = true -> g y = true -> f x = f y) ->
  (length (List.filter g l) <= 1)%nat.
Proof.
  intros Hnd Hsame.
  destruct (List.filter g l) as [|x rest] eqn:E; [simpl; lia|].
  assert (Hx : In x (List.filter g l)) by (rewrite E; now left).
  apply filter_In in Hx as [Hx Hg].
  rewrite (filter_unique f g l x Hnd Hx Hg) in E.
  - injection E as <-. simpl. lia.
  - intros y Hy. now apply Hsame.
Qed.

Lemma find_is_run (h : handler) (r : run message) :
  consistent h -> In r (runs h) ->
  find (is_run (run_processor r)) (runs h) = Some r.
Proof.
  intros C Hr.
  destruct (find (is_run (run_processor r)) (runs h)) as [r'|] eqn:F.
  - apply find_some in F as [Hr' E]. apply Nat.eqb_eq in E. f_equal.
    exact (NoDup_map_eq run_processor _ _ _ (one_run_per_processor h C) Hr' Hr E).
  - exfalso. pose proof (find_none _ _ F r Hr) as E.
    unfold is_run in E. now rewrite Nat.eqb_refl in E.
Qed.

Lemma consistent_initial : consistent (@initial message).
Proof.
  constructor; simpl; try (intros; tauto); try constructor.
  intros phoneNumber a H. now rewrite lookup_empty in H.
Qed.

Lemma consistent_add (phoneNumber : string) (m : message) (h : handler) :
  consistent h -> consistent (_addToMessageGroup phoneNumber m h).
Proof. intros [H1 H2 H3 H4 H5]. constructor; simpl; assumption. Qed.

Lemma consistent_settle (r : run message) (h : handler) :
  consistent h -> In r (runs h) -> consistent (settle r h).
Proof.
  intros C Hr. pose proof C as [H1 H2 H3 H4 H5].
  assert (Hkeep : forall r', In r' (List.filter
                    (fun r' => negb (is_run (run_processor r) r')) (runs h)) ->
                  In r' (runs h) /\ run_processor r' <> run_processor r
                  /\ run_phone r' <> run_phone r).
  { intros r' Hin. apply filter_In in Hin as [Hin E].
    apply negb_true_iff, Nat.eqb_neq in E. repeat split; try assumption.
    intros Ep. apply E. f_equal.
    exact (NoDup_map_eq run_phone _ _ _ H3 Hin Hr Ep). }
  constructor; simpl.
  - intros r' Hin. apply Hkeep in Hin as [Hin [_ Hp]].
    rewrite lookup_delete_ne by congruence. now apply H1.
  - intros p a Hl. apply lookup_delete_Some in Hl as [Hp Hl].
    destruct (H2 p a Hl) as [r' [Hin [E1 E2]]].
    exists r'. repeat split; try assumption.
    apply filter_In. split; [exact Hin|].
    apply negb_true_iff, Nat.eqb_neq. intros E. apply Hp.
    rewrite <- E1. symmetry. f_equal.
    exact (NoDup_map_eq run_processor _ _ _ H4 Hin Hr E).
  - now apply NoDup_map_filter.
  - now apply NoDup_map_filter.
  - intros r' Hin. apply Hkeep in Hin as [Hin _]. now apply H5.
Qed.

Lemma consistent_process (phoneNumber : string) (h : handler) :
  consistent h -> consistent (_processMessageGroup phoneNumber h).
Proof.
  intros C. pose proof C as [H1 H2 H3 H4 H5]. unfold _processMessageGroup.
  destruct (incomingMessages h !! phoneNumber) as [[|m group]|];
    [constructor; simpl; assumption | | constructor; simpl; assumption].
  destruct (processingChats h !! phoneNumber) as [a|] eqn:P.
  - constructor; simpl; try assumption.
    intros r Hr. destruct (H5 r Hr) as [Hlt Hsome]. split; [exact Hlt|].
    apply lookup_insert_is_Some'. now right.
  - assert (Hfresh : forall r, In r (runs h) -> run_phone r <> phoneNumber).
    { intros r Hr E. rewrite <- E, (H1 r Hr) in P. discriminate. }
    constructor; simpl.
    + intros r Hr. apply in_app_iff in Hr as [Hr | [<- | []]]; simpl.
      * rewrite lookup_insert_ne by (intros E; now apply (Hfresh r Hr)).
        now apply H1.
      * apply lookup_insert_eq.
    + intros p a Hl. apply lookup_insert_Some in Hl as [[<- <-] | [Hp Hl]].
      * eexists. split; [apply in_app_iff; right; now left | now split].
      * destruct (H2 p a Hl) as [r [Hr E]]. exists r.
        split; [apply in_app_iff; now left | exact E].
    + rewrite map_app. simpl. apply NoDup_ListNoDup.
      apply NoDup_app. repeat split.
      * now apply NoDup_ListNoDup.
      * intros x Hx Hin. apply list_elem_of_In in Hx.
        apply list_elem_of_In in Hin as [<- | []].
        apply in_map_iff in Hx as [r [E Hr]]. now apply (Hfresh r Hr).
      * apply NoDup_singleton.
    + rewrite map_app. simpl. apply NoDup_ListNoDup.
      apply NoDup_app. repeat split.
      * now apply NoDup_ListNoDup.
      * intros x Hx Hin. apply list_elem_of_In in Hx.
        apply list_elem_of_In in Hin as [<- | []].
        apply in_map_iff in Hx as [r [E Hr]].
        destruct (H5 r Hr) as [Hlt _]. lia.
      * apply NoDup_singleton.
    + intros r Hr. apply in_app_iff in Hr as [Hr | [<- | []]]; simpl.
      * destruct (H5 r Hr) as [Hlt Hsome]. split; [lia|].
        apply lookup_insert_is_Some'. now right.
      * split; [lia|]. rewrite lookup_insert_eq. now eexists.
Qed.

Lemma consistent_resume (a : nat) (h : handler) :
  consistent h -> consistent (resume a h).
Proof.
  intros C. unfold resume.
  destruct (find (is_run a) (runs h)) as [r|] eqn:F; [|exact C].
  destruct (heap h !! a) as [p|] eqn:Hp; [|exact C].
  apply find_some in F as [Hr Ea].
  destruct (pendingMessages p) as [|m ms]; [now apply consistent_settle|].
  pose proof C as [H1 H2 H3 H4 H5].
  set (upd := fun r' : run message =>
                if is_run a r'
                then {| run_phone := run_phone r'; run_processor := a;
                        run_messages := Some (m :: ms) |}
                else r').
  assert (Hphone : forall r', run_phone (upd r') = run_phone r').
  { intros r'. unfold upd. now destruct (is_run a r'). }
  assert (Hproc : forall r', run_processor (upd r') = run_processor r').
  { intros r'. unfold upd. destruct (is_run a r') eqn:E; [|reflexivity].
    simpl. apply Nat.eqb_eq in E. now symmetry. }
  assert (Hmap1 : map run_phone (map upd (runs h)) = map run_phone (runs h)).
  { rewrite map_map. apply map_ext. exact Hphone. }
  assert (Hmap2 : map run_processor (map upd (runs h)) = map run_processor (runs h)).
  { rewrite map_map. apply map_ext. exact Hproc. }
  constructor; simpl; fold upd.
  - intros r' Hin. apply in_map_iff in Hin as [r0 [<- Hin]].
    rewrite Hphone, Hproc. now apply H1.
  - intros ph a' Hl. destruct (H2 ph a' Hl) as [r0 [Hin [E1 E2]]].
    exists (upd r0). rewrite Hphone, Hproc.
    split; [now apply in_map | now split].
  - now rewrite Hmap1.
  - now rewrite Hmap2.
  - intros r' Hin. apply in_map_iff in Hin as [r0 [<- Hin]].
    rewrite Hproc. destruct (H5 r0 Hin) as [Hlt Hsome]. split; [exact Hlt|].
    apply lookup_insert_is_Some'. now right.
Qed.

Lemma consistent_abort (a : nat) (h : handler) :
  consistent h -> consistent (abort a h).
Proof.
  intros C. unfold abort.
  destruct (find (is_run a) (runs h)) as [r|] eqn:F; [|exact C].
  apply find_some in F as [Hr _]. now apply consistent_settle.
Qed.

Lemma consistent_handle (h : handler) (e : event message) :
  consistent h -> consistent (handle h e).
Proof.
  destruct e; simpl;
    [apply consistent_add | apply consistent_process
     | apply consistent_resume | apply consistent_abort].
Qed.

Lemma consistent_fold (events : list (event message)) (h : handler) :
  consistent h -> consistent (fold_left handle events h).
Proof.
  revert h. induction events as [|e events IH]; intros h C; [exact C|].
  simpl. apply IH. now apply consistent_handle.
Qed.

(** Every state the event loop reaches is consistent. *)
Lemma consistent_after (events : list (event message)) :
  consistent (after events).
Proof. apply consistent_fold, consistent_initial. Qed.

(** *** What a timer callback and a resumed run do in a consistent state *)

Lemma active_runs_at_most_one (phoneNumber : string) (h : handler) :
  consistent h -> (length (active_runs phoneNumber h) <= 1)%nat.
Proof.
  intros C. unfold active_runs.
  apply (filter_at_most_one run_phone); [apply (one_run_per_phone h C)|].
  intros x y Hx Hy. apply String.eqb_eq in Hx, Hy. congruence.
Qed.

Lemma process_while_running (phoneNumber : string) (h : handler)
      (r : run message) (group : list message) :
  consistent h -> In r (runs h) -> run_phone r = phoneNumber ->
  incomingMessages h !! phoneNumber = Some group -> group <> [] ->
  exists p,
    heap h !! run_processor r = Some p /\
    _processMessageGroup phoneNumber h
    = {| incomingMessages := delete phoneNumber (incomingMessages h);
         processingChats := processingChats h;
         heap := <[run_processor r :=
                     {| pendingMessages := pendingMessages p ++ group;
                        isProcessing := isProcessing p |}]> (heap h);
         next_address := next_address h;
         runs := runs h |}.
Proof.
  intros C Hr Hphone Hgroup Hne.
  destruct (run_allocated h C r Hr) as [_ [p Hp]]. exists p.
  split; [exact Hp|]. unfold _processMessageGroup. rewrite Hgroup.
  destruct group as [|m group]; [now destruct Hne|].
  rewrite <- Hphone at 1. rewrite (run_registered h C r Hr), Hp. reflexivity.
Qed.

Lemma resume_running (h : handler) (r : run message) (p : processor message) :
  consistent h -> In r (runs h) -> heap h !! run_processor r = Some p ->
  match pendingMessages p with
  | [] =>
    active_runs (run_phone r) (resume (run_processor r) h) = [] /\
    processingChats (resume (run_processor r) h) !! run_phone r = None
  | messages =>
    active_runs (run_phone r) (resume (run_processor r) h)
    = [ {| run_phone := run_phone r; run_processor := run_processor r;
           run_messages := Some messages |} ] /\
    heap (resume (run_processor r) h) !! run_processor r
    = Some {| pendingMessages := []; isProcessing := isProcessing p |}
  end.
Proof.
  intros C Hr Hp. unfold resume. rewrite (find_is_run h r C Hr), Hp.
  destruct (pendingMessages p) as [|m ms].
  - split; [|apply lookup_delete_eq].
    unfold active_runs, settle. cbn [runs].
    destruct (List.filter _ (List.filter _ (runs h))) as [|r' rest] eqn:F;
      [reflexivity|].
    assert (Hin : In r' (List.filter (fun r0 => String.eqb (run_phone r0) (run_phone r))
             (List.filter (fun r' => negb (is_run (run_processor r) r')) (runs h))))
      by (rewrite F; now left).
    apply filter_In in Hin as [Hin E1]. apply filter_In in Hin as [Hin E2].
    apply String.eqb_eq in E1. apply negb_true_iff, Nat.eqb_neq in E2.
    exfalso. apply E2. f_equal.
    exact (NoDup_map_eq run_phone _ _ _ (one_run_per_phone h C) Hin Hr E1).
  - split; [|apply lookup_insert_eq].
    unfold active_runs. cbn [runs].
    set (upd := fun r' : run message =>
                  if is_run (run_processor r) r'
                  then {| run_phone := run_phone r'; run_processor := run_processor r;
                          run_messages := Some (m :: ms) |}
                  else r').
    assert (Hupd : upd r = {| run_phone := run_phone r;
                              run_processor := run_processor r;
                              run_messages := Some (m :: ms) |}).
    { unfold upd, is_run. now rewrite Nat.eqb_refl. }
    assert (Hphone : forall r', run_phone (upd r') = run_phone r').
    { intros r'. unfold upd. now destruct (is_run (run_processor r) r'). }
    rewrite <- Hupd.
    apply (filter_unique run_phone).
    + rewrite map_map. erewrite map_ext; [apply (one_run_per_phone h C)|].
      exact Hphone.
    + now apply in_map.
    + rewrite Hphone. apply String.eqb_refl.
    + intros y Hy. apply String.eqb_eq in Hy. now rewrite Hy, Hphone.
Qed.

End Invariant.

End BatcherFacts.

(** C4. After any sequence of events of the event loop (messages coming
    in, timers firing, runs coming back from an [await], awaited calls
    throwing), for every conversation: at most one processing run is in
    flight; when the timer fires while a run is in flight and fragments
    are pending, they are appended to the pending list of that run, the
    group is removed, and the runs in flight stay the same (no second run
    starts); and when that run comes back to the head of its loop, it
    takes the whole pending list for its next pass and stays the only run,
    or, the list being empty, it ends and the conversation is unlocked. *)
Theorem one_processing_run_per_conversation
        {message : Type} (events : list (Batcher.event message))
        (phoneNumber : string) :
  let h := Batcher.after events in
  (length (Batcher.active_runs phoneNumber h) <= 1)%nat /\
  (forall r group,
      In r (Batcher.runs h) -> Batcher.run_phone r = phoneNumber ->
      Batcher.incomingMessages h !! phoneNumber = Some group -> group <> [] ->
      exists p,
        Batcher.heap h !! Batcher.run_processor r = Some p /\
        let h' := Batcher._processMessageGroup phoneNumber h in
        Batcher.runs h' = Batcher.runs h /\
        Batcher.processingChats h' = Batcher.processingChats h /\
        Batcher.incomingMessages h' !! phoneNumber = None /\
        Batcher.heap h' !! Batcher.run_processor r
        = Some {| Batcher.pendingMessages := Batcher.pendingMessages p ++ group;
                  Batcher.isProcessing := Batcher.isProcessing p |}) /\
  (forall r,
      In r (Batcher.runs h) -> Batcher.run_phone r = phoneNumber ->
      exists p,
        Batcher.heap h !! Batcher.run_processor r = Some p /\
        let h' := Batcher.resume (Batcher.run_processor r) h in
        match Batcher.pendingMessages p with
        | [] =>
          Batcher.active_runs phoneNumber h' = [] /\
          Batcher.processingChats h' !! phoneNumber = None
        | messages =>
          Batcher.active_runs phoneNumber h'
          = [ {| Batcher.run_phone := phoneNumber;
                 Batcher.run_processor := Batcher.run_processor r;
                 Batcher.run_messages := Some messages |} ] /\
          Batcher.heap h' !! Batcher.run_processor r
          = Some {| Batcher.pendingMessages := [];
                    Batcher.isProcessing := Batcher.isProcessing p |}
        end).
Proof.
  intros h. pose proof (BatcherFacts.consistent_after events) as C. fold h in C.
  split; [|split].
  - now apply BatcherFacts.active_runs_at_most_one.
  - intros r group Hr Hphone Hgroup Hne.
    destruct (BatcherFacts.process_while_running phoneNumber h r group
                C Hr Hphone Hgroup Hne) as [p [Hp E]].
    exists p. split; [exact Hp|]. cbv zeta. rewrite E. cbn.
    repeat split; [apply lookup_delete_eq | apply lookup_insert_eq].
  - intros r Hr Hphone.
    destruct (BatcherFacts.run_allocated h C r Hr) as [_ [p Hp]].
    exists p. split; [exact Hp|]. cbv zeta. subst phoneNumber.
    exact (BatcherFacts.resume_running h r p C Hr Hp).
Qed.

(** A run of the theorem: a first fragment starts the run, a second one
    arrives and its timer fires while the run is in flight. *)
Lemma one_processing_run_per_conversation_witness :
  let events := [ Batcher.Incoming "5511" 1%nat; Batcher.TimerFires "5511";
                  Batcher.Incoming "5511" 2%nat ] in
  let h := Batcher.after events in
  let r : Batcher.run nat :=
    {| Batcher.run_phone := "5511"; Batcher.run_processor := 0%nat;
       Batcher.run_messages := None |} in
  exists p,
    Batcher.heap h !! 0%nat = Some p /\
    let h' := Batcher._processMessageGroup "5511" h in
    Batcher.runs h' = Batcher.runs h /\
    Batcher.processingChats h' = Batcher.processingChats h /\
    Batcher.incomingMessages h' !! "5511" = None /\
    Batcher.heap h' !! 0%nat
    = Some {| Batcher.pendingMessages := Batcher.pendingMessages p ++ [2%nat];
              Batcher.isProcessing := Batcher.isProcessing p |}.
Proof.
  intros events h r.
  apply (proj1 (proj2 (one_processing_run_per_conversation events "5511")) r [2%nat]).
  - left. reflexivity.
  - reflexivity.
  - vm_compute. reflexivity.
  - discriminate.
Defined.

(** ** Splitting an outgoing reply *)

Module SplitterFacts.
Import JsStringFacts AiHandlerFacts StripFacts.

(** The characters of a text that are not white space. *)
Definition visible (s : jsstring) : jsstring :=
  List.filter (fun c => negb (is_space c)) s.

Lemma visible_app (a b : jsstring) : visible (a ++ b) = visible a ++ visible b.
Proof. unfold visible. apply List.filter_app. Qed.

Lemma visible_spaces (w : jsstring) : forallb is_space w = true -> visible w = [].
Proof.
  induction w as [|c w IH]; [reflexivity|]. simpl.
  rewrite andb_true_iff. intros [-> H]. now apply IH.
Qed.

Lemma visible_rev (s : jsstring) : visible (rev s) = rev (visible s).
Proof.
  induction s as [|c s IH]; [reflexivity|].
  simpl. rewrite visible_app, IH. simpl.
  destruct (is_space c); simpl; [now rewrite app_nil_r | reflexivity].
Qed.

Lemma visible_drop_while (s : jsstring) :
  visible (drop_while is_space s) = visible s.
Proof.
  rewrite <- (take_drop_while is_space s) at 2.
  rewrite visible_app, (visible_spaces _ (take_while_all is_space s)).
  reflexivity.
Qed.

(** Trimming removes white space only. *)
Lemma visible_trim (s : jsstring) : visible (trim s) = visible s.
Proof.
  unfold trim, trimEnd, trimStart.
  rewrite visible_rev, visible_drop_while, visible_rev, rev_involutive.
  apply visible_drop_while.
Qed.

(** *** The loop of [_splitTextChunks] *)

Lemma sentenceBoundary_ge (text : jsstring) (maxLength start : Z) :
  1 <= maxLength -> start <= sentenceBoundary text maxLength start.
Proof.
  intros H. unfold sentenceBoundary.
  match goal with
  | |- context [if ?b <? start then _ else _] =>
    destruct (Z.ltb_spec b start)
  end; lia.
Qed.

(** With a positive maximum the loop ends within its bound. *)
Lemma splitTextChunks_loop_returns (fuel : nat) :
  forall (text : jsstring) (maxLength start : Z) (chunks : list jsstring),
    1 <= maxLength -> 0 <= start ->
    (Z.to_nat (jslength text - start) < fuel)%nat ->
    exists r, splitTextChunks_loop fuel text maxLength start chunks = Some r.
Proof.
  induction fuel as [|fuel IH]; intros text maxLength start chunks Hmax Hs Hf;
    [lia|].
  cbn [splitTextChunks_loop].
  destruct (Z.ltb_spec start (jslength text)); [|now eexists].
  destruct (Z.leb_spec (jslength text) (start + maxLength)); [now eexists|].
  pose proof (sentenceBoundary_ge text maxLength start Hmax).
  apply IH; lia.
Qed.

Lemma _splitTextChunks_returns (text : jsstring) (maxLength : Z) :
  1 <= maxLength -> exists r, _splitTextChunks text maxLength = Some r.
Proof.
  intros H. apply splitTextChunks_loop_returns; [exact H | lia |].
  unfold jslength. lia.
Qed.

Lemma firstn_plus {A} (a k : nat) (l : list A) :
  firstn (a + k) l = firstn a l ++ firstn k (skipn a l).
Proof.
  revert l. induction a as [|a IH]; intros l; [reflexivity|].
  destruct l as [|x l]; simpl; [now rewrite firstn_nil | now rewrite IH].
Qed.

Lemma substring_from_start (text : jsstring) (start b : Z) :
  0 <= start < jslength text -> start <= b ->
  firstn (Z.to_nat start) text ++ substring text start b
  = firstn (Z.to_nat b) text.
Proof.
  intros Hs Hb. unfold substring, clamp.
  rewrite (Z.max_l start 0), (Z.min_l start (jslength text)) by lia.
  rewrite (Z.max_l b 0) by lia.
  destruct (Z.le_ge_cases b (jslength text)) as [Hle | Hge].
  - rewrite (Z.min_l b) by lia.
    rewrite (Z.min_l start b), (Z.max_r start b) by lia.
    rewrite <- firstn_plus. f_equal. lia.
  - rewrite (Z.min_r b) by lia.
    rewrite (Z.min_l start), (Z.max_r start) by lia.
    rewrite <- firstn_plus.
    rewrite !firstn_all2; [reflexivity | |]; unfold jslength in *; lia.
Qed.

(** The chunks pushed so far hold the visible characters of the text up
    to [start]; at the end, of the whole text. *)
Lemma splitTextChunks_loop_visible (fuel : nat) :
  forall (text : jsstring) (maxLength start : Z) (chunks r : list jsstring),
    1 <= maxLength -> 0 <= start ->
    visible (concat chunks) = visible (firstn (Z.to_nat start) text) ->
    splitTextChunks_loop fuel text maxLength start chunks = Some r ->
    visible (concat r) = visible text.
Proof.
  induction fuel as [|fuel IH];
    intros text maxLength start chunks r Hmax Hs Hinv; [discriminate|].
  cbn [splitTextChunks_loop].
  destruct (Z.ltb_spec start (jslength text)) as [Hlt | Hge].
  - destruct (Z.leb_spec (jslength text) (start + maxLength)).
    + intros [= <-]. rewrite concat_app, visible_app, Hinv. cbn [concat].
      rewrite app_nil_r, visible_trim, <- visible_app.
      unfold substring_from.
      rewrite substring_from_start by lia.
      rewrite firstn_all2; [reflexivity | unfold jslength; lia].
    + pose proof (sentenceBoundary_ge text maxLength start Hmax) as Hb.
      apply IH; [exact Hmax | lia |].
      rewrite concat_app, visible_app, Hinv. cbn [concat].
      rewrite app_nil_r, visible_trim, <- visible_app.
      now rewrite substring_from_start by lia.
  - intros [= <-]. rewrite Hinv.
    rewrite firstn_all2; [reflexivity | unfold jslength in *; lia].
Qed.

Lemma _splitTextChunks_visible (text : jsstring) (maxLength : Z)
      (r : list jsstring) :
  1 <= maxLength -> _splitTextChunks text maxLength = Some r ->
  visible (concat r) = visible text.
Proof.
  intros H. apply splitTextChunks_loop_visible; [exact H | lia | reflexivity].
Qed.

(** *** Splitting at paragraph breaks *)

Lemma upto_last_LF_prefix (w p : jsstring) :
  upto_last_LF w = Some p -> exists q, w = p ++ q.
Proof.
  revert p. induction w as [|c w IH]; intros p; [discriminate|].
  cbn [upto_last_LF]. destruct (upto_last_LF w) as [p'|].
  - intros [= <-]. destruct (IH p' eq_refl) as [q ->]. now exists q.
  - destruct (is_LF c); [|discriminate]. intros [= <-]. now exists w.
Qed.

Lemma forallb_app_l {A} (f : A -> bool) (a b : list A) :
  forallb f (a ++ b) = true -> forallb f a = true.
Proof. rewrite forallb_app, andb_true_iff. tauto. Qed.

(** A paragraph break is a non-empty stretch of white space at the head
    of the text. *)
Lemma paragraphBreak_spaces (s m0 : jsstring) :
  paragraphBreak s = Some m0 ->
  m0 <> [] /\ forallb is_space m0 = true /\ exists rest, s = m0 ++ rest.
Proof.
  unfold paragraphBreak. destruct s as [|c r]; [discriminate|].
  destruct (is_LF c) eqn:Hc; [|discriminate].
  destruct (upto_last_LF (take_while is_space r)) as [p|] eqn:U; [|discriminate].
  intros [= <-]. apply upto_last_LF_prefix in U as [q Hq].
  split; [discriminate|]. split.
  - cbn [forallb]. apply is_LF_eq in Hc. subst c.
    change (is_space LF) with true. cbn [andb].
    apply (forallb_app_l _ p q). rewrite <- Hq. apply take_while_all.
  - exists (q ++ drop_while is_space r). cbn [app]. f_equal.
    rewrite app_assoc, <- Hq. symmetry. apply take_drop_while.
Qed.

Lemma split_from_skip (m : matcher) (k : nat) (cur s : jsstring) :
  split_from m k cur s = split_from m 0 cur (skipn k s).
Proof.
  revert s. induction k as [|k IH]; intros s; [reflexivity|].
  destruct s as [|c s]; [reflexivity|]. simpl. apply IH.
Qed.

(** The pieces hold the visible characters of the text. *)
Lemma split_from_visible (n : nat) :
  forall s cur : jsstring,
    (length s <= n)%nat ->
    visible (concat (split_from paragraphBreak 0 cur s))
    = visible cur ++ visible s.
Proof.
  induction n as [|n IH]; intros s cur Hlen.
  { destruct s; [|simpl in Hlen; lia]. simpl. now rewrite !app_nil_r. }
  destruct s as [|c t]; [simpl; now rewrite !app_nil_r|].
  cbn [split_from]. destruct (paragraphBreak (c :: t)) as [m0|] eqn:E.
  - apply paragraphBreak_spaces in E as [Hne [Hsp [rest Hrest]]].
    rewrite split_from_skip. cbn [concat]. rewrite visible_app.
    destruct m0 as [|x m0]; [now destruct Hne|].
    cbn [app] in Hrest. injection Hrest as <- ->.
    cbn [length]. rewrite Nat.sub_succ, Nat.sub_0_r.
    rewrite skipn_app, skipn_all, Nat.sub_diag, skipn_O. cbn [app].
    rewrite IH.
    + change (c :: m0 ++ rest) with ((c :: m0) ++ rest).
      rewrite (visible_app (c :: m0)), (visible_spaces _ Hsp). reflexivity.
    + simpl in Hlen. rewrite length_app in Hlen. lia.
  - rewrite IH by (simpl in Hlen; lia).
    rewrite visible_app, <- app_assoc.
    change (c :: t) with ([c] ++ t). now rewrite (visible_app [c]).
Qed.

Lemma split_visible (s : jsstring) :
  visible (concat (split paragraphBreak s)) = visible s.
Proof. unfold split. now rewrite (split_from_visible (length s)). Qed.

(** *** The loop over the paragraphs *)

Lemma splitParagraphs_returns (maxLength : Z) (paragraphs : list jsstring) :
  1 <= maxLength ->
  forall messages currentMessage,
    exists r, splitParagraphs maxLength paragraphs messages currentMessage = Some r.
Proof.
  intros Hmax. induction paragraphs as [|p rest IH]; intros messages cur.
  - cbn [splitParagraphs]. destruct cur; now eexists.
  - cbn [splitParagraphs].
    destruct (maxLength <? jslength cur + jslength p + 2).
    + destruct (maxLength <? jslength p); [|apply IH].
      destruct (_splitTextChunks_returns p maxLength Hmax) as [r ->]. apply IH.
    + destruct cur; apply IH.
Qed.

Lemma visible_push (messages : list jsstring) (cur : jsstring) :
  visible (concat (messages ++ [trim cur]))
  = visible (concat messages) ++ visible cur.
Proof.
  rewrite concat_app, visible_app. cbn [concat].
  now rewrite app_nil_r, visible_trim.
Qed.

Lemma splitParagraphs_visible (maxLength : Z) (paragraphs : list jsstring) :
  1 <= maxLength ->
  forall messages currentMessage r,
    splitParagraphs maxLength paragraphs messages currentMessage = Some r ->
    visible (concat r)
    = visible (concat messages) ++ visible currentMessage
      ++ visible (concat paragraphs).
Proof.
  intros Hmax. induction paragraphs as [|p rest IH]; intros messages cur r.
  - cbn [splitParagraphs concat].
    destruct cur as [|c cur]; intros [= <-].
    + now rewrite !app_nil_r.
    + now rewrite visible_push, app_nil_r.
  - cbn [splitParagraphs concat]. rewrite (visible_app p).
    destruct (maxLength <? jslength cur + jslength p + 2).
    + destruct (maxLength <? jslength p).
      * destruct (_splitTextChunks p maxLength) as [chunks|] eqn:E; [|discriminate].
        pose proof (_splitTextChunks_visible p maxLength chunks Hmax E) as V.
        destruct cur as [|c cur]; intros H; apply IH in H; rewrite H;
          rewrite concat_app, visible_app, V, ?visible_push;
          cbn [visible List.filter app]; now rewrite <- ?app_assoc.
      * destruct cur as [|c cur]; intros H; apply IH in H; rewrite H;
          rewrite ?visible_push; cbn [visible List.filter app];
          now rewrite <- ?app_assoc.
    + destruct cur as [|c cur]; intros H; apply IH in H; rewrite H.
      * reflexivity.
      * rewrite !visible_app. cbn [visible List.filter].
        change (is_space LF) with true. cbn [negb app].
        now rewrite <- !app_assoc.
Qed.

(** *** Lengths of the chunks *)

Lemma lastIndexOf_from_le (s p : jsstring) (i pos best : Z) :
  lastIndexOf_from i s p pos best <= Z.max best pos.
Proof.
  revert i best. induction s as [|c s IH]; intros i best; cbn [lastIndexOf_from].
  - destruct (starts_with p [] && (i <=? pos)) eqn:E; [|lia].
    apply andb_true_iff in E as [_ E]. apply Z.leb_le in E. lia.
  - destruct (starts_with p (c :: s) && (i <=? pos)) eqn:E.
    + apply andb_true_iff in E as [_ E]. apply Z.leb_le in E.
      specialize (IH (i + 1) i). lia.
    + apply IH.
Qed.

Lemma lastIndexOf_le (s p : jsstring) (pos : Z) :
  0 <= pos -> lastIndexOf s p pos <= pos.
Proof.
  intros H. pose proof (lastIndexOf_from_le s p 0 (Z.max pos 0) (-1)).
  unfold lastIndexOf. lia.
Qed.

Lemma sentenceBoundary_le (text : jsstring) (maxLength start : Z) :
  1 <= maxLength -> 0 <= start ->
  sentenceBoundary text maxLength start <= start + maxLength.
Proof.
  intros Hmax Hs. unfold sentenceBoundary.
  assert (L : forall p, lastIndexOf text p (start + maxLength) <= start + maxLength)
    by (intros p; apply lastIndexOf_le; lia).
  repeat match goal with
         | |- context [if ?b then _ else _] => destruct b
         end; try apply L; lia.
Qed.

Lemma substring_length (text : jsstring) (a b : Z) :
  0 <= a -> a <= b -> jslength (substring text a b) <= b - a.
Proof.
  intros Ha Hb. unfold substring, clamp, jslength.
  rewrite length_firstn. lia.
Qed.

Lemma trim_jslength (s : jsstring) : jslength (trim s) <= jslength s.
Proof. unfold jslength. pose proof (trim_length s). lia. Qed.

Definition within (bound : Z) (chunks : list jsstring) : Prop :=
  Forall (fun c => jslength c <= bound) chunks.

Lemma within_app (bound : Z) (a b : list jsstring) :
  within bound a -> within bound b -> within bound (a ++ b).
Proof. unfold within. rewrite Forall_app. tauto. Qed.

Lemma within_one (bound : Z) (c : jsstring) :
  jslength c <= bound -> within bound [c].
Proof. intros H. now repeat constructor. Qed.

Lemma splitTextChunks_loop_within (fuel : nat) :
  forall (text : jsstring) (maxLength start : Z) (chunks r : list jsstring),
    1 <= maxLength -> 0 <= start ->
    within (maxLength + 1) chunks ->
    splitTextChunks_loop fuel text maxLength start chunks = Some r ->
    within (maxLength + 1) r.
Proof.
  induction fuel as [|fuel IH];
    intros text maxLength start chunks r Hmax Hs Hin; [discriminate|].
  cbn [splitTextChunks_loop].
  destruct (Z.ltb_spec start (jslength text)) as [Hlt | Hge];
    [|now intros [= <-]].
  destruct (Z.leb_spec (jslength text) (start + maxLength)).
  - intros [= <-]. apply within_app; [exact Hin|]. apply within_one.
    pose proof (trim_jslength (substring_from text start)).
    pose proof (substring_length text start (jslength text)).
    unfold substring_from in *. lia.
  - pose proof (sentenceBoundary_ge text maxLength start Hmax).
    pose proof (sentenceBoundary_le text maxLength start Hmax Hs).
    apply IH; [exact Hmax | lia |].
    apply within_app; [exact Hin|]. apply within_one.
    pose proof (trim_jslength
                  (substring text start (sentenceBoundary text maxLength start + 1))).
    pose proof (substring_length text start
                  (sentenceBoundary text maxLength start + 1)).
    lia.
Qed.

Lemma _splitTextChunks_within (text : jsstring) (maxLength : Z)
      (r : list jsstring) :
  1 <= maxLength -> _splitTextChunks text maxLength = Some r ->
  within (maxLength + 1) r.
Proof.
  intros H. apply splitTextChunks_loop_within; [exact H | lia | constructor].
Qed.

Lemma splitParagraphs_within (maxLength : Z) (paragraphs : list jsstring) :
  1 <= maxLength ->
  forall messages currentMessage r,
    within (maxLength + 1) messages -> jslength currentMessage <= maxLength ->
    splitParagraphs maxLength paragraphs messages currentMessage = Some r ->
    within (maxLength + 1) r.
Proof.
  intros Hmax.
  assert (Hpush : forall messages cur,
             within (maxLength + 1) messages -> jslength cur <= maxLength ->
             within (maxLength + 1) (messages ++ [trim cur])).
  { intros messages cur Hm Hc.
    apply within_app; [exact Hm|]. apply within_one.
    pose proof (trim_jslength cur). lia. }
  assert (Hnil : @jslength [] <= maxLength) by (unfold jslength; simpl; lia).
  induction paragraphs as [|p rest IH]; intros messages cur r Hm Hc.
  - cbn [splitParagraphs]. specialize (Hpush messages cur Hm Hc).
    destruct cur; now intros [= <-].
  - cbn [splitParagraphs].
    destruct (Z.ltb_spec maxLength (jslength cur + jslength p + 2)).
    + specialize (Hpush messages cur Hm Hc).
      destruct (Z.ltb_spec maxLength (jslength p)).
      * destruct (_splitTextChunks p maxLength) as [chunks|] eqn:E; [|discriminate].
        assert (Hchunks : within (maxLength + 1) chunks).
        { exact (_splitTextChunks_within p maxLength chunks Hmax E). }
        destruct cur as [|c cur]; apply IH; try exact Hnil;
          apply within_app; assumption.
      * destruct cur as [|c cur]; apply IH; try assumption; lia.
    + destruct cur as [|c cur]; apply IH; try exact Hm.
      * unfold jslength in *. simpl in *. lia.
      * unfold jslength in *. rewrite !length_app. simpl in *. lia.
Qed.

End SplitterFacts.

(** C9 (the code departs from it). With the maximum at 100 (and at the
    default, 1000) and a reply of that many letters followed by ". " and
    more text, [lastIndexOf('. ', end)] finds the full stop at position
    [end = start + maxLength] itself, and the chunk
    [text.substring(start, end + 1)] has one character more than the
    maximum; trimming removes nothing from it. The same happens with and
    without splitting in paragraphs. *)
Theorem splitMessage_chunk_longer_than_max :
  Forall (fun maxCharsPerMessage : Z =>
            let letters := repeat 97%N (Z.to_nat maxCharsPerMessage) in
            let content := letters ++ js ". " ++ js "e depois" in
            configured_maxChars maxCharsPerMessage /\
            lastIndexOf content (js ". ") maxCharsPerMessage = maxCharsPerMessage /\
            forall splitInParagraphs : bool,
              _splitMessage maxCharsPerMessage splitInParagraphs content
              = Some [letters ++ js "."; js "e depois"] /\
              jslength (letters ++ js ".") = maxCharsPerMessage + 1)
         [100; 1000].
Proof.
  repeat constructor; try (unfold configured_maxChars; lia);
    try (vm_compute; reflexivity);
    destruct splitInParagraphs; vm_compute; reflexivity.
Qed.

(** What does hold of the splitting, for every positive maximum, every
    text and either setting: it returns; no chunk is longer than the
    maximum plus one; and the chunks, put together, have the characters of
    the text that are not white space, in their order. *)
Lemma splitMessage_returns_and_keeps_content
      (maxCharsPerMessage : Z) (splitInParagraphs : bool) (content : jsstring) :
  1 <= maxCharsPerMessage ->
  exists chunks,
    _splitMessage maxCharsPerMessage splitInParagraphs content = Some chunks /\
    Forall (fun c => jslength c <= maxCharsPerMessage + 1) chunks /\
    SplitterFacts.visible (concat chunks) = SplitterFacts.visible content.
Proof.
  intros Hmax. unfold _splitMessage.
  destruct (Z.leb_spec (jslength content) maxCharsPerMessage).
  - exists [content]. split; [reflexivity|]. split.
    + apply SplitterFacts.within_one. lia.
    + cbn [concat]. now rewrite app_nil_r.
  - destruct splitInParagraphs.
    + destruct (SplitterFacts.splitParagraphs_returns maxCharsPerMessage
                  (split paragraphBreak content) Hmax [] []) as [r Hr].
      exists r. split; [exact Hr|]. split.
      * apply (SplitterFacts.splitParagraphs_within maxCharsPerMessage
                 (split paragraphBreak content) Hmax [] [] r);
          [constructor | unfold jslength; simpl; lia | exact Hr].
      * rewrite (SplitterFacts.splitParagraphs_visible maxCharsPerMessage
                   (split paragraphBreak content) Hmax [] [] r Hr).
        cbn [concat app]. apply SplitterFacts.split_visible.
    + destruct (SplitterFacts._splitTextChunks_returns content maxCharsPerMessage Hmax)
        as [r Hr].
      exists r. split; [exact Hr|]. split.
      * exact (SplitterFacts._splitTextChunks_within content maxCharsPerMessage
                                                       r Hmax Hr).
      * now apply (SplitterFacts._splitTextChunks_visible content maxCharsPerMessage).
Qed.

(** ** The memory manager and its cache *)

Module MemoryFacts.
Import Memory MemoryOps.

Lemma same_slot_iff (phoneNumber key type : string) (e : MemoryEntry) :
  same_slot phoneNumber key type e = true <-> slot_of e = (phoneNumber, key, type).
Proof.
  unfold same_slot, slot_of. rewrite !andb_true_iff, !String.eqb_eq.
  split; [intros [[-> ->] ->]; reflexivity | intros [= -> -> ->]; tauto].
Qed.

Lemma same_slot_of (e e' : MemoryEntry) :
  same_slot (conversationId e) (e.(Memory.key)) (e.(Memory.type)) e' = true
  <-> slot_of e' = slot_of e.
Proof. apply same_slot_iff. Qed.

Lemma NoDup_map_inj {A B} (f : A -> B) (l : list A) (x y : A) :
  List.NoDup (map f l) -> In x l -> In y l -> f x = f y -> x = y.
Proof.
  induction l as [|a l IH]; simpl; [tauto|].
  intros Hnd Hx Hy E. apply List.NoDup_cons_iff in Hnd as [Hnot Hnd].
  destruct Hx as [-> | Hx], Hy as [-> | Hy]; try reflexivity.
  - exfalso. apply Hnot. rewrite E. now apply in_map.
  - exfalso. apply Hnot. rewrite <- E. now apply in_map.
  - now apply IH.
Qed.

Lemma NoDup_map_sub {A B} (f : A -> B) (g : A -> bool) (l : list A) :
  List.NoDup (map f l) -> List.NoDup (map f (List.filter g l)).
Proof.
  induction l as [|a l IH]; simpl; [tauto|].
  intros Hnd. apply List.NoDup_cons_iff in Hnd as [Hnot Hnd].
  destruct (g a); [|now apply IH]. simpl. constructor; [|now apply IH].
  intros Hin. apply Hnot. apply in_map_iff in Hin as [x [E Hx]].
  apply filter_In in Hx as [Hx _]. rewrite <- E. now apply in_map.
Qed.

(** *** [find], [update_first] and [remove_first] *)

Lemma find_unique_slot (l : list MemoryEntry) (e : MemoryEntry) (f : MemoryEntry -> bool) :
  List.NoDup (map slot_of l) -> In e l -> f e = true ->
  (forall e', f e' = true -> slot_of e' = slot_of e) ->
  find f l = Some e.
Proof.
  intros Hnd Hin Hf Hslot.
  destruct (find f l) as [e'|] eqn:F.
  - apply find_some in F as [Hin' Hf']. f_equal.
    apply (NoDup_map_inj slot_of l); auto.
  - exfalso. pose proof (find_none _ _ F e Hin). congruence.
Qed.

Lemma update_first_map {A B} (f : A -> bool) (g : A -> A) (h : A -> B) (l : list A) :
  (forall x, h (g x) = h x) -> map h (update_first f g l) = map h l.
Proof.
  intros H. induction l as [|a l IH]; [reflexivity|].
  simpl. destruct (f a); simpl; [now rewrite H | now rewrite IH].
Qed.

Lemma update_first_length {A} (f : A -> bool) (g : A -> A) (l : list A) :
  length (update_first f g l) = length l.
Proof.
  induction l as [|a l IH]; [reflexivity|].
  simpl. destruct (f a); simpl; [reflexivity | now rewrite IH].
Qed.

Lemma update_first_In {A} (f : A -> bool) (g : A -> A) (l : list A) (x : A) :
  In x l -> f x = false -> In x (update_first f g l).
Proof.
  induction l as [|a l IH]; [tauto|].
  intros [-> | Hin] Hf; simpl.
  - rewrite Hf. now left.
  - destruct (f a); [now right | right; now apply IH].
Qed.

Lemma update_first_found {A} (f : A -> bool) (g : A -> A) (l : list A) (x : A) :
  find f l = Some x -> In (g x) (update_first f g l).
Proof.
  induction l as [|a l IH]; [discriminate|].
  simpl. destruct (f a); [intros [= ->]; now left | intros H; right; now apply IH].
Qed.


Lemma find_update_same {A} (f : A -> bool) (g : A -> A) (l : list A) (x : A) :
  (forall y, f (g y) = f y) ->
  find f l = Some x -> find f (update_first f g l) = Some (g x).
Proof.
  intros Hg. induction l as [|a l IH]; [discriminate|].
  simpl. destruct (f a) eqn:E.
  - intros [= ->]. simpl. now rewrite Hg, E.
  - intros H. simpl. rewrite E. now apply IH.
Qed.

Lemma find_update_other {A} (f f' : A -> bool) (g : A -> A) (l : list A) :
  (forall y, f y = true -> f' y = false) ->
  (forall y, f y = true -> f' (g y) = false) ->
  find f' (update_first f g l) = find f' l.
Proof.
  intros H1 H2. induction l as [|a l IH]; [reflexivity|].
  simpl. destruct (f a) eqn:E; simpl.
  - now rewrite (H1 a E), (H2 a E).
  - now rewrite IH.
Qed.

Lemma find_app_none {A} (f : A -> bool) (l l' : list A) :
  find f l = None -> find f (l ++ l') = find f l'.
Proof.
  induction l as [|a l IH]; [reflexivity|].
  simpl. destruct (f a); [discriminate | exact IH].
Qed.

Lemma find_app_some {A} (f : A -> bool) (l l' : list A) (x : A) :
  find f l = Some x -> find f (l ++ l') = Some x.
Proof.
  induction l as [|a l IH]; [discriminate|].
  simpl. destruct (f a); [tauto | exact IH].
Qed.

Lemma remove_first_In {A} (f : A -> bool) (l : list A) (x : A) :
  In x (remove_first f l) -> In x l.
Proof.
  induction l as [|a l IH]; [tauto|].
  simpl. destruct (f a); [now right|].
  intros [-> | H]; [now left | right; now apply IH].
Qed.

Lemma remove_first_NoDup {A B} (h : A -> B) (f : A -> bool) (l : list A) :
  List.NoDup (map h l) -> List.NoDup (map h (remove_first f l)).
Proof.
  induction l as [|a l IH]; [tauto|].
  simpl. intros Hnd. apply List.NoDup_cons_iff in Hnd as [Hnot Hnd].
  destruct (f a); [exact Hnd|]. simpl. constructor; [|now apply IH].
  intros Hin. apply Hnot. apply in_map_iff in Hin as [x [E Hx]].
  rewrite <- E. apply in_map. now apply remove_first_In in Hx.
Qed.

(** Once the first match is removed from a list without two matches of
    the same image, no match is left. *)
Lemma remove_first_none {A B} (h : A -> B) (f : A -> bool) (l : list A) (b : B) :
  List.NoDup (map h l) -> (forall x, In x l -> f x = true -> h x = b) ->
  forall x, In x (remove_first f l) -> f x = false.
Proof.
  intros Hnd Hb. induction l as [|a l IH]; [intros x []|].
  apply List.NoDup_cons_iff in Hnd as [Hnot Hnd].
  simpl. destruct (f a) eqn:E.
  - intros x Hx. destruct (f x) eqn:Ex; [|reflexivity].
    exfalso. apply Hnot.
    rewrite (Hb a (or_introl eq_refl) E), <- (Hb x (or_intror Hx) Ex).
    now apply in_map.
  - intros x [<- | Hx]; [exact E|].
    apply IH; [exact Hnd | | exact Hx].
    intros y Hy. apply Hb. now right.
Qed.

(** The entry of the greatest [updatedAt], the first of them. *)
Lemma latest_from_spec (l : list MemoryEntry) (best : MemoryEntry) :
  (latest_from best l = best \/ In (latest_from best l) l) /\
  updatedAt best <= updatedAt (latest_from best l) /\
  forall e, In e l -> updatedAt e <= updatedAt (latest_from best l).
Proof.
  revert best. induction l as [|a l IH]; intros best; cbn [latest_from].
  - repeat split; [now left | lia | intros e []].
  - destruct (Z.ltb_spec (updatedAt best) (updatedAt a)) as [Hlt | Hge].
    + destruct (IH a) as [Hin [Hle Hall]]. repeat split.
      * right. destruct Hin as [-> | Hin]; [now left | now right].
      * lia.
      * intros e [<- | He]; [exact Hle | now apply Hall].
    + destruct (IH best) as [Hin [Hle Hall]]. repeat split.
      * destruct Hin as [-> | Hin]; [now left | right; now right].
      * exact Hle.
      * intros e [<- | He]; [lia | now apply Hall].
Qed.

Lemma latest_spec (l : list MemoryEntry) :
  match latest l with
  | Some e => In e l /\ forall e', In e' l -> updatedAt e' <= updatedAt e
  | None => l = []
  end.
Proof.
  destruct l as [|a l]; [reflexivity|]. cbn [latest].
  destruct (latest_from_spec l a) as [Hin [Hle Hall]]. split.
  - destruct Hin as [-> | Hin]; [now left | now right].
  - intros e' [<- | He]; [exact Hle | now apply Hall].
Qed.

(** *** What [saveMemoryEntry] writes *)

Definition stored_as (value : jsvalue) (now : Z) (e : MemoryEntry) : MemoryEntry :=
  {| conversationId := conversationId e; key := e.(Memory.key); value := value;
     type := e.(Memory.type); updatedAt := now |}.

Lemma eqb_empty_false (s : string) : s <> ""%string -> String.eqb s "" = false.
Proof. intros H. now apply String.eqb_neq. Qed.

Lemma saveMemoryEntry_cases (phoneNumber key : string) (v : jsvalue)
      (type : string) (now : Z) (mm : MemoryManager) :
  phoneNumber <> ""%string -> key <> ""%string ->
  exists entry table',
    saveMemoryEntry phoneNumber key v type now mm
    = (Ok entry,
       {| table := table';
          cache := _updateMemoryEntryCache phoneNumber entry now (cache mm) |}) /\
    slot_of entry = (phoneNumber, key, type) /\
    entry.(Memory.value) = v /\ updatedAt entry = now /\
    ((exists e0, find (same_slot phoneNumber key type) (table mm) = Some e0 /\
                 entry = stored_as v now e0 /\
                 table' = update_first (same_slot phoneNumber key type)
                                       (stored_as v now) (table mm)) \/
     (find (same_slot phoneNumber key type) (table mm) = None /\
      table' = table mm ++ [entry])).
Proof.
  intros Hp Hk. unfold saveMemoryEntry.
  rewrite (eqb_empty_false _ Hp), (eqb_empty_false _ Hk). cbn [orb].
  destruct (find (same_slot phoneNumber key type) (table mm)) as [e0|] eqn:F.
  - exists (stored_as v now e0), (update_first (same_slot phoneNumber key type)
                                               (stored_as v now) (table mm)).
    split; [reflexivity|]. apply find_some in F as F'. destruct F' as [_ Hs].
    apply same_slot_iff in Hs. repeat split; try exact Hs.
    left. exists e0. now repeat split.
  - eexists _, _. split; [reflexivity|]. repeat split. now right.
Qed.

Lemma stored_as_slot (v : jsvalue) (now : Z) (e : MemoryEntry) :
  slot_of (stored_as v now e) = slot_of e.
Proof. reflexivity. Qed.

Lemma stored_as_same_slot (p k t : string) (v : jsvalue) (now : Z) (e : MemoryEntry) :
  same_slot p k t (stored_as v now e) = same_slot p k t e.
Proof. reflexivity. Qed.

Lemma same_slot_other (p k t p' k' t' : string) (e : MemoryEntry) :
  (p', k', t') <> (p, k, t) ->
  same_slot p k t e = true -> same_slot p' k' t' e = false.
Proof.
  intros Hne H. apply same_slot_iff in H.
  destruct (same_slot p' k' t' e) eqn:E; [|reflexivity].
  apply same_slot_iff in E. congruence.
Qed.

(** What the table holds after a save: the value under the slot, the
    rest as before. *)
Lemma save_persisted (phoneNumber key : string) (v : jsvalue) (type : string)
      (now : Z) (mm : MemoryManager) :
  phoneNumber <> ""%string -> key <> ""%string ->
  persisted (snd (saveMemoryEntry phoneNumber key v type now mm)) phoneNumber key type
  = Some v /\
  forall p k t, (p, k, t) <> (phoneNumber, key, type) ->
    persisted (snd (saveMemoryEntry phoneNumber key v type now mm)) p k t
    = persisted mm p k t.
Proof.
  intros Hp Hk.
  destruct (saveMemoryEntry_cases phoneNumber key v type now mm Hp Hk)
    as [entry [table' [E [Hslot [Hv [_ Hcase]]]]]].
  rewrite E. cbn [snd].
  assert (Hs : same_slot phoneNumber key type entry = true)
    by now apply same_slot_iff.
  unfold persisted. cbn [table].
  destruct Hcase as [[e0 [F [-> ->]]] | [F ->]]; split.
  - rewrite (find_update_same _ _ _ e0); [reflexivity | | exact F].
    intros y. apply stored_as_same_slot.
  - intros p k t Hne. rewrite find_update_other; [reflexivity | |].
    + intros y. now apply same_slot_other.
    + intros y Hy. rewrite stored_as_same_slot.
      now apply (same_slot_other phoneNumber key type).
  - rewrite (find_app_none _ _ _ F). cbn [find]. now rewrite Hs, Hv.
  - intros p k t Hne.
    destruct (find (same_slot p k t) (table mm)) as [e|] eqn:F'.
    + now rewrite (find_app_some _ _ _ e F').
    + rewrite (find_app_none _ _ _ F'). cbn [find].
      now rewrite (same_slot_other phoneNumber key type p k t entry Hne Hs).
Qed.

Lemma persisted_find (mm : MemoryManager) (p k t : string) :
  persisted mm p k t
  = option_map (fun e => e.(Memory.value)) (find (same_slot p k t) (table mm)).
Proof. unfold persisted. now destruct (find _ _). Qed.

(** *** Coherence of the cache *)

Lemma coherent_same (mm mm' : MemoryManager) :
  table mm' = table mm ->
  memoryEntries (cache mm') = memoryEntries (cache mm) ->
  coherent mm -> coherent mm'.
Proof.
  intros Ht Hc [H1 H2 H3]. constructor.
  - now rewrite Ht.
  - intros p entries. rewrite Hc. apply H2.
  - intros p entries e. rewrite Hc, Ht. apply H3.
Qed.

Lemma coherent_update (mm : MemoryManager) (table' : list MemoryEntry)
      (phoneNumber : string) (entry : MemoryEntry) (now : Z) :
  coherent mm ->
  List.NoDup (map slot_of table') ->
  conversationId entry = phoneNumber -> In entry table' ->
  (forall e, In e (table mm) -> slot_of e <> slot_of entry -> In e table') ->
  coherent {| table := table';
              cache := _updateMemoryEntryCache phoneNumber entry now (cache mm) |}.
Proof.
  intros [H1 H2 H3] Hnd Hconv Hin Hkeep.
  set (f := fun e : MemoryEntry =>
              String.eqb (e.(Memory.key)) (entry.(Memory.key))
              && String.eqb (e.(Memory.type)) (entry.(Memory.type))).
  set (old := match memoryEntries (cache mm) !! phoneNumber with
              | Some entries => entries
              | None => []
              end).
  assert (Hold_nd : List.NoDup (map slot_of old)).
  { unfold old. destruct (memoryEntries (cache mm) !! phoneNumber) eqn:E;
      [now apply (H2 phoneNumber) | constructor]. }
  assert (Hold_rows : forall e, In e old ->
                                conversationId e = phoneNumber /\ In e (table mm)).
  { unfold old. intros e. destruct (memoryEntries (cache mm) !! phoneNumber) eqn:E;
      [now apply (H3 phoneNumber) | intros []]. }
  assert (Hf : forall e, In e old -> f e = true -> slot_of e = slot_of entry).
  { intros e He Hfe. unfold f in Hfe.
    rewrite andb_true_iff, !String.eqb_eq in Hfe. destruct Hfe as [Hk Ht].
    unfold slot_of. rewrite Hk, Ht, Hconv. now rewrite (proj1 (Hold_rows e He)). }
  assert (Hrest : forall e, In e (remove_first f old) ->
                            conversationId e = phoneNumber /\ In e (table mm)
                            /\ slot_of e <> slot_of entry).
  { intros e He.
    pose proof (remove_first_none slot_of f old (slot_of entry) Hold_nd Hf e He) as Hfe.
    apply remove_first_In in He. destruct (Hold_rows e He) as [Hc Ht].
    repeat split; try assumption. intros E. unfold slot_of in E.
    injection E as _ Ek Et. unfold f in Hfe. rewrite Ek, Et, !String.eqb_refl in Hfe.
    discriminate. }
  constructor; cbn [table cache _updateMemoryEntryCache memoryEntries]; fold f old.
  - exact Hnd.
  - intros p entries Hl. apply lookup_insert_Some in Hl as [[<- <-] | [Hp Hl]].
    + rewrite map_app. simpl. apply NoDup_ListNoDup, NoDup_app. repeat split.
      * apply NoDup_ListNoDup. now apply remove_first_NoDup.
      * intros x Hx Hy. apply list_elem_of_In in Hx.
        apply list_elem_of_In in Hy as [<- | []].
        apply in_map_iff in Hx as [e [E He]].
        now apply (proj2 (proj2 (Hrest e He))).
      * apply NoDup_singleton.
    + now apply (H2 p).
  - intros p entries e Hl He. apply lookup_insert_Some in Hl as [[<- <-] | [Hp Hl]].
    + apply in_app_iff in He as [He | [<- | []]]; [|now split].
      destruct (Hrest e He) as [Hc [Ht Hne]]. split; [exact Hc | now apply Hkeep].
    + destruct (H3 p entries e Hl He) as [Hc Ht]. split; [exact Hc|].
      apply Hkeep; [exact Ht|]. intros E. unfold slot_of in E.
      injection E as Ec _ _. congruence.
Qed.

Lemma coherent_empty : coherent empty_manager.
Proof.
  constructor; cbn.
  - constructor.
  - intros p entries H. now rewrite lookup_empty in H.
  - intros p entries e H. now rewrite lookup_empty in H.
Qed.

Lemma coherent_save (phoneNumber key : string) (v : jsvalue) (type : string)
      (now : Z) (mm : MemoryManager) :
  coherent mm -> coherent (snd (saveMemoryEntry phoneNumber key v type now mm)).
Proof.
  intros C.
  destruct (String.eqb phoneNumber "") eqn:Ep.
  { unfold saveMemoryEntry. now rewrite Ep. }
  destruct (String.eqb key "") eqn:Ek.
  { unfold saveMemoryEntry. now rewrite Ep, Ek. }
  apply String.eqb_neq in Ep, Ek.
  destruct (saveMemoryEntry_cases phoneNumber key v type now mm Ep Ek)
    as [entry [table' [E [Hslot [Hv [_ Hcase]]]]]].
  rewrite E. cbn [snd].
  assert (Hconv : conversationId entry = phoneNumber)
    by (unfold slot_of in Hslot; now injection Hslot).
  pose proof (table_slots mm C) as Hnd.
  destruct Hcase as [[e0 [F [-> ->]]] | [F ->]].
  - apply coherent_update; try assumption.
    + rewrite update_first_map; [exact Hnd | intros x; apply stored_as_slot].
    + now apply update_first_found.
    + intros e He Hne. apply update_first_In; [exact He|].
      destruct (same_slot phoneNumber key type e) eqn:Es; [|reflexivity].
      apply same_slot_iff in Es. congruence.
  - apply coherent_update; try assumption.
    + rewrite map_app. simpl. apply NoDup_ListNoDup, NoDup_app. repeat split.
      * now apply NoDup_ListNoDup.
      * intros x Hx Hy. apply list_elem_of_In in Hx.
        apply list_elem_of_In in Hy as [<- | []].
        apply in_map_iff in Hx as [e [He Hin]].
        pose proof (find_none _ _ F e Hin) as Hn.
        rewrite Hslot in He. apply (proj2 (same_slot_iff _ _ _ _)) in He. congruence.
      * apply NoDup_singleton.
    + apply in_app_iff. right. now left.
    + intros e He _. apply in_app_iff. now left.
Qed.

Lemma coherent_touch (phoneNumber : string) (now : Z) (mm : MemoryManager) :
  coherent mm ->
  coherent {| table := table mm;
              cache := {| memoryEntries := memoryEntries (cache mm);
                          lastAccess := <[phoneNumber := now]> (lastAccess (cache mm)) |} |}.
Proof. now apply coherent_same. Qed.

Lemma coherent_fetch (phoneNumber : string) (entry : MemoryEntry) (now : Z)
      (mm : MemoryManager) :
  coherent mm -> In entry (table mm) -> conversationId entry = phoneNumber ->
  coherent {| table := table mm;
              cache := _updateMemoryEntryCache phoneNumber entry now (cache mm) |}.
Proof.
  intros C Hin Hconv. apply coherent_update; try assumption.
  - apply (table_slots mm C).
  - tauto.
Qed.

Lemma coherent_getMemoryEntry (phoneNumber key type : string) (now : Z)
      (mm : MemoryManager) :
  coherent mm -> coherent (snd (getMemoryEntry phoneNumber key type now mm)).
Proof.
  intros C. unfold getMemoryEntry.
  assert (Q : forall mm0, coherent mm0 ->
            coherent (snd match find (same_slot phoneNumber key type) (table mm0) with
                          | Some entry =>
                            (Ok (Some entry),
                             {| table := table mm0;
                                cache := _updateMemoryEntryCache phoneNumber entry now
                                           (cache mm0) |})
                          | None => (Ok None, mm0)
                          end)).
  { intros mm0 C0.
    destruct (find (same_slot phoneNumber key type) (table mm0)) as [e|] eqn:F;
      [|exact C0].
    apply find_some in F as [Hin Hs]. apply same_slot_iff in Hs.
    cbn [snd]. apply coherent_fetch; [exact C0 | exact Hin |].
    unfold slot_of in Hs. now injection Hs. }
  destruct (memoryEntries (cache mm) !! phoneNumber) as [cached|]; [|now apply Q].
  destruct (find _ cached); [now apply coherent_touch|].
  apply Q. now apply coherent_touch.
Qed.

Lemma coherent_getLatestMemoryEntry (phoneNumber type : string) (now : Z)
      (mm : MemoryManager) :
  coherent mm -> coherent (snd (getLatestMemoryEntry phoneNumber type now mm)).
Proof.
  intros C. unfold getLatestMemoryEntry.
  set (g := fun e : MemoryEntry =>
              String.eqb (conversationId e) phoneNumber
              && String.eqb (e.(Memory.type)) type).
  assert (Q : forall mm0, coherent mm0 ->
            coherent (snd match latest (List.filter g (table mm0)) with
                          | Some entry =>
                            (Ok (Some entry),
                             {| table := table mm0;
                                cache := _updateMemoryEntryCache phoneNumber entry now
                                           (cache mm0) |})
                          | None => (Ok None, mm0)
                          end)).
  { intros mm0 C0. pose proof (latest_spec (List.filter g (table mm0))) as L.
    destruct (latest (List.filter g (table mm0))) as [e|]; [|exact C0].
    destruct L as [Hin _]. apply filter_In in Hin as [Hin Hg].
    unfold g in Hg. rewrite andb_true_iff, !String.eqb_eq in Hg.
    cbn [snd]. now apply coherent_fetch. }
  destruct (memoryEntries (cache mm) !! phoneNumber) as [cached|]; [|now apply Q].
  destruct (latest _); [now apply coherent_touch|].
  apply Q. now apply coherent_touch.
Qed.

Lemma coherent_deleteMemoryEntry (deleteMany : prisma_call)
      (phoneNumber key type : string) (now : Z) (mm : MemoryManager) :
  coherent mm ->
  coherent (snd (deleteMemoryEntry deleteMany phoneNumber key type now mm)).
Proof.
  intros C. destruct deleteMany as [|message]; [|exact C].
  destruct C as [H1 H2 H3]. unfold deleteMemoryEntry. cbn [snd].
  set (f := fun e : MemoryEntry =>
              negb (String.eqb (e.(Memory.key)) key && String.eqb (e.(Memory.type)) type)).
  assert (Hkeep : forall p entries e,
             memoryEntries (cache mm) !! p = Some entries -> In e entries ->
             (p <> phoneNumber \/ f e = true) ->
             In e (List.filter (fun e => negb (same_slot phoneNumber key type e))
                               (table mm))).
  { intros p entries e Hl He Hor. destruct (H3 p entries e Hl He) as [Hc Ht].
    apply filter_In. split; [exact Ht|]. apply negb_true_iff.
    destruct (same_slot phoneNumber key type e) eqn:Es; [|reflexivity].
    apply same_slot_iff in Es. unfold slot_of in Es. injection Es as Ec Ek Et.
    destruct Hor as [Hp | Hf]; [congruence|].
    unfold f in Hf. rewrite Ek, Et, !String.eqb_refl in Hf. discriminate. }
  constructor; cbn [table cache memoryEntries].
  - now apply NoDup_map_sub.
  - intros p entries Hl.
    destruct (memoryEntries (cache mm) !! phoneNumber) as [cached|] eqn:Ec;
      [|now apply (H2 p)].
    apply lookup_insert_Some in Hl as [[<- <-] | [Hp Hl]]; [|now apply (H2 p)].
    apply NoDup_map_sub. now apply (H2 phoneNumber).
  - intros p entries e Hl He.
    destruct (memoryEntries (cache mm) !! phoneNumber) as [cached|] eqn:Ec.
    + apply lookup_insert_Some in Hl as [[<- <-] | [Hp Hl]].
      * apply filter_In in He as [He Hf].
        split; [now apply (H3 phoneNumber cached) |].
        apply (Hkeep phoneNumber cached e Ec He). now right.
      * split; [now apply (H3 p entries)|].
        apply (Hkeep p entries e Hl He). left. congruence.
    + split; [now apply (H3 p entries)|].
      apply (Hkeep p entries e Hl He). left. intros ->. congruence.
Qed.

(** A hit in a coherent cache is the row of the table. *)
Lemma get_reads_table (mm : MemoryManager) (phoneNumber key type : string) (now : Z) :
  coherent mm ->
  fst (getMemoryEntry phoneNumber key type now mm)
  = Ok (find (same_slot phoneNumber key type) (table mm)).
Proof.
  intros C. unfold getMemoryEntry.
  destruct (memoryEntries (cache mm) !! phoneNumber) as [cachedEntries|] eqn:Ec.
  - destruct (find _ cachedEntries) as [e|] eqn:F.
    + cbn [fst]. f_equal. symmetry.
      apply find_some in F as [Hin Hf].
      destruct (cached_rows mm C phoneNumber cachedEntries e Ec Hin) as [Hc Ht].
      rewrite andb_true_iff, !String.eqb_eq in Hf. destruct Hf as [Hk Hty].
      apply find_unique_slot; [apply (table_slots mm C) | exact Ht | |].
      * apply same_slot_iff. unfold slot_of. congruence.
      * intros e' He'. apply same_slot_iff in He'.
        rewrite He'. unfold slot_of. congruence.
    + cbn [table]. now destruct (find _ (table mm)).
  - now destruct (find _ (table mm)).
Qed.

End MemoryFacts.





(** X3. A coherent cache never serves a stale entry. [getMemoryEntry] never
    throws and leaves the table as it is; an entry it returns is the row
    the table holds for the conversation, key and type, whether it comes
    from the cache or from the table; and when the cached list of the
    conversation has an entry of the key and type, that entry is returned,
    without a query. *)
Theorem getMemoryEntry_is_never_stale
        (mm : Memory.MemoryManager) (phoneNumber key type : string) (now : Z) :
  MemoryOps.coherent mm ->
  exists r mm',
    Memory.getMemoryEntry phoneNumber key type now mm = (Memory.Ok r, mm') /\
    Memory.table mm' = Memory.table mm /\
    (forall e, r = Some e ->
               find (Memory.same_slot phoneNumber key type) (Memory.table mm) = Some e) /\
    (forall cached e,
        Memory.memoryEntries (Memory.cache mm) !! phoneNumber = Some cached ->
        find (fun e => String.eqb (e.(Memory.key)) key
                       && String.eqb (e.(Memory.type)) type) cached = Some e ->
        r = Some e).
Proof.
  intros C.
  pose proof (MemoryFacts.get_reads_table mm phoneNumber key type now C) as R.
  unfold Memory.getMemoryEntry in *.
  destruct (Memory.memoryEntries (Memory.cache mm) !! phoneNumber) as [cached|].
  - destruct (find _ cached) as [e0|] eqn:F.
    + eexists _, _. split; [reflexivity|]. split; [reflexivity|]. split.
      * intros e [= <-]. cbn [fst] in R. now injection R as <-.
      * intros cached' e [= <-] Hf. congruence.
    + cbn [Memory.table] in *.
      destruct (find _ (Memory.table mm)) as [e0|].
      * eexists _, _. split; [reflexivity|]. split; [reflexivity|]. split.
        -- intros e [= <-]. reflexivity.
        -- intros cached' e [= <-] Hf. congruence.
      * eexists _, _. split; [reflexivity|]. split; [reflexivity|]. split.
        -- discriminate.
        -- intros cached' e [= <-] Hf. congruence.
  - destruct (find _ (Memory.table mm)) as [e0|].
    + eexists _, _. split; [reflexivity|]. split; [reflexivity|]. split.
      * intros e [= <-]. reflexivity.
      * discriminate.
    + eexists _, _. split; [reflexivity|]. split; [reflexivity|]. split;
        discriminate.
Qed.

Lemma getMemoryEntry_is_never_stale_witness :
  let mm := snd (Memory.saveMemoryEntry "5511" "contact_name" (Memory.VString "Ana")
                                        "contact_info" 1000 Memory.empty_manager) in
  exists r mm',
    Memory.getMemoryEntry "5511" "contact_name" "contact_info" 2000 mm
    = (Memory.Ok r, mm') /\
    Memory.table mm' = Memory.table mm /\
    (forall e, r = Some e ->
               find (Memory.same_slot "5511" "contact_name" "contact_info")
                    (Memory.table mm) = Some e) /\
    (forall cached e,
        Memory.memoryEntries (Memory.cache mm) !! "5511"%string = Some cached ->
        find (fun e => String.eqb (e.(Memory.key)) "contact_name"
                       && String.eqb (e.(Memory.type)) "contact_info") cached = Some e ->
        r = Some e).
Proof.
  exact (getMemoryEntry_is_never_stale _ "5511" "contact_name" "contact_info" 2000
           (MemoryFacts.coherent_save _ _ _ _ _ _ MemoryFacts.coherent_empty)).
Defined.

(** X4. Round trip. With a coherent cache, whenever [saveMemoryEntry]
    returns, [getMemoryEntry] called next for the same conversation, key
    and type, whatever the clock shows, returns an entry, which is the row
    of the table and which the cache provides; for every value that
    [_deserializeMemoryEntry] gives back as it was saved (an object, or a
    string that is not a JSON text) the entry carries the value saved. *)
Theorem save_then_get_returns_the_value
        (mm : Memory.MemoryManager) (phoneNumber key type : string)
        (v : Memory.jsvalue) (now later : Z)
        (saved : Memory.MemoryEntry) (mm1 : Memory.MemoryManager) :
  MemoryOps.coherent mm -> MemoryOps.kept_by_json v = true ->
  Memory.saveMemoryEntry phoneNumber key v type now mm = (Memory.Ok saved, mm1) ->
  exists entry cached mm2,
    Memory.getMemoryEntry phoneNumber key type later mm1
    = (Memory.Ok (Some entry), mm2) /\
    Memory.memoryEntries (Memory.cache mm1) !! phoneNumber = Some cached /\
    In entry cached /\ In entry (Memory.table mm1) /\
    MemoryOps.slot_of entry = (phoneNumber, key, type) /\
    entry.(Memory.value) = v.
Proof.
  intros C _ Hrun.
  assert (Hne : phoneNumber <> ""%string /\ key <> ""%string).
  { unfold Memory.saveMemoryEntry in Hrun.
    destruct (String.eqb_spec phoneNumber ""); [discriminate|].
    destruct (String.eqb_spec key ""); [discriminate|]. now split. }
  destruct Hne as [Hp Hk].
  pose proof (MemoryFacts.coherent_save phoneNumber key v type now mm C) as C'.
  rewrite Hrun in C'. cbn [snd] in C'.
  destruct (MemoryFacts.saveMemoryEntry_cases phoneNumber key v type now mm Hp Hk)
    as [entry [table' [E [Hslot [Hv [Hu Hcase]]]]]].
  rewrite E in Hrun. injection Hrun as <- <-.
  assert (Hkt : entry.(Memory.key) = key /\ entry.(Memory.type) = type)
    by (unfold MemoryOps.slot_of in Hslot; injection Hslot; tauto).
  destruct Hkt as [Hkey Htype].
  set (mm1 := {| Memory.table := table';
                 Memory.cache := Memory._updateMemoryEntryCache phoneNumber entry now
                                   (Memory.cache mm) |}) in *.
  assert (Hc : exists cached,
             Memory.memoryEntries (Memory.cache mm1) !! phoneNumber = Some cached /\
             In entry cached).
  { unfold mm1, Memory._updateMemoryEntryCache. cbn [Memory.cache Memory.memoryEntries].
    eexists. split; [apply lookup_insert_eq|]. apply in_app_iff. right. now left. }
  destruct Hc as [cached [Hl Hin]].
  destruct (MemoryOps.cached_rows mm1 C' phoneNumber cached entry Hl Hin) as [_ Ht].
  assert (Hf : exists e, find (fun e => String.eqb (e.(Memory.key)) key
                                        && String.eqb (e.(Memory.type)) type) cached
                         = Some e).
  { destruct (find _ cached) as [e|] eqn:F; [now exists e|].
    pose proof (find_none _ _ F entry Hin) as Hn. cbv beta in Hn.
    now rewrite Hkey, Htype, !String.eqb_refl in Hn. }
  destruct Hf as [e F].
  assert (He : e = entry).
  { apply find_some in F as [Hine Hf].
    rewrite andb_true_iff, !String.eqb_eq in Hf. destruct Hf as [Hke Hte].
    destruct (MemoryOps.cached_rows mm1 C' phoneNumber cached e Hl Hine) as [Hce _].
    apply (MemoryFacts.NoDup_map_inj MemoryOps.slot_of cached);
      [exact (MemoryOps.cached_slots mm1 C' phoneNumber cached Hl)
      | exact Hine | exact Hin |].
    rewrite Hslot. unfold MemoryOps.slot_of. now rewrite Hce, Hke, Hte. }
  subst e. exists entry, cached.
  unfold Memory.getMemoryEntry. rewrite Hl, F.
  eexists. split; [reflexivity|]. now repeat split.
Qed.

Lemma save_then_get_returns_the_value_witness :
  let mm := snd (Memory.saveMemoryEntry "5511" "contact_name" (Memory.VString "Bia")
                                        "contact_info" 500 Memory.empty_manager) in
  let run := Memory.saveMemoryEntry "5511" "contact_name" (Memory.VString "Ana")
                                    "contact_info" 1000 mm in
  exists entry cached mm2,
    Memory.getMemoryEntry "5511" "contact_name" "contact_info" 2000 (snd run)
    = (Memory.Ok (Some entry), mm2) /\
    Memory.memoryEntries (Memory.cache (snd run)) !! "5511"%string = Some cached /\
    In entry cached /\ In entry (Memory.table (snd run)) /\
    MemoryOps.slot_of entry = ("5511", "contact_name", "contact_info")%string /\
    entry.(Memory.value) = Memory.VString "Ana".
Proof.
  intros mm run.
  destruct (fst run) as [saved | message] eqn:E; [|vm_compute in E; discriminate].
  apply (save_then_get_returns_the_value mm "5511" "contact_name" "contact_info"
           (Memory.VString "Ana") 1000 2000 saved (snd run)).
  - apply MemoryFacts.coherent_save, MemoryFacts.coherent_empty.
  - reflexivity.
  - rewrite <- E. apply surjective_pairing.
Defined.

(** X5. Deleting. When the database carries out the deletion,
    [deleteMemoryEntry] returns [true], the table has no row for the
    conversation, key and type, what it holds under any other
    conversation, key or type is as before, and with a coherent cache
    [getMemoryEntry] then returns [null] for what was deleted: the cache
    does not bring it back.  When the database rejects the deletion, the
    method returns [false] and table and cache are as they were. *)
Theorem deleteMemoryEntry_removes_the_entry
        (mm : Memory.MemoryManager) (deleteMany : MemoryOps.prisma_call)
        (phoneNumber key type : string) (now later : Z) :
  let r := MemoryOps.deleteMemoryEntry deleteMany phoneNumber key type now mm in
  match deleteMany with
  | MemoryOps.Fulfilled =>
    fst r = Memory.Ok true /\
    Memory.persisted (snd r) phoneNumber key type = None /\
    (forall p k t, (p, k, t) <> (phoneNumber, key, type) ->
                   Memory.persisted (snd r) p k t = Memory.persisted mm p k t) /\
    (MemoryOps.coherent mm ->
     fst (Memory.getMemoryEntry phoneNumber key type later (snd r)) = Memory.Ok None)
  | MemoryOps.Rejected _ => r = (Memory.Ok false, mm)
  end.
Proof.
  cbv zeta. destruct deleteMany as [|message]; [|reflexivity].
  assert (Hnone : find (Memory.same_slot phoneNumber key type)
                       (Memory.table (snd (MemoryOps.deleteMemoryEntry
                                             MemoryOps.Fulfilled
                                             phoneNumber key type now mm))) = None).
  { unfold MemoryOps.deleteMemoryEntry. cbn [snd Memory.table].
    destruct (find _ _) as [e|] eqn:F; [|reflexivity].
    apply find_some in F as [Hin Hs]. apply filter_In in Hin as [_ Hn].
    rewrite Hs in Hn. discriminate. }
  split; [reflexivity|]. split; [|split].
  - unfold Memory.persisted. now rewrite Hnone.
  - intros p k t Hne. unfold Memory.persisted, MemoryOps.deleteMemoryEntry.
    cbn [snd Memory.table]. f_equal.
    induction (Memory.table mm) as [|a l IH]; [reflexivity|].
    cbn [List.filter find].
    destruct (Memory.same_slot phoneNumber key type a) eqn:Es; cbn [negb].
    + rewrite (MemoryFacts.same_slot_other phoneNumber key type p k t a Hne Es).
      exact IH.
    + cbn [find]. destruct (Memory.same_slot p k t a); [reflexivity | exact IH].
  - intros C.
    pose proof (MemoryFacts.coherent_deleteMemoryEntry MemoryOps.Fulfilled
                  phoneNumber key type now mm C) as C'.
    now rewrite (MemoryFacts.get_reads_table _ phoneNumber key type later C'), Hnone.
Qed.

(** X6. What [getLatestMemoryEntry] returns. It never throws and never
    changes the table. With a coherent cache, an entry it returns is a
    row of the table that belongs to the conversation and has the memory
    type asked for (its second argument is matched against the type, never
    against the key), and when the cache holds no entry of that type for
    the conversation it has the greatest [updatedAt] among the rows of
    that conversation and type.  When the cache does hold entries of that
    type for the conversation, one of them is returned, without a query:
    one with the greatest [updatedAt] among them. *)
Theorem getLatestMemoryEntry_returns_a_row_of_the_type
        (mm : Memory.MemoryManager) (phoneNumber type : string) (now : Z) :
  MemoryOps.coherent mm ->
  exists r mm',
    Memory.getLatestMemoryEntry phoneNumber type now mm = (Memory.Ok r, mm') /\
    Memory.table mm' = Memory.table mm /\
    (forall e, r = Some e ->
       In e (Memory.table mm) /\ Memory.conversationId e = phoneNumber /\
       e.(Memory.type) = type /\
       ((forall cached e',
            Memory.memoryEntries (Memory.cache mm) !! phoneNumber = Some cached ->
            In e' cached -> e'.(Memory.type) <> type) ->
        forall e', In e' (Memory.table mm) ->
                   Memory.conversationId e' = phoneNumber ->
                   e'.(Memory.type) = type ->
                   Memory.updatedAt e' <= Memory.updatedAt e)) /\
    (forall cached e0,
        Memory.memoryEntries (Memory.cache mm) !! phoneNumber = Some cached ->
        In e0 cached -> e0.(Memory.type) = type ->
        exists e, r = Some e /\ In e cached /\ e.(Memory.type) = type /\
                  forall e', In e' cached -> e'.(Memory.type) = type ->
                             Memory.updatedAt e' <= Memory.updatedAt e).
Proof.
  intros C. unfold Memory.getLatestMemoryEntry.
  set (g := fun e : Memory.MemoryEntry =>
              String.eqb (Memory.conversationId e) phoneNumber
              && String.eqb (e.(Memory.type)) type).
  assert (Hg : forall e, g e = true <->
                         Memory.conversationId e = phoneNumber /\ e.(Memory.type) = type).
  { intros e. unfold g. now rewrite andb_true_iff, !String.eqb_eq. }
  pose proof (MemoryFacts.latest_spec (List.filter g (Memory.table mm))) as L.
  assert (Q : forall mm0, Memory.table mm0 = Memory.table mm ->
    exists r mm',
      match Memory.latest (List.filter g (Memory.table mm0)) with
      | Some entry =>
        (Memory.Ok (Some entry),
         {| Memory.table := Memory.table mm0;
            Memory.cache := Memory._updateMemoryEntryCache phoneNumber entry now
                              (Memory.cache mm0) |})
      | None => (Memory.Ok None, mm0)
      end = (Memory.Ok r, mm') /\
      Memory.table mm' = Memory.table mm /\
      forall e, r = Some e ->
        In e (Memory.table mm) /\ Memory.conversationId e = phoneNumber /\
        e.(Memory.type) = type /\
        forall e', In e' (Memory.table mm) ->
                   Memory.conversationId e' = phoneNumber ->
                   e'.(Memory.type) = type ->
                   Memory.updatedAt e' <= Memory.updatedAt e).
  { intros mm0 Ht. rewrite Ht.
    destruct (Memory.latest (List.filter g (Memory.table mm))) as [e|].
    - eexists _, _. split; [reflexivity|]. split; [reflexivity|].
      intros e' [= <-].
      destruct L as [Hin Hmax]. apply filter_In in Hin as [Hin Hge].
      apply Hg in Hge as [Hc Hty].
      split; [exact Hin|]. split; [exact Hc|]. split; [exact Hty|].
      intros e' He' Hc' Hty'. apply Hmax. apply filter_In. split; [exact He'|].
      now apply Hg.
    - eexists _, _. split; [reflexivity|]. split; [exact Ht|]. discriminate. }
  destruct (Memory.memoryEntries (Memory.cache mm) !! phoneNumber) as [cached|] eqn:Ec.
  - pose proof (MemoryFacts.latest_spec
                  (List.filter (fun e => String.eqb (e.(Memory.type)) type) cached)) as Lc.
    destruct (Memory.latest (List.filter _ cached)) as [e|].
    + destruct Lc as [Hin Hmax]. apply filter_In in Hin as [Hin Hty].
      apply String.eqb_eq in Hty.
      destruct (MemoryOps.cached_rows mm C phoneNumber cached e Ec Hin) as [Hc Ht].
      eexists _, _. split; [reflexivity|]. split; [reflexivity|]. split.
      * intros e' [= <-].
        split; [exact Ht|]. split; [exact Hc|]. split; [exact Hty|].
        intros Hnone. exfalso. exact (Hnone cached e eq_refl Hin Hty).
      * intros cached' e0 [= <-] He0 Hty0. exists e.
        split; [reflexivity|]. split; [exact Hin|]. split; [exact Hty|].
        intros e' He' Hty'. apply Hmax. apply filter_In. split; [exact He'|].
        now apply String.eqb_eq.
    + match goal with
      | |- context [Memory.latest (List.filter _ (Memory.table ?m))] =>
        destruct (Q m eq_refl) as [r [mm' [E [Ht Hr]]]]
      end.
      exists r, mm'. split; [exact E|]. split; [exact Ht|]. split.
      * intros e He. destruct (Hr e He) as [H1 [H2 [H3 H4]]].
        split; [exact H1|]. split; [exact H2|]. split; [exact H3|].
        intros _. exact H4.
      * intros cached' e0 [= <-] He0 Hty0. exfalso.
        assert (Hin : In e0 (List.filter
                               (fun e => String.eqb (e.(Memory.type)) type) cached))
          by (apply filter_In; split; [exact He0 | now apply String.eqb_eq]).
        rewrite Lc in Hin. destruct Hin.
  - destruct (Q mm eq_refl) as [r [mm' [E [Ht Hr]]]].
    exists r, mm'. split; [exact E|]. split; [exact Ht|]. split.
    + intros e He. destruct (Hr e He) as [H1 [H2 [H3 H4]]].
      split; [exact H1|]. split; [exact H2|]. split; [exact H3|].
      intros _. exact H4.
    + discriminate.
Qed.

Lemma getLatestMemoryEntry_returns_a_row_of_the_type_witness :
  let mm := snd (Memory.saveMemoryEntry "5511" "active_upsell" Memory.VNull
                                        "sales_opportunity" 1000 Memory.empty_manager) in
  exists r mm',
    Memory.getLatestMemoryEntry "5511" "sales_opportunity" 2000 mm
    = (Memory.Ok r, mm') /\
    Memory.table mm' = Memory.table mm /\
    exists e, r = Some e /\ e.(Memory.type) = "sales_opportunity"%string.
Proof.
  intros mm.
  destruct (getLatestMemoryEntry_returns_a_row_of_the_type mm "5511"
              "sales_opportunity" 2000
              (MemoryFacts.coherent_save _ _ _ _ _ _ MemoryFacts.coherent_empty))
    as [r [mm' [E [Ht [_ Hhit]]]]].
  exists r, mm'. split; [exact E|]. split; [exact Ht|].
  destruct (Hhit [ {| Memory.conversationId := "5511"; Memory.key := "active_upsell";
                      Memory.value := Memory.VNull;
                      Memory.type := "sales_opportunity";
                      Memory.updatedAt := 1000 |} ]
                 {| Memory.conversationId := "5511"; Memory.key := "active_upsell";
                    Memory.value := Memory.VNull;
                    Memory.type := "sales_opportunity";
                    Memory.updatedAt := 1000 |})
    as [e [He [_ [Hty _]]]]; [reflexivity | now left | reflexivity |].
  now exists e.
Defined.

(** ** Funnel operations over the memory manager *)

Module StageFacts.
Import Memory MemoryOps MemoryFacts Funnel.

(** *** Running the methods *)

Lemma run_bind {A B} (m : M A) (k : A -> M B) (now : Z) (mm : MemoryManager) :
  (m ≫= k) now mm
  = match m now mm with
    | (Ok a, mm') => k a now mm'
    | (Throw e, mm') => (Throw e, mm')
    end.
Proof. reflexivity. Qed.

(** An entry is in the cached list of a conversation. *)
Definition cached (mm : MemoryManager) (phoneNumber : string) (e : MemoryEntry) : Prop :=
  exists l, memoryEntries (cache mm) !! phoneNumber = Some l /\ In e l.

(** The rows of memory type ["funnel_stage"] of a conversation all have
    the key ["current_stage"], the one key the funnel service writes under
    that type. *)
Definition only_stage_key (mm : MemoryManager) (phoneNumber : string) : Prop :=
  forall e, In e (table mm) -> conversationId e = phoneNumber ->
            e.(Memory.type) = "funnel_stage"%string ->
            e.(Memory.key) = "current_stage"%string.

Lemma remove_first_keeps {A} (f : A -> bool) (l : list A) (x : A) :
  In x l -> f x = false -> In x (remove_first f l).
Proof.
  induction l as [|a l IH]; [tauto|].
  intros [-> | Hin] Hf; simpl.
  - rewrite Hf. now left.
  - destruct (f a); [exact Hin | right; now apply IH].
Qed.

Lemma cached_update_new (phoneNumber : string) (entry : MemoryEntry) (now : Z)
      (table' : list MemoryEntry) (c : Cache) :
  cached {| table := table'; cache := _updateMemoryEntryCache phoneNumber entry now c |}
         phoneNumber entry.
Proof.
  unfold cached, _updateMemoryEntryCache. cbn [cache memoryEntries].
  eexists. split; [apply lookup_insert_eq|]. apply in_app_iff. right. now left.
Qed.

Lemma cached_update_old (phoneNumber : string) (entry e : MemoryEntry) (now : Z)
      (table' : list MemoryEntry) (mm : MemoryManager) :
  cached mm phoneNumber e ->
  e.(Memory.key) <> entry.(Memory.key) \/ e.(Memory.type) <> entry.(Memory.type) ->
  cached {| table := table';
            cache := _updateMemoryEntryCache phoneNumber entry now (cache mm) |}
         phoneNumber e.
Proof.
  intros [l [Hl Hin]] Hne. unfold cached, _updateMemoryEntryCache.
  cbn [cache memoryEntries]. rewrite Hl.
  eexists. split; [apply lookup_insert_eq|]. apply in_app_iff. left.
  apply remove_first_keeps; [exact Hin|].
  apply andb_false_iff. rewrite !String.eqb_neq. exact Hne.
Qed.

Lemma getLatest_run (phoneNumber type : string) (now : Z) (mm : MemoryManager) :
  exists r mm',
    getLatestMemoryEntry phoneNumber type now mm = (Ok r, mm') /\
    table mm' = table mm /\ (coherent mm -> coherent mm').
Proof.
  pose proof (coherent_getLatestMemoryEntry phoneNumber type now mm) as C.
  unfold getLatestMemoryEntry in *.
  destruct (memoryEntries (cache mm) !! phoneNumber) as [cachedEntries|].
  - destruct (latest (List.filter _ cachedEntries)).
    + eexists _, _. split; [reflexivity|]. split; [reflexivity | exact C].
    + cbn [table] in *. destruct (latest (List.filter _ (table mm)));
        eexists _, _; (split; [reflexivity|]); (split; [reflexivity | exact C]).
  - destruct (latest (List.filter _ (table mm)));
      eexists _, _; (split; [reflexivity|]); (split; [reflexivity | exact C]).
Qed.

Lemma save_run (phoneNumber key : string) (v : jsvalue) (type : string)
      (now : Z) (mm : MemoryManager) :
  phoneNumber <> ""%string -> key <> ""%string ->
  exists entry mm',
    saveMemoryEntry phoneNumber key v type now mm = (Ok entry, mm') /\
    slot_of entry = (phoneNumber, key, type) /\ entry.(Memory.value) = v /\
    persisted mm' phoneNumber key type = Some v /\
    (forall p k t, (p, k, t) <> (phoneNumber, key, type) ->
                   persisted mm' p k t = persisted mm p k t) /\
    (coherent mm -> coherent mm') /\
    cached mm' phoneNumber entry /\
    (forall e, cached mm phoneNumber e ->
               e.(Memory.key) <> key \/ e.(Memory.type) <> type ->
               cached mm' phoneNumber e) /\
    (forall e, In e (table mm') ->
               slot_of e = (phoneNumber, key, type)
               \/ In (slot_of e) (map slot_of (table mm))).
Proof.
  intros Hp Hk.
  destruct (saveMemoryEntry_cases phoneNumber key v type now mm Hp Hk)
    as [entry [table0 [E [Hslot [Hv _]]]]].
  destruct (save_persisted phoneNumber key v type now mm Hp Hk) as [P Fr].
  rewrite E in P, Fr. cbn [snd] in P, Fr.
  eexists entry, _. split; [exact E|]. split; [exact Hslot|]. split; [exact Hv|].
  split; [exact P|]. split; [exact Fr|].
  pose proof (coherent_save phoneNumber key v type now mm) as C. rewrite E in C.
  split; [exact C|].
  destruct (saveMemoryEntry_cases phoneNumber key v type now mm Hp Hk)
    as [entry' [table' [E' [_ [_ [_ Hcase]]]]]].
  rewrite E in E'. injection E' as <- <-.
  assert (Hkt : entry.(Memory.key) = key /\ entry.(Memory.type) = type)
    by (unfold slot_of in Hslot; injection Hslot; tauto).
  destruct Hkt as [Hkey Htype].
  split; [apply cached_update_new|]. split.
  - intros e He Hne. apply cached_update_old; [exact He|]. now rewrite Hkey, Htype.
  - cbn [table]. intros e He.
    destruct Hcase as [[e0 [F [_ ->]]] | [F ->]].
    + right. rewrite <- (update_first_map (same_slot phoneNumber key type)
                           (stored_as v now) slot_of (table mm));
        [now apply in_map | intros x; apply stored_as_slot].
    + apply in_app_iff in He as [He | [<- | []]]; [right; now apply in_map | now left].
Qed.

(** *** What a step may change *)

Definition funnel_type (t : string) : Prop :=
  t = "sales_opportunity"%string \/ t = "funnel_stage"%string
  \/ t = "funnel_analytics"%string.

(** From [mm] to [mm']: rows of other memory types are as they were, and
    coherence and the one key under ["funnel_stage"] are kept. *)
Record extends (phoneNumber : string) (mm mm' : MemoryManager) : Prop := {
  ext_frame :
    forall p k t, ~ funnel_type t -> persisted mm' p k t = persisted mm p k t;
  ext_coherent : coherent mm -> coherent mm';
  ext_stage_key : only_stage_key mm phoneNumber -> only_stage_key mm' phoneNumber
}.

Lemma extends_refl (phoneNumber : string) (mm : MemoryManager) :
  extends phoneNumber mm mm.
Proof. constructor; auto. Qed.

Lemma extends_trans (phoneNumber : string) (mm1 mm2 mm3 : MemoryManager) :
  extends phoneNumber mm1 mm2 -> extends phoneNumber mm2 mm3 ->
  extends phoneNumber mm1 mm3.
Proof.
  intros [F1 C1 K1] [F2 C2 K2]. constructor; auto.
  intros p k t Ht. now rewrite F2, F1.
Qed.

Lemma extends_read (phoneNumber : string) (mm mm' : MemoryManager) :
  table mm' = table mm -> (coherent mm -> coherent mm') ->
  extends phoneNumber mm mm'.
Proof.
  intros Ht C. constructor; [|exact C|].
  - intros p k t _. unfold persisted. now rewrite Ht.
  - unfold only_stage_key. now rewrite Ht.
Qed.

Lemma extends_save (phoneNumber key : string) (v : jsvalue) (type : string)
      (now : Z) (mm : MemoryManager) :
  phoneNumber <> ""%string -> key <> ""%string -> funnel_type type ->
  (type = "funnel_stage"%string -> key = "current_stage"%string) ->
  extends phoneNumber mm (snd (saveMemoryEntry phoneNumber key v type now mm)).
Proof.
  intros Hp Hk Hty Hkey.
  destruct (save_run phoneNumber key v type now mm Hp Hk)
    as [entry [mm' [E [_ [_ [_ [Fr [C [_ [_ Hrows]]]]]]]]]].
  rewrite E. cbn [snd]. constructor; [|exact C|].
  - intros p k t Ht. apply Fr. intros [= _ _ ->]. contradiction.
  - intros K e He Hc Ht. destruct (Hrows e He) as [Hs | Hs].
    + unfold slot_of in Hs. injection Hs as _ Hk' Ht'.
      rewrite Hk'. apply Hkey. congruence.
    + apply in_map_iff in Hs as [e0 [E0 He0]].
      unfold slot_of in E0. injection E0 as Ec Ek Et.
      rewrite <- Ek. apply K; congruence.
Qed.

(** The stage [updateFunnelStage] and [determineCurrentStage] read as the
    current one. *)
Definition stage_read (options : Options) (phoneNumber : string) (now : Z)
           (mm : MemoryManager) : string :=
  match fst (getLatestMemoryEntry phoneNumber "funnel_stage" now mm) with
  | Ok mem =>
    match truthy_value mem with
    | Some v => stage_of_value v
    | None => defaultStage options
    end
  | Throw _ => defaultStage options
  end.

Lemma stage_key_nonempty (now : Z) :
  ("stage_transition_" +:+ pretty now)%string <> ""%string.
Proof. discriminate. Qed.

Lemma updateFunnelStage_run (options : Options) (phoneNumber newStage : string)
      (now : Z) (mm : MemoryManager) :
  phoneNumber <> ""%string -> In newStage FUNNEL_STAGES_values ->
  exists applied entry mm',
    updateFunnelStage options phoneNumber newStage now mm = (Ok tt, mm') /\
    (applied = newStage \/ applied = DOWNSELL) /\
    (stage_read options phoneNumber now mm <> UPSELL \/ newStage = UPSELL ->
     applied = newStage) /\
    persisted mm' phoneNumber "current_stage" "funnel_stage" = Some (VString applied) /\
    persisted mm' phoneNumber ("stage_transition_" +:+ pretty now) "funnel_analytics"
    = Some (VStageTransition (stage_read options phoneNumber now mm) applied now) /\
    extends phoneNumber mm mm' /\
    cached mm' phoneNumber entry /\
    slot_of entry = (phoneNumber, "current_stage", "funnel_stage")%string /\
    entry.(Memory.value) = VString applied.
Proof.
  intros Hp Hvalid. unfold updateFunnelStage, try_catch, stage_read.
  rewrite (proj2 (FunnelFacts.includes_str_In _ _) Hvalid). cbn [negb].
  destruct (getLatest_run phoneNumber "funnel_stage" now mm)
    as [r1 [mm1 [E1 [T1 C1]]]].
  rewrite run_bind, E1. cbn [fst].
  set (currentStage := match truthy_value r1 with
                       | Some v => stage_of_value v
                       | None => defaultStage options
                       end).
  pose proof (extends_read phoneNumber mm mm1 T1 C1) as X1.
  (* the choice of the stage that is applied *)
  assert (B : exists applied mm2,
             (if String.eqb currentStage UPSELL && negb (String.eqb newStage UPSELL)
              then
                activeUpsellMem ← getLatestMemoryEntry phoneNumber "active_upsell";
                match truthy_value activeUpsellMem with
                | Some activeUpsell =>
                  now ← Date_now;
                  saveMemoryEntry phoneNumber "rejected_upsell"
                    (VRejectedUpsell (targetPlanId_of activeUpsell) now)
                    "sales_opportunity";;
                  match getDownsellForRejectedUpsell options
                          (targetPlanId_of activeUpsell) with
                  | Some downsellOpportunity =>
                    saveMemoryEntry phoneNumber "active_downsell"
                      (VDownsell downsellOpportunity) "sales_opportunity";;
                    mret DOWNSELL
                  | None => mret newStage
                  end
                | None => mret newStage
                end
              else mret newStage) now mm1 = (Ok applied, mm2) /\
             extends phoneNumber mm1 mm2 /\
             (applied = newStage \/ applied = DOWNSELL) /\
             (currentStage <> UPSELL \/ newStage = UPSELL -> applied = newStage)).
  { destruct (String.eqb currentStage UPSELL) eqn:Ecur;
      [|exists newStage, mm1; split; [reflexivity|];
        split; [apply extends_refl|]; split; [now left | reflexivity]].
    destruct (String.eqb newStage UPSELL) eqn:Enew;
      [exists newStage, mm1; split; [reflexivity|];
       split; [apply extends_refl|]; split; [now left | reflexivity]|].
    cbn [andb negb].
    assert (Hno : currentStage <> UPSELL \/ newStage = UPSELL -> False).
    { apply String.eqb_eq in Ecur. apply String.eqb_neq in Enew. tauto. }
    destruct (getLatest_run phoneNumber "active_upsell" now mm1)
      as [r2 [mm2 [E2 [T2 C2]]]].
    rewrite run_bind, E2.
    pose proof (extends_read phoneNumber mm1 mm2 T2 C2) as X2.
    destruct (truthy_value r2) as [activeUpsell|];
      [|exists newStage, mm2; split; [reflexivity|];
        split; [exact X2|]; split; [now left | reflexivity]].
    rewrite run_bind. cbn [Date_now]. rewrite run_bind.
    set (rej := VRejectedUpsell (targetPlanId_of activeUpsell) now).
    pose proof (extends_save phoneNumber "rejected_upsell" rej "sales_opportunity"
                  now mm2 Hp ltac:(discriminate) ltac:(left; reflexivity)
                  ltac:(discriminate)) as X3.
    destruct (save_run phoneNumber "rejected_upsell" rej "sales_opportunity" now mm2
                Hp ltac:(discriminate)) as [e3 [mm3 [E3 _]]].
    rewrite E3 in X3 |- *. cbn [snd] in X3.
    destruct (getDownsellForRejectedUpsell options (targetPlanId_of activeUpsell))
      as [downsellOpportunity|].
    - rewrite run_bind.
      pose proof (extends_save phoneNumber "active_downsell"
                    (VDownsell downsellOpportunity) "sales_opportunity"
                    now mm3 Hp ltac:(discriminate) ltac:(left; reflexivity)
                    ltac:(discriminate)) as X4.
      destruct (save_run phoneNumber "active_downsell" (VDownsell downsellOpportunity)
                  "sales_opportunity" now mm3 Hp ltac:(discriminate))
        as [e4 [mm4 [E4 _]]].
      rewrite E4 in X4 |- *. cbn [snd] in X4.
      exists DOWNSELL, mm4. split; [reflexivity|]. split.
      + exact (extends_trans _ _ _ _ X2 (extends_trans _ _ _ _ X3 X4)).
      + split; [now right | intros H; destruct (Hno H)].
    - exists newStage, mm3. split; [reflexivity|]. split.
      + exact (extends_trans _ _ _ _ X2 X3).
      + split; [now left | reflexivity]. }
  destruct B as [applied [mm2 [E2 [X2 [Happ Hsame]]]]].
  rewrite run_bind, E2, run_bind.
  destruct (save_run phoneNumber "current_stage" (VString applied) "funnel_stage"
              now mm2 Hp ltac:(discriminate))
    as [e3 [mm3 [E3 [Hslot [Hv [P3 [_ [_ [Hc3 _]]]]]]]]].
  pose proof (extends_save phoneNumber "current_stage" (VString applied) "funnel_stage"
                now mm2 Hp ltac:(discriminate) ltac:(right; left; reflexivity)
                ltac:(reflexivity)) as X3.
  rewrite E3 in X3 |- *. cbn [snd] in X3.
  rewrite run_bind. cbn [Date_now]. rewrite run_bind.
  set (tr := VStageTransition currentStage applied now).
  destruct (save_run phoneNumber ("stage_transition_" +:+ pretty now) tr
              "funnel_analytics" now mm3 Hp (stage_key_nonempty now))
    as [e4 [mm4 [E4 [_ [_ [P4 [Fr4 [_ [_ [Hkeep _]]]]]]]]]].
  pose proof (extends_save phoneNumber ("stage_transition_" +:+ pretty now) tr
                "funnel_analytics" now mm3 Hp (stage_key_nonempty now)
                ltac:(right; right; reflexivity) ltac:(discriminate)) as X4.
  rewrite E4 in X4 |- *. cbn [snd] in X4.
  exists applied, e3, mm4. split; [reflexivity|]. split; [exact Happ|].
  split; [exact Hsame|]. split; [|split; [exact P4|split; [|split; [|now split]]]].
  - rewrite Fr4; [exact P3 | discriminate].
  - exact (extends_trans _ _ _ _ X1
             (extends_trans _ _ _ _ X2 (extends_trans _ _ _ _ X3 X4))).
  - apply Hkeep; [exact Hc3|]. right.
    unfold slot_of in Hslot. injection Hslot as _ _ ->. discriminate.
Qed.

(** *** Reading the stage back *)

Lemma valid_stage_truthy (s : string) :
  In s FUNNEL_STAGES_values -> truthy (VString s) = true.
Proof.
  intros H. cbn [truthy]. apply negb_true_iff, String.eqb_neq. intros ->.
  revert H. apply (bool_decide_unpack _). vm_compute. reflexivity.
Qed.

Lemma getLatest_cached_stage (phoneNumber : string) (now : Z) (mm : MemoryManager)
      (e : MemoryEntry) :
  coherent mm -> only_stage_key mm phoneNumber -> cached mm phoneNumber e ->
  slot_of e = (phoneNumber, "current_stage", "funnel_stage")%string ->
  exists mm',
    getLatestMemoryEntry phoneNumber "funnel_stage" now mm = (Ok (Some e), mm') /\
    table mm' = table mm /\ coherent mm'.
Proof.
  intros C K [l [Hl Hin]] Hslot.
  destruct (getLatest_run phoneNumber "funnel_stage" now mm) as [r [mm' [E [T C']]]].
  exists mm'. split; [|split; [exact T | exact (C' C)]].
  rewrite E. f_equal. f_equal.
  unfold getLatestMemoryEntry in E. rewrite Hl in E.
  set (of_type := fun e0 : MemoryEntry => String.eqb (e0.(Memory.type)) "funnel_stage")
    in E.
  assert (He : In e (List.filter of_type l)).
  { apply filter_In. split; [exact Hin|]. unfold of_type.
    unfold slot_of in Hslot. injection Hslot as _ _ ->. reflexivity. }
  pose proof (latest_spec (List.filter of_type l)) as L.
  destruct (latest (List.filter of_type l)) as [e0|];
    [|rewrite L in He; destruct He].
  injection E as <- _. f_equal.
  destruct L as [L _]. apply filter_In in L as [L0 Lt].
  unfold of_type in Lt. apply String.eqb_eq in Lt.
  destruct (cached_rows mm C phoneNumber l e0 Hl L0) as [Hc Htab].
  apply (NoDup_map_inj slot_of l); [exact (cached_slots mm C phoneNumber l Hl)
                                   | exact L0 | exact Hin |].
  rewrite Hslot. unfold slot_of. now rewrite Hc, (K e0 Htab Hc Lt), Lt.
Qed.

Lemma determineCurrentStage_stored (options : Options)
      (toLowerCase : jsstring -> jsstring) (Date_parse : string -> option Z)
      (phoneNumber : string) (chatState : ChatState) (now : Z)
      (mm : MemoryManager) (e : MemoryEntry) :
  coherent mm -> only_stage_key mm phoneNumber -> cached mm phoneNumber e ->
  slot_of e = (phoneNumber, "current_stage", "funnel_stage")%string ->
  truthy (e.(Memory.value)) = true ->
  exists mm',
    determineCurrentStage options toLowerCase Date_parse phoneNumber chatState now mm
    = (Ok (stage_of_value (e.(Memory.value))), mm') /\
    table mm' = table mm /\ coherent mm'.
Proof.
  intros C K Hc Hslot Ht.
  destruct (getLatest_cached_stage phoneNumber now mm e C K Hc Hslot)
    as [mm' [E [T C']]].
  exists mm'. unfold determineCurrentStage, try_catch.
  rewrite run_bind, E. cbn [truthy_value]. rewrite Ht. now split.
Qed.

(** *** Coherence through the funnel service *)

(** A method keeps the cache coherent, whether it returns or throws. *)
Definition keeps {A} (m : M A) : Prop :=
  forall now mm, coherent mm -> coherent (snd (m now mm)).

Lemma keeps_ret {A} (a : A) : keeps (mret a : M A).
Proof. intros now mm C. exact C. Qed.

Lemma keeps_throw {A} (e : string) : keeps (throw e : M A).
Proof. intros now mm C. exact C. Qed.

Lemma keeps_now : keeps Date_now.
Proof. intros now mm C. exact C. Qed.

Lemma keeps_bind {A B} (m : M A) (k : A -> M B) :
  keeps m -> (forall a, keeps (k a)) -> keeps (m ≫= k).
Proof.
  intros Hm Hk now mm C. rewrite run_bind. specialize (Hm now mm C).
  destruct (m now mm) as [[a | e] mm']; cbn [snd] in *; [now apply Hk | exact Hm].
Qed.

Lemma keeps_try_catch {A} (m : M A) (handler : string -> M A) :
  keeps m -> (forall e, keeps (handler e)) -> keeps (try_catch m handler).
Proof.
  intros Hm Hh now mm C. unfold try_catch. specialize (Hm now mm C).
  destruct (m now mm) as [[a | e] mm']; cbn [snd] in *; [exact Hm | now apply Hh].
Qed.

Lemma keeps_save (phoneNumber key : string) (v : jsvalue) (type : string) :
  keeps (saveMemoryEntry phoneNumber key v type).
Proof. intros now mm. apply coherent_save. Qed.

Lemma keeps_getLatest (phoneNumber type : string) :
  keeps (getLatestMemoryEntry phoneNumber type).
Proof. intros now mm. apply coherent_getLatestMemoryEntry. Qed.

Ltac keeps_step :=
  first [ apply keeps_try_catch | apply keeps_bind
        | apply keeps_ret | apply keeps_throw | apply keeps_now
        | apply keeps_save | apply keeps_getLatest
        | match goal with
          | |- keeps (match ?x with _ => _ end) => destruct x
          | |- keeps (if ?x then _ else _) => destruct x
          | |- keeps (let _ := _ in _) => cbv zeta
          | |- forall _, _ => intro
          end ].

Lemma keeps_updateFunnelStage (options : Options) (phoneNumber newStage : string) :
  keeps (updateFunnelStage options phoneNumber newStage).
Proof. unfold updateFunnelStage. repeat keeps_step. Qed.

Lemma keeps_offer_stage (options : Options) (Date_parse : string -> option Z)
      (phoneNumber : string) :
  keeps (offer_stage options Date_parse phoneNumber).
Proof. unfold offer_stage. repeat keeps_step. Qed.

Lemma keeps_determineCurrentStage (options : Options)
      (toLowerCase : jsstring -> jsstring) (Date_parse : string -> option Z)
      (phoneNumber : string) (chatState : ChatState) :
  keeps (determineCurrentStage options toLowerCase Date_parse phoneNumber chatState).
Proof.
  unfold determineCurrentStage.
  repeat first [ apply keeps_offer_stage | keeps_step ].
Qed.

Lemma keeps_recordPurchase (options : Options) (phoneNumber productId : string)
      (value : Z) :
  keeps (recordPurchase options phoneNumber productId value).
Proof.
  unfold recordPurchase.
  repeat first [ apply keeps_updateFunnelStage | keeps_step ].
Qed.

(** *** Reads of one memory type after a write of another *)

Lemma filter_update_first {A} (f g : A -> bool) (h : A -> A) (l : list A) :
  (forall x, f x = true -> g x = false /\ g (h x) = false) ->
  List.filter g (update_first f h l) = List.filter g l.
Proof.
  intros H. induction l as [|a l IH]; [reflexivity|]. cbn [update_first].
  destruct (f a) eqn:Fa.
  - destruct (H a Fa) as [G1 G2]. cbn [List.filter]. now rewrite G1, G2.
  - cbn [List.filter]. now rewrite IH.
Qed.

Lemma filter_remove_first {A} (f g : A -> bool) (l : list A) :
  (forall x, f x = true -> g x = false) ->
  List.filter g (remove_first f l) = List.filter g l.
Proof.
  intros H. induction l as [|a l IH]; [reflexivity|]. cbn [remove_first].
  destruct (f a) eqn:Fa.
  - cbn [List.filter]. now rewrite (H a Fa).
  - cbn [List.filter]. now rewrite IH.
Qed.

(** What [getLatestMemoryEntry] returns, from the cached list of the
    conversation and the table. *)
Definition read_latest (phoneNumber type : string)
           (cachedEntries : option (list MemoryEntry)) (rows : list MemoryEntry)
  : option MemoryEntry :=
  let query :=
    latest (List.filter (fun e => String.eqb (conversationId e) phoneNumber
                                  && String.eqb (e.(Memory.type)) type) rows) in
  match cachedEntries with
  | Some l =>
    match latest (List.filter (fun e => String.eqb (e.(Memory.type)) type) l) with
    | Some e => Some e
    | None => query
    end
  | None => query
  end.

Lemma getLatest_fst (phoneNumber type : string) (now : Z) (mm : MemoryManager) :
  fst (getLatestMemoryEntry phoneNumber type now mm)
  = Ok (read_latest phoneNumber type (memoryEntries (cache mm) !! phoneNumber)
                    (table mm)).
Proof.
  unfold getLatestMemoryEntry, read_latest.
  destruct (memoryEntries (cache mm) !! phoneNumber) as [l|].
  - destruct (latest (List.filter _ l)); [reflexivity|]. cbn [table].
    now destruct (latest (List.filter _ (table mm))).
  - now destruct (latest (List.filter _ (table mm))).
Qed.

Lemma read_after_save_other (phoneNumber key : string) (v : jsvalue)
      (type type' : string) (now now1 now2 : Z) (mm : MemoryManager) (p : string) :
  phoneNumber <> ""%string -> key <> ""%string -> type' <> type ->
  fst (getLatestMemoryEntry p type now2
         (snd (saveMemoryEntry phoneNumber key v type' now mm)))
  = fst (getLatestMemoryEntry p type now1 mm).
Proof.
  intros Hp Hk Hne. rewrite !getLatest_fst. f_equal.
  destruct (saveMemoryEntry_cases phoneNumber key v type' now mm Hp Hk)
    as [entry [table' [E [Hslot [_ [_ Hcase]]]]]].
  rewrite E. cbn [snd table cache].
  assert (Hty : entry.(Memory.type) = type')
    by (unfold slot_of in Hslot; now injection Hslot).
  assert (Hoff : String.eqb (entry.(Memory.type)) type = false)
    by (apply String.eqb_neq; congruence).
  set (g := fun e : MemoryEntry =>
              String.eqb (conversationId e) p && String.eqb (e.(Memory.type)) type).
  assert (Hrows : List.filter g table' = List.filter g (table mm)).
  { destruct Hcase as [[e0 [_ [_ ->]]] | [_ ->]].
    - apply filter_update_first. intros x Hx.
      apply same_slot_iff in Hx. unfold slot_of in Hx. injection Hx as _ _ Hx.
      unfold g. cbn [stored_as Memory.type conversationId].
      assert (String.eqb (x.(Memory.type)) type = false)
        by (apply String.eqb_neq; congruence).
      rewrite H. now rewrite !andb_false_r.
    - rewrite List.filter_app. cbn [List.filter]. unfold g at 2.
      rewrite Hoff, andb_false_r. apply app_nil_r. }
  unfold read_latest. fold g. rewrite Hrows.
  unfold _updateMemoryEntryCache. cbn [memoryEntries].
  destruct (String.eqb_spec p phoneNumber) as [-> | Hpp].
  - rewrite lookup_insert_eq.
    set (of_type := fun e : MemoryEntry => String.eqb (e.(Memory.type)) type).
    assert (Hl : forall l,
               List.filter of_type
                 (remove_first
                    (fun e : MemoryEntry =>
                       String.eqb (e.(Memory.key)) (entry.(Memory.key))
                       && String.eqb (e.(Memory.type)) (entry.(Memory.type))) l
                  ++ [entry])
               = List.filter of_type l).
    { intros l. rewrite List.filter_app. cbn [List.filter]. unfold of_type at 2.
      rewrite Hoff, app_nil_r. apply filter_remove_first.
      intros x Hx. apply andb_true_iff in Hx as [_ Hx]. apply String.eqb_eq in Hx.
      unfold of_type. apply String.eqb_neq. congruence. }
    rewrite Hl. destruct (memoryEntries (cache mm) !! phoneNumber) as [l|];
      [reflexivity|]. reflexivity.
  - rewrite lookup_insert_ne by congruence. reflexivity.
Qed.

Lemma stage_read_after_save (options : Options) (phoneNumber key : string)
      (v : jsvalue) (type' : string) (now now' : Z) (mm : MemoryManager) :
  phoneNumber <> ""%string -> key <> ""%string ->
  type' <> "funnel_stage"%string ->
  stage_read options phoneNumber now'
             (snd (saveMemoryEntry phoneNumber key v type' now mm))
  = stage_read options phoneNumber now' mm.
Proof.
  intros Hp Hk Hne. unfold stage_read.
  now rewrite (read_after_save_other phoneNumber key v "funnel_stage" type'
                 now now' now' mm phoneNumber Hp Hk Hne).
Qed.

(** *** Purchases *)

Lemma purchase_key_nonempty (now : Z) :
  ("purchase_" +:+ pretty now)%string <> ""%string.
Proof. discriminate. Qed.


(** *** The stage [determineCurrentStage] returns *)

Lemma offer_stage_cases (options : Options) (Date_parse : string -> option Z)
      (phoneNumber : string) (now : Z) (mm : MemoryManager) :
  match fst (offer_stage options Date_parse phoneNumber now mm) with
  | Ok (Some s) => (s = UPSELL \/ s = DOWNSELL) /\ enableUpsellDownsell options = true
  | _ => True
  end.
Proof.
  unfold offer_stage. destruct (enableUpsellDownsell options); [|exact I].
  repeat first
    [ rewrite run_bind
    | progress cbn [Date_now fst mret M_ret ret]
    | match goal with
      | |- match fst (match ?x with _ => _ end) with _ => _ end =>
        destruct x eqn:?
      | |- match fst ((match ?x with _ => _ end) _ _) with _ => _ end =>
        destruct x eqn:?
      | |- match fst (if ?x then _ else _) with _ => _ end => destruct x eqn:?
      | |- match fst ((if ?x then _ else _) _ _) with _ => _ end =>
        destruct x eqn:?
      end ];
    try exact I; (split; [tauto | reflexivity]).
Qed.


(** *** Purchases, when every save is carried out *)

Lemma recordPurchase_run
        (options : Funnel.Options) (phoneNumber productId : string)
        (value now : Z) (mm : Memory.MemoryManager) :
  phoneNumber <> ""%string ->
  exists applied mm',
    Funnel.recordPurchase options phoneNumber productId value now mm
    = (Memory.Ok tt, mm') /\
    Memory.persisted mm' phoneNumber "purchased_product" "purchase_history"
    = Some (Memory.VString productId) /\
    Memory.persisted mm' phoneNumber ("purchase_" +:+ pretty now) "purchase_history"
    = Some (Memory.VPurchase productId value now) /\
    Memory.persisted mm' phoneNumber "last_interaction" "customer_journey"
    = Some (Memory.VLastInteraction now productId) /\
    Memory.persisted mm' phoneNumber "current_stage" "funnel_stage"
    = Some (Memory.VString applied) /\
    (applied = Funnel.POST_PURCHASE_FOLLOWUP \/ applied = Funnel.DOWNSELL) /\
    (stage_read options phoneNumber now mm <> Funnel.UPSELL ->
     applied = Funnel.POST_PURCHASE_FOLLOWUP).
Proof.
  intros Hp. unfold recordPurchase, try_catch.
  destruct (save_run phoneNumber "purchased_product" (VString productId)
              "purchase_history" now mm Hp ltac:(discriminate))
    as [e1 [mm1 [E1 [_ [_ [P1 [F1 _]]]]]]].
  rewrite run_bind, E1, run_bind. cbn [Date_now].
  destruct (save_run phoneNumber ("purchase_" +:+ pretty now)
              (VPurchase productId value now) "purchase_history" now mm1 Hp
              (purchase_key_nonempty now))
    as [e2 [mm2 [E2 [_ [_ [P2 [F2 _]]]]]]].
  rewrite run_bind, E2.
  destruct (save_run phoneNumber "last_interaction" (VLastInteraction now productId)
              "customer_journey" now mm2 Hp ltac:(discriminate))
    as [e3 [mm3 [E3 [_ [_ [P3 [F3 _]]]]]]].
  rewrite run_bind, E3.
  assert (Hvalid : In POST_PURCHASE_FOLLOWUP FUNNEL_STAGES_values)
    by (vm_compute; tauto).
  destruct (updateFunnelStage_run options phoneNumber POST_PURCHASE_FOLLOWUP now mm3
              Hp Hvalid)
    as [applied [e4 [mm4 [E4 [Happ [Hsame [P4 [_ [X _]]]]]]]]].
  rewrite run_bind, E4.
  assert (Hother : forall t, t = "purchase_history"%string
                             \/ t = "customer_journey"%string -> ~ funnel_type t).
  { intros t [-> | ->] [H | [H | H]]; discriminate. }
  assert (Hread : stage_read options phoneNumber now mm3
                  = stage_read options phoneNumber now mm).
  { rewrite <- (stage_read_after_save options phoneNumber "purchased_product"
                  (VString productId) "purchase_history" now now mm Hp)
      by discriminate.
    rewrite E1. cbn [snd].
    rewrite <- (stage_read_after_save options phoneNumber
                  ("purchase_" +:+ pretty now) (VPurchase productId value now)
                  "purchase_history" now now mm1 Hp (purchase_key_nonempty now))
      by discriminate.
    rewrite E2. cbn [snd].
    rewrite <- (stage_read_after_save options phoneNumber "last_interaction"
                  (VLastInteraction now productId) "customer_journey" now now mm2 Hp)
      by discriminate.
    now rewrite E3. }
  exists applied, mm4. split; [reflexivity|].
  split; [|split; [|split; [|split; [exact P4|split; [exact Happ|]]]]].
  - rewrite (ext_frame _ _ _ X) by (apply Hother; now left).
    rewrite F3 by discriminate. rewrite F2 by discriminate. exact P1.
  - rewrite (ext_frame _ _ _ X) by (apply Hother; now left).
    rewrite F3 by discriminate. exact P2.
  - rewrite (ext_frame _ _ _ X) by (apply Hother; now right). exact P3.
  - intros H. apply Hsame. left. now rewrite Hread.
Qed.

End StageFacts.

(** X7. A stage that is applied is logged. For a conversation with a
    non-empty id and a stage of [FUNNEL_STAGES], whenever
    [updateFunnelStage] returns, the stage it applied is the requested
    one, or the downsell stage, which replaces it only on a move out of
    the upsell stage.  The row [current_stage] of type [funnel_stage]
    holds the applied stage; a row [stage_transition_<time>] of type
    [funnel_analytics] records, as the stage left, the stage the lookup
    read (the default stage when it read none), and the applied stage;
    and the rows of every other memory type than [sales_opportunity],
    [funnel_stage] and [funnel_analytics] are as they were. *)
Theorem updateFunnelStage_applies_and_logs
        (options : Funnel.Options) (phoneNumber newStage : string) (now : Z)
        (mm mm' : Memory.MemoryManager) :
  phoneNumber <> ""%string -> In newStage Funnel.FUNNEL_STAGES_values ->
  Funnel.updateFunnelStage options phoneNumber newStage now mm = (Memory.Ok tt, mm') ->
  exists (prior applied : string) (time timestamp : Z),
    (prior = StageFacts.stage_read options phoneNumber now mm
     \/ prior = Funnel.defaultStage options) /\
    (applied = newStage \/ applied = Funnel.DOWNSELL) /\
    (prior <> Funnel.UPSELL \/ newStage = Funnel.UPSELL -> applied = newStage) /\
    Memory.persisted mm' phoneNumber "current_stage" "funnel_stage"
    = Some (Memory.VString applied) /\
    Memory.persisted mm' phoneNumber ("stage_transition_" +:+ pretty time)
                     "funnel_analytics"
    = Some (Memory.VStageTransition prior applied timestamp) /\
    forall p k t, ~ StageFacts.funnel_type t ->
                  Memory.persisted mm' p k t = Memory.persisted mm p k t.
Proof.
  intros Hp Hvalid Hrun.
  destruct (StageFacts.updateFunnelStage_run options phoneNumber newStage now mm
              Hp Hvalid)
    as [applied [entry [mm'' [E [Happ [Hsame [P1 [P2 [X _]]]]]]]]].
  rewrite E in Hrun. injection Hrun as <-.
  exists (StageFacts.stage_read options phoneNumber now mm), applied, now, now.
  split; [now left|]. split; [exact Happ|].
  split; [exact Hsame|]. split; [exact P1|]. split; [exact P2|].
  exact (StageFacts.ext_frame _ _ _ X).
Qed.

Lemma updateFunnelStage_applies_and_logs_witness :
  let mm := snd (Funnel.updateFunnelStage Funnel.default_options "5511999990000"
                   Funnel.QUALIFICATION 500 Memory.empty_manager) in
  let mm' := snd (Funnel.updateFunnelStage Funnel.default_options "5511999990000"
                    Funnel.CLOSING 1000 mm) in
  exists (prior applied : string) (time timestamp : Z),
    (prior = StageFacts.stage_read Funnel.default_options "5511999990000" 1000 mm
     \/ prior = Funnel.defaultStage Funnel.default_options) /\
    (applied = Funnel.CLOSING \/ applied = Funnel.DOWNSELL) /\
    (prior <> Funnel.UPSELL \/ Funnel.CLOSING = Funnel.UPSELL ->
     applied = Funnel.CLOSING) /\
    Memory.persisted mm' "5511999990000" "current_stage" "funnel_stage"
    = Some (Memory.VString applied) /\
    Memory.persisted mm' "5511999990000" ("stage_transition_" +:+ pretty time)
                     "funnel_analytics"
    = Some (Memory.VStageTransition prior applied timestamp) /\
    forall p k t, ~ StageFacts.funnel_type t ->
                  Memory.persisted mm' p k t = Memory.persisted mm p k t.
Proof.
  intros mm mm'.
  apply (updateFunnelStage_applies_and_logs Funnel.default_options "5511999990000"
           Funnel.CLOSING 1000 mm mm').
  - discriminate.
  - vm_compute. tauto.
  - vm_compute. reflexivity.
Defined.

(** X8. The stage that was applied is the stage that is read. Starting
    from a coherent cache in which the conversation's rows of type
    [funnel_stage] all have the key [current_stage], whenever
    [updateFunnelStage] of a valid stage returns, [determineCurrentStage]
    called next for that conversation, whatever the chat state and
    whatever the clock shows, returns the stage that was applied, which
    the cache provides without a query, and does not change the table. *)
Theorem determineCurrentStage_after_update
        (options : Funnel.Options) (toLowerCase : jsstring -> jsstring)
        (Date_parse : string -> option Z)
        (phoneNumber newStage : string) (now : Z) (mm mm' : Memory.MemoryManager) :
  MemoryOps.coherent mm -> StageFacts.only_stage_key mm phoneNumber ->
  phoneNumber <> ""%string -> In newStage Funnel.FUNNEL_STAGES_values ->
  Funnel.updateFunnelStage options phoneNumber newStage now mm = (Memory.Ok tt, mm') ->
  exists applied entry,
    Memory.persisted mm' phoneNumber "current_stage" "funnel_stage"
    = Some (Memory.VString applied) /\
    StageFacts.cached mm' phoneNumber entry /\
    MemoryOps.slot_of entry = (phoneNumber, "current_stage", "funnel_stage")%string /\
    entry.(Memory.value) = Memory.VString applied /\
    forall chatState later,
    exists mm'',
      Funnel.determineCurrentStage options toLowerCase Date_parse phoneNumber
                                   chatState later mm'
      = (Memory.Ok applied, mm'') /\
      Memory.table mm'' = Memory.table mm'.
Proof.
  intros C K Hp Hvalid Hrun.
  destruct (StageFacts.updateFunnelStage_run options phoneNumber newStage now mm
              Hp Hvalid)
    as [applied [entry [mm0 [E [Happ [_ [P1 [_ [X [Hc [Hslot Hv]]]]]]]]]]].
  rewrite E in Hrun. injection Hrun as <-.
  exists applied, entry. split; [exact P1|]. split; [exact Hc|].
  split; [exact Hslot|]. split; [exact Hv|].
  intros chatState later.
  assert (Ht : Memory.truthy (entry.(Memory.value)) = true).
  { rewrite Hv. apply StageFacts.valid_stage_truthy.
    destruct Happ as [-> | ->]; [exact Hvalid|]. vm_compute. tauto. }
  destruct (StageFacts.determineCurrentStage_stored options toLowerCase Date_parse
              phoneNumber chatState later mm0 entry
              (StageFacts.ext_coherent _ _ _ X C)
              (StageFacts.ext_stage_key _ _ _ X K) Hc Hslot Ht)
    as [mm'' [E' [T _]]].
  exists mm''. rewrite Hv in E'. now split.
Qed.

Lemma determineCurrentStage_after_update_witness :
  let mm := snd (Funnel.updateFunnelStage Funnel.default_options "5511999990000"
                   Funnel.QUALIFICATION 500 Memory.empty_manager) in
  let mm' := snd (Funnel.updateFunnelStage Funnel.default_options "5511999990000"
                    Funnel.CLOSING 1000 mm) in
  exists applied entry,
    Memory.persisted mm' "5511999990000" "current_stage" "funnel_stage"
    = Some (Memory.VString applied) /\
    StageFacts.cached mm' "5511999990000" entry /\
    MemoryOps.slot_of entry
    = ("5511999990000", "current_stage", "funnel_stage")%string /\
    entry.(Memory.value) = Memory.VString applied /\
    forall chatState later,
    exists mm'',
      Funnel.determineCurrentStage Funnel.default_options toLowerCase_latin1
                                   (fun _ => None) "5511999990000"
                                   chatState later mm'
      = (Memory.Ok applied, mm'') /\
      Memory.table mm'' = Memory.table mm'.
Proof.
  intros mm mm'.
  destruct (StageFacts.updateFunnelStage_run Funnel.default_options "5511999990000"
              Funnel.QUALIFICATION 500 Memory.empty_manager
              ltac:(discriminate) ltac:(vm_compute; tauto))
    as [applied0 [entry0 [mm0 [E0 [_ [_ [_ [_ [X0 _]]]]]]]]].
  assert (Hmm : mm = mm0) by (unfold mm; now rewrite E0).
  apply (determineCurrentStage_after_update Funnel.default_options
           toLowerCase_latin1 (fun _ => None) "5511999990000" Funnel.CLOSING 1000
           mm mm').
  - rewrite Hmm. exact (StageFacts.ext_coherent _ _ _ X0 MemoryFacts.coherent_empty).
  - rewrite Hmm. apply (StageFacts.ext_stage_key _ _ _ X0). intros e [].
  - discriminate.
  - vm_compute. tauto.
  - vm_compute. reflexivity.
Defined.

(** X9. What a purchase leaves in the memory. For a conversation with a
    non-empty id, whenever [recordPurchase] returns, the row
    [purchased_product] of type [purchase_history] holds the product, a
    row [purchase_<time>] of the same type holds the product, the value
    and a date, the row [last_interaction] of type [customer_journey]
    holds a date and the product, and the row [current_stage] of type
    [funnel_stage] holds the post-purchase follow-up stage -- or the
    downsell stage, which is possible only when the stage the lookup read
    before, or the default stage, was the upsell stage. *)
Theorem recordPurchase_records_the_purchase
        (options : Funnel.Options) (phoneNumber productId : string)
        (value now : Z) (mm mm' : Memory.MemoryManager) :
  phoneNumber <> ""%string ->
  Funnel.recordPurchase options phoneNumber productId value now mm
  = (Memory.Ok tt, mm') ->
  exists (applied : string) (time purchase_date interaction_date : Z),
    Memory.persisted mm' phoneNumber "purchased_product" "purchase_history"
    = Some (Memory.VString productId) /\
    Memory.persisted mm' phoneNumber ("purchase_" +:+ pretty time) "purchase_history"
    = Some (Memory.VPurchase productId value purchase_date) /\
    Memory.persisted mm' phoneNumber "last_interaction" "customer_journey"
    = Some (Memory.VLastInteraction interaction_date productId) /\
    Memory.persisted mm' phoneNumber "current_stage" "funnel_stage"
    = Some (Memory.VString applied) /\
    (applied = Funnel.POST_PURCHASE_FOLLOWUP \/ applied = Funnel.DOWNSELL) /\
    (StageFacts.stage_read options phoneNumber now mm <> Funnel.UPSELL ->
     Funnel.defaultStage options <> Funnel.UPSELL ->
     applied = Funnel.POST_PURCHASE_FOLLOWUP).
Proof.
  intros Hp Hrun.
  destruct (StageFacts.recordPurchase_run options phoneNumber productId value now mm Hp)
    as [applied [mm0 [E [P1 [P2 [P3 [P4 [Happ Hpost]]]]]]]].
  rewrite E in Hrun. injection Hrun as <-.
  exists applied, now, now, now.
  split; [exact P1|]. split; [exact P2|]. split; [exact P3|]. split; [exact P4|].
  split; [exact Happ|]. intros H _. now apply Hpost.
Qed.

Lemma recordPurchase_records_the_purchase_witness :
  let mm := snd (Funnel.updateFunnelStage Funnel.default_options "5511999990000"
                   Funnel.CLOSING 500 Memory.empty_manager) in
  let mm' := snd (Funnel.recordPurchase Funnel.default_options "5511999990000"
                    "basic_plan" 9700 1000 mm) in
  exists (applied : string) (time purchase_date interaction_date : Z),
    Memory.persisted mm' "5511999990000" "purchased_product" "purchase_history"
    = Some (Memory.VString "basic_plan") /\
    Memory.persisted mm' "5511999990000" ("purchase_" +:+ pretty time)
                     "purchase_history"
    = Some (Memory.VPurchase "basic_plan" 9700 purchase_date) /\
    Memory.persisted mm' "5511999990000" "last_interaction" "customer_journey"
    = Some (Memory.VLastInteraction interaction_date "basic_plan") /\
    Memory.persisted mm' "5511999990000" "current_stage" "funnel_stage"
    = Some (Memory.VString applied) /\
    (applied = Funnel.POST_PURCHASE_FOLLOWUP \/ applied = Funnel.DOWNSELL) /\
    (StageFacts.stage_read Funnel.default_options "5511999990000" 1000 mm
     <> Funnel.UPSELL ->
     Funnel.defaultStage Funnel.default_options <> Funnel.UPSELL ->
     applied = Funnel.POST_PURCHASE_FOLLOWUP).
Proof.
  intros mm mm'.
  apply (recordPurchase_records_the_purchase Funnel.default_options
           "5511999990000" "basic_plan" 9700 1000 mm mm').
  - discriminate.
  - vm_compute. reflexivity.
Defined.



Section CurrentStage.
Import Memory MemoryOps MemoryFacts Funnel StageFacts.


End CurrentStage.

(** X12. The time window of an upsell offer. When [checkUpsellOpportunity],
    asked with the days [calculateDaysBetween] counts from the purchase to
    now, returns an offer, upsell is enabled, the offer is one of those
    listed for the product, and the time elapsed is more than the offer's
    days less two and at most its days plus three, in whole days of
    86 400 000 ms: the day count is rounded up, so the window of
    "a day before to three days after" opens a day earlier in real time. *)
Theorem upsell_offer_window
        (options : Funnel.Options) (productId : string) (date now : Z)
        (opportunity : Memory.UpsellOpportunity) :
  Funnel.checkUpsellOpportunity options productId
    (Funnel.calculateDaysBetween date now) = Some opportunity ->
  Funnel.enableUpsellDownsell options = true /\
  (exists opportunities,
      Funnel.lookup_key Funnel.UPSELL_OPPORTUNITIES productId = Some opportunities /\
      In opportunity opportunities) /\
  Funnel.MS_PER_DAY * (Funnel.timingDays options opportunity - 2) < Z.abs (now - date)
  /\ Z.abs (now - date) <= Funnel.MS_PER_DAY * (Funnel.timingDays options opportunity + 3).
Proof.
  unfold Funnel.checkUpsellOpportunity.
  destruct (Funnel.enableUpsellDownsell options); [|discriminate]. cbn [negb].
  destruct (Funnel.lookup_key Funnel.UPSELL_OPPORTUNITIES productId)
    as [opportunities|]; [|discriminate].
  intros F. apply find_some in F as [Hin Hwin].
  split; [reflexivity|]. split; [now exists opportunities|].
  apply andb_true_iff in Hwin as [Hlo Hhi].
  apply Z.leb_le in Hlo, Hhi.
  unfold Funnel.calculateDaysBetween, Funnel.ceil_div in Hlo, Hhi.
  set (n := Z.abs (now - date)) in *.
  set (t := Funnel.timingDays options opportunity) in *.
  assert (Hd : Funnel.MS_PER_DAY = 86400000) by reflexivity.
  rewrite Hd in *.
  pose proof (Z.div_mod (n + 86400000 - 1) 86400000 ltac:(lia)) as Hdm.
  pose proof (Z.mod_pos_bound (n + 86400000 - 1) 86400000 ltac:(lia)) as Hm.
  lia.
Qed.

Lemma upsell_offer_window_witness :
  Funnel.enableUpsellDownsell Funnel.default_options = true /\
  (exists opportunities,
      Funnel.lookup_key Funnel.UPSELL_OPPORTUNITIES "basic_plan" = Some opportunities /\
      In FunnelFacts.pro_upsell opportunities) /\
  Funnel.MS_PER_DAY * (Funnel.timingDays Funnel.default_options FunnelFacts.pro_upsell - 2)
  < Z.abs (500000000 - 0)
  /\ Z.abs (500000000 - 0)
     <= Funnel.MS_PER_DAY
        * (Funnel.timingDays Funnel.default_options FunnelFacts.pro_upsell + 3).
Proof.
  apply (upsell_offer_window Funnel.default_options "basic_plan" 0 500000000
           FunnelFacts.pro_upsell).
  vm_compute. reflexivity.
Defined.

(** ** AI handler: history, stage suggestions, retries, processed reply *)

Module AiHandlerOpsFacts.
Import AiHandlerOps.

(** *** The history that is sent *)

Definition not_system (m : Funnel.Message) : bool :=
  negb (String.eqb (Funnel.role m) "system").

(** The tokens counted for a list of messages. *)
Definition tokens_of (l : list Funnel.Message) : Z :=
  fold_right (fun m total => countTokens (Funnel.content m) + total) 0 l.

Lemma tokens_of_app (a b : list Funnel.Message) :
  tokens_of (a ++ b) = tokens_of a + tokens_of b.
Proof. induction a as [|m a IH]; simpl; [reflexivity | rewrite IH; lia]. Qed.

Lemma countTokens_nonneg (text : jsstring) : 0 <= countTokens text.
Proof.
  unfold countTokens, _simpleTokenCount, Funnel.ceil_div, jslength.
  destruct text; [lia|]. apply Z.div_pos; lia.
Qed.

Lemma tokens_of_nonneg (l : list Funnel.Message) : 0 <= tokens_of l.
Proof.
  induction l as [|m l IH]; simpl; [lia|].
  pose proof (countTokens_nonneg (Funnel.content m)). lia.
Qed.

Lemma message_eta (l : list Funnel.Message) :
  map (fun msg => {| Funnel.role := Funnel.role msg;
                     Funnel.content := Funnel.content msg |}) l = l.
Proof. induction l as [|[r c] l IH]; simpl; [reflexivity | now rewrite IH]. Qed.

(** The loop takes the messages of a most recent stretch [taken] that are
    not system messages, and stops at the end of the history or in front
    of a message that does not fit. *)
Lemma select_history_spec (recentMessages : list Funnel.Message) :
  forall totalTokens historyToInclude,
  exists taken rest,
    recentMessages = taken ++ rest /\
    select_history recentMessages totalTokens historyToInclude
    = (rev (List.filter not_system taken) ++ historyToInclude,
       totalTokens + tokens_of (List.filter not_system taken)) /\
    (List.filter not_system taken <> [] ->
     totalTokens + tokens_of (List.filter not_system taken) <= MAX_HISTORY_TOKENS) /\
    (rest = [] \/
     exists m rest', rest = m :: rest' /\ not_system m = true /\
       MAX_HISTORY_TOKENS
       < totalTokens + tokens_of (List.filter not_system taken)
         + countTokens (Funnel.content m)).
Proof.
  induction recentMessages as [|msg older IH]; intros totalTokens historyToInclude.
  - exists [], []. cbn. rewrite Z.add_0_r.
    split; [reflexivity|]. split; [reflexivity|]. split; [tauto | now left].
  - cbn [select_history].
    destruct (String.eqb (Funnel.role msg) "system") eqn:Esys.
    + destruct (IH totalTokens historyToInclude) as [taken [rest [-> [E [Hle Hstop]]]]].
      exists (msg :: taken), rest.
      assert (Hf : List.filter not_system (msg :: taken)
                   = List.filter not_system taken).
      { cbn [List.filter]. unfold not_system at 1. now rewrite Esys. }
      rewrite Hf. split; [reflexivity|]. split; [exact E|]. now split.
    + destruct (Z.leb_spec (totalTokens + countTokens (Funnel.content msg))
                           MAX_HISTORY_TOKENS) as [Hfit | Hnot].
      * destruct (IH (totalTokens + countTokens (Funnel.content msg))
                     (msg :: historyToInclude))
          as [taken [rest [-> [E [Hle Hstop]]]]].
        exists (msg :: taken), rest.
        assert (Hf : List.filter not_system (msg :: taken)
                     = msg :: List.filter not_system taken).
        { cbn [List.filter]. unfold not_system at 1. now rewrite Esys. }
        rewrite Hf. cbn [rev tokens_of fold_right].
        fold (tokens_of (List.filter not_system taken)).
        split; [reflexivity|]. split; [|split].
        -- rewrite E. f_equal; [now rewrite <- app_assoc | lia].
        -- intros _. pose proof (tokens_of_nonneg (List.filter not_system taken)).
           destruct (List.filter not_system taken) eqn:Ef.
           ++ cbn [tokens_of fold_right]. lia.
           ++ rewrite <- Ef in *.
              assert (Hne : List.filter not_system taken <> [])
                by (rewrite Ef; discriminate).
              specialize (Hle Hne). lia.
        -- destruct Hstop as [-> | [m [rest' [-> [Hm Hgt]]]]]; [now left|].
           right. exists m, rest'. split; [reflexivity|]. split; [exact Hm | lia].
      * exists [], (msg :: older). cbn. rewrite Z.add_0_r.
        split; [reflexivity|]. split; [reflexivity|]. split; [tauto|].
        right. exists msg, older. split; [reflexivity|]. split; [|lia].
        unfold not_system. now rewrite Esys.
Qed.

Lemma filter_rev {A} (f : A -> bool) (l : list A) :
  List.filter f (rev l) = rev (List.filter f l).
Proof.
  induction l as [|a l IH]; [reflexivity|]. cbn [rev List.filter].
  rewrite List.filter_app, IH. cbn [List.filter].
  destruct (f a); cbn [rev]; [reflexivity | now rewrite app_nil_r].
Qed.

Lemma tokens_of_rev (l : list Funnel.Message) : tokens_of (rev l) = tokens_of l.
Proof.
  induction l as [|a l IH]; [reflexivity|]. cbn [rev].
  rewrite tokens_of_app, IH.
  change (tokens_of [a]) with (countTokens (Funnel.content a) + 0).
  change (tokens_of (a :: l)) with (countTokens (Funnel.content a) + tokens_of l).
  lia.
Qed.

(** *** Stage suggestions *)

Lemma stageIndicators_valid (stage : string) (patterns : list jsstring) :
  In (stage, patterns) stageIndicators -> In stage Funnel.FUNNEL_STAGES_values.
Proof.
  unfold stageIndicators.
  intros [H | [H | [H | [H | [H | [H | [H | [H | []]]]]]]]];
    injection H as <- _; vm_compute; tauto.
Qed.


(** *** Retries *)

Section Retries.

Variable Msg : Type.
Variable retryConfig : RetryConfig.
Variable createChatCompletion : nat -> outcome Msg.
Variable Math_random : nat -> float.

Abbreviation loop := (send_loop Msg retryConfig createChatCompletion Math_random).

(** The requests [from .. to - 1] were all rejected with a retryable
    error. *)
Definition retried (from to : nat) : Prop :=
  forall k, (from <= k < to)%nat ->
    exists error, createChatCompletion k = Rejects error /\
                  _isRetryableError error = true.

Lemma send_loop_spec (fuel : nat) :
  forall (requests : nat) (delay : float) (waited : list float),
    (Z.to_nat (maxRetries retryConfig + 1 - Z.of_nat requests) < fuel)%nat ->
    exists response requests' delays,
      loop fuel (Z.of_nat requests) delay requests waited
      = Some (response, requests', rev delays ++ waited) /\
      match delays with [] => True | first :: _ => first = delay end /\
      match response with
      | inl None =>
        requests' = requests /\ delays = [] /\
        maxRetries retryConfig < Z.of_nat requests
      | inl (Some first_choice) =>
        (requests < requests')%nat /\
        Z.of_nat requests' <= maxRetries retryConfig + 1 /\
        length delays = (requests' - 1 - requests)%nat /\
        retried requests (requests' - 1) /\
        createChatCompletion (requests' - 1)%nat = Resolves first_choice
      | inr error =>
        (requests < requests')%nat /\
        Z.of_nat requests' <= maxRetries retryConfig + 1 /\
        length delays = (requests' - 1 - requests)%nat /\
        retried requests (requests' - 1) /\
        createChatCompletion (requests' - 1)%nat = Rejects error /\
        (_isRetryableError error = false
         \/ Z.of_nat requests' = maxRetries retryConfig + 1)
      end.
Proof.
  induction fuel as [|fuel IH]; intros requests delay waited Hfuel; [lia|].
  cbn [send_loop].
  destruct (Z.leb_spec (Z.of_nat requests) (maxRetries retryConfig)) as [Hle | Hgt].
  2:{ exists (inl None), requests, []. split; [reflexivity|]. split; [exact I|].
      split; [reflexivity|]. split; [reflexivity | exact Hgt]. }
  assert (Hnone : retried requests (S requests - 1)).
  { intros k Hk. lia. }
  destruct (createChatCompletion requests) as [first_choice | error] eqn:Ecall.
  - exists (inl (Some first_choice)), (S requests), []. split; [reflexivity|].
    split; [exact I|]. split; [lia|]. split; [lia|]. split; [cbn; lia|].
    split; [exact Hnone|]. now replace (S requests - 1)%nat with requests by lia.
  - destruct (Z.leb_spec (Z.of_nat requests + 1) (maxRetries retryConfig))
      as [Hmore | Hlast]; cbn [andb].
    + destruct (_isRetryableError error) eqn:Eretry.
      * replace (Z.of_nat requests + 1) with (Z.of_nat (S requests)) by lia.
        set (delay' := Classifier.Math_min _ _).
        destruct (IH (S requests) delay' (delay :: waited) ltac:(lia))
          as [response [requests' [delays [E [Hfirst Hresp]]]]].
        exists response, requests', (delay :: delays). split.
        { rewrite E. cbn [rev]. now rewrite <- app_assoc. }
        split; [reflexivity|].
        assert (Hext : forall n, (S requests < n)%nat ->
                                 retried (S requests) (n - 1) ->
                                 retried requests (n - 1)).
        { intros n Hn Hr k Hk. destruct (Nat.eq_dec k requests) as [-> | Hne].
          - exists error. now split.
          - apply Hr. lia. }
        destruct response as [[first_choice|] | error'].
        -- destruct Hresp as [H1 [H2 [H3 [H4 H5]]]].
           split; [lia|]. split; [exact H2|]. split; [cbn [length]; lia|].
           split; [now apply Hext | exact H5].
        -- destruct Hresp as [_ [_ H]]. lia.
        -- destruct Hresp as [H1 [H2 [H3 [H4 [H5 H6]]]]].
           split; [lia|]. split; [exact H2|]. split; [cbn [length]; lia|].
           split; [now apply Hext|]. now split.
      * exists (inr error), (S requests), []. split; [reflexivity|].
        split; [exact I|]. split; [lia|]. split; [lia|]. split; [cbn; lia|].
        split; [exact Hnone|].
        replace (S requests - 1)%nat with requests by lia. split; [exact Ecall | now left].
    + exists (inr error), (S requests), []. split; [reflexivity|].
      split; [exact I|]. split; [lia|]. split; [lia|]. split; [cbn; lia|].
      split; [exact Hnone|].
      replace (S requests - 1)%nat with requests by lia. split; [exact Ecall|].
      right. lia.
Qed.

End Retries.

(** *** The processed reply *)

(** The id of the last command of a type, if there is one. *)
Definition last_id (type : jsstring) (commands : list command) : option jsstring :=
  AiHandler.id <$> last (List.filter (fun c => bool_decide (AiHandler.type c = type))
                                     commands).

Lemma last_cons_filter (type : jsstring) (c : command) (l : list command) :
  last_id type (c :: l)
  = match last_id type l with
    | Some i => Some i
    | None => if bool_decide (AiHandler.type c = type) then Some (AiHandler.id c)
              else None
    end.
Proof.
  unfold last_id. cbn [List.filter].
  destruct (bool_decide (AiHandler.type c = type)).
  - destruct (List.filter _ l) as [|c' l'] eqn:E; [reflexivity|].
    rewrite last_cons. now destruct (last (c' :: l')).
  - now destruct (last (List.filter _ l)).
Qed.

Ltac types_differ :=
  repeat case_bool_decide; try reflexivity;
  match goal with
  | H1 : AiHandler.type ?c = _, H2 : AiHandler.type ?c = _ |- _ =>
    rewrite H1 in H2; vm_compute in H2; discriminate
  end.

Lemma apply_socialProofId (m : Metadata) (c : command) :
  socialProofId (apply_command m c)
  = if bool_decide (AiHandler.type c = js "prova_social") then Some (AiHandler.id c)
    else socialProofId m.
Proof. unfold apply_command. types_differ. Qed.

Lemma apply_checkoutPlanId (m : Metadata) (c : command) :
  checkoutPlanId (apply_command m c)
  = if bool_decide (AiHandler.type c = js "checkout") then Some (AiHandler.id c)
    else checkoutPlanId m.
Proof. unfold apply_command. types_differ. Qed.

Lemma apply_suggestedStage (m : Metadata) (c : command) :
  suggestedStage (apply_command m c)
  = if bool_decide (AiHandler.type c = js "etapa") then Some (AiHandler.id c)
    else suggestedStage m.
Proof. unfold apply_command. types_differ. Qed.

Lemma apply_requiresHumanSupport (m : Metadata) (c : command) :
  requiresHumanSupport (apply_command m c)
  = if bool_decide (AiHandler.type c = js "suporte") then Some true
    else requiresHumanSupport m.
Proof. unfold apply_command. types_differ. Qed.

(** A field that each command of one type sets to its id holds, after
    the [forEach], the id of the last command of that type. *)
Lemma fold_last_wins (field : Metadata -> option jsstring) (type : jsstring) :
  (forall m c, field (apply_command m c)
               = if bool_decide (AiHandler.type c = type) then Some (AiHandler.id c)
                 else field m) ->
  forall commands m,
    field (fold_left apply_command commands m)
    = match last_id type commands with
      | Some i => Some i
      | None => field m
      end.
Proof.
  intros Hfield commands. induction commands as [|c l IH]; intros m; [reflexivity|].
  cbn [fold_left]. rewrite IH, last_cons_filter, Hfield.
  destruct (last_id type l); [reflexivity|].
  now destruct (bool_decide (AiHandler.type c = type)).
Qed.

Lemma fold_support (commands : list command) :
  forall m,
    requiresHumanSupport (fold_left apply_command commands m)
    = if existsb (fun c => bool_decide (AiHandler.type c = js "suporte")) commands
      then Some true else requiresHumanSupport m.
Proof.
  induction commands as [|c l IH]; intros m; [reflexivity|].
  cbn [fold_left existsb]. rewrite IH, apply_requiresHumanSupport.
  destruct (bool_decide (AiHandler.type c = js "suporte")); cbn [orb];
    [now destruct (existsb _ l) | reflexivity].
Qed.

End AiHandlerOpsFacts.

(** X13. The history sent to the model. [_prepareMessagesForAI] returns the
    system prompt as a system message, followed by the messages of a most
    recent stretch of the conversation history, in their order, without
    the system messages among them.  Unless no message of the history is
    included, the tokens counted for the prompt and the included messages
    stay within [MAX_HISTORY_TOKENS]; and the stretch is either the whole
    history, or preceded by a message that is not a system message and
    whose tokens would exceed the limit. *)
Theorem prepareMessagesForAI_recent_history_within_budget
        (systemPrompt : jsstring) (conversationHistory : list Funnel.Message) :
  exists older recent,
    conversationHistory = older ++ recent /\
    let included := List.filter AiHandlerOpsFacts.not_system recent in
    let totalTokens :=
      AiHandlerOps.countTokens systemPrompt + AiHandlerOpsFacts.tokens_of included in
    AiHandlerOps._prepareMessagesForAI systemPrompt conversationHistory
    = {| Funnel.role := "system"; Funnel.content := systemPrompt |} :: included /\
    (included <> [] -> totalTokens <= AiHandlerOps.MAX_HISTORY_TOKENS) /\
    (older = [] \/
     exists older' m,
       older = older' ++ [m] /\ Funnel.role m <> "system"%string /\
       AiHandlerOps.MAX_HISTORY_TOKENS
       < totalTokens + AiHandlerOps.countTokens (Funnel.content m)).
Proof.
  destruct (AiHandlerOpsFacts.select_history_spec (rev conversationHistory)
              (AiHandlerOps.countTokens systemPrompt) [])
    as [taken [rest [Hsplit [E [Hle Hstop]]]]].
  exists (rev rest), (rev taken).
  assert (Hf : List.filter AiHandlerOpsFacts.not_system (rev taken)
               = rev (List.filter AiHandlerOpsFacts.not_system taken))
    by apply AiHandlerOpsFacts.filter_rev.
  split.
  { rewrite <- (rev_involutive conversationHistory), Hsplit. apply rev_app_distr. }
  cbv zeta. rewrite Hf, AiHandlerOpsFacts.tokens_of_rev.
  split; [|split].
  - unfold AiHandlerOps._prepareMessagesForAI. rewrite E.
    rewrite AiHandlerOpsFacts.message_eta, app_nil_r. reflexivity.
  - intros Hne. apply Hle. intros H0. apply Hne. now rewrite H0.
  - destruct Hstop as [-> | [m [rest' [-> [Hm Hgt]]]]]; [now left|].
    right. exists (rev rest'), m. split; [reflexivity|]. split; [|exact Hgt].
    unfold AiHandlerOpsFacts.not_system in Hm.
    apply negb_true_iff, String.eqb_neq in Hm. exact Hm.
Qed.

Section StageSuggestion.
Import AiHandlerOps AiHandlerOpsFacts.

(** X14. What [_detectStageSuggestion] suggests. A stage it returns is
    always one of [FUNNEL_STAGES]: either the reply holds a command
    [!etapa:<name>] whose name, in lower case, is that stage -- the first
    such command decides, even when it names the current stage -- or the
    stage differs from the current one and one of its indicator phrases
    occurs in the reply, in any case of the letters.  It returns [null]
    only if the first [!etapa:] command, if any, names no stage and every
    indicator phrase that occurs belongs to the current stage. *)
Theorem detectStageSuggestion_suggests_valid_stages
        (content : jsstring) (currentStage : string) :
  match AiHandlerOps._detectStageSuggestion content currentStage with
  | Some stage =>
    In stage Funnel.FUNNEL_STAGES_values /\
    ((exists g, AiHandlerOps.stageCommand_exec content = Some g /\
                map ascii_lower g = js stage)
     \/ (stage <> currentStage /\
         exists patterns pattern,
           In (stage, patterns) AiHandlerOps.stageIndicators /\
           In pattern patterns /\
           AiHandlerOps.test_ci pattern content = true))
  | None =>
    (forall g stage, AiHandlerOps.stageCommand_exec content = Some g ->
                     In stage Funnel.FUNNEL_STAGES_values ->
                     js stage <> map ascii_lower g) /\
    (forall stage patterns pattern,
        In (stage, patterns) AiHandlerOps.stageIndicators -> In pattern patterns ->
        AiHandlerOps.test_ci pattern content = true -> stage = currentStage)
  end.
Proof.
  unfold _detectStageSuggestion.
  set (explicit := match stageCommand_exec content with
                   | Some g =>
                     find (fun stage => bool_decide (js stage = map ascii_lower g))
                          Funnel.FUNNEL_STAGES_values
                   | None => None
                   end).
  assert (Hexp : match explicit with
                 | Some stage =>
                   In stage Funnel.FUNNEL_STAGES_values /\
                   exists g, stageCommand_exec content = Some g /\
                             map ascii_lower g = js stage
                 | None =>
                   forall g stage, stageCommand_exec content = Some g ->
                                   In stage Funnel.FUNNEL_STAGES_values ->
                                   js stage <> map ascii_lower g
                 end).
  { unfold explicit. destruct (stageCommand_exec content) as [g|]; [|discriminate].
    destruct (find _ Funnel.FUNNEL_STAGES_values) as [stage|] eqn:F.
    - apply find_some in F as [Hin Heq]. apply bool_decide_eq_true in Heq.
      split; [exact Hin|]. exists g. now split.
    - intros g' stage [= <-] Hin Heq.
      pose proof (find_none _ _ F stage Hin) as Hn. cbv beta in Hn.
      apply bool_decide_eq_false in Hn. contradiction. }
  destruct explicit as [stage|]; [destruct Hexp as [Hin Hg]; split; [exact Hin | now left]|].
  set (hit := fun '(stage, patterns) =>
                negb (String.eqb stage currentStage)
                && existsb (fun pattern : jsstring => test_ci pattern content) patterns).
  destruct (find hit stageIndicators) as [[stage patterns]|] eqn:F.
  - apply find_some in F as [Hin Hhit]. unfold hit in Hhit.
    apply andb_true_iff in Hhit as [Hne Hex].
    apply negb_true_iff, String.eqb_neq in Hne.
    apply existsb_exists in Hex as [pattern [Hp Ht]].
    split; [exact (stageIndicators_valid _ _ Hin)|]. right.
    split; [exact Hne|]. now exists patterns, pattern.
  - split; [exact Hexp|]. intros stage patterns pattern Hin Hp Ht.
    pose proof (find_none _ _ F (stage, patterns) Hin) as Hn. unfold hit in Hn.
    apply andb_false_iff in Hn as [Hn | Hn].
    + apply negb_false_iff, String.eqb_eq in Hn. exact Hn.
    + assert (Hex : existsb (fun pattern : jsstring => test_ci pattern content)
                            patterns = true)
        by (apply existsb_exists; now exists pattern).
      congruence.
Qed.

End StageSuggestion.

(** X15. The retry loop of [_sendToOpenAI]. Whatever the requests answer,
    the loop ends within [maxRetries + 1] passes and one more test of its
    condition; it makes at most [maxRetries + 1] requests (none when
    [maxRetries] is negative); every request before the last one was
    rejected with a retryable error, and the handler waited once between
    two requests, first for [initialDelayMs].  It returns the message of
    the first choice of the first response, also when that choice has no
    message ([undefined]); it throws the error of the last request when
    that error is not retryable or the retries are used up; and it throws
    the invalid-response error when the response has no first choice, or
    when no request was made at all. *)
Theorem sendToOpenAI_retries_are_bounded
        (Msg : Type) (retryConfig : AiHandlerOps.RetryConfig)
        (createChatCompletion : nat -> AiHandlerOps.outcome Msg)
        (Math_random : nat -> float) (extra : nat) :
  exists result requests delays,
    AiHandlerOps._sendToOpenAI Msg retryConfig createChatCompletion Math_random
      (S (Z.to_nat (AiHandlerOps.maxRetries retryConfig + 1)) + extra)
    = Some (result, requests, delays) /\
    Z.of_nat requests <= Z.max 0 (AiHandlerOps.maxRetries retryConfig + 1) /\
    length delays = (requests - 1)%nat /\
    match delays with
    | [] => True
    | first :: _ => first = AiHandlerOps.initialDelayMs retryConfig
    end /\
    AiHandlerOpsFacts.retried Msg createChatCompletion 0 (requests - 1) /\
    match result with
    | AiHandlerOps.Returns message =>
      (0 < requests)%nat /\
      createChatCompletion (requests - 1)%nat = AiHandlerOps.Resolves (Some message)
    | AiHandlerOps.ThrowsError error =>
      (0 < requests)%nat /\
      createChatCompletion (requests - 1)%nat = AiHandlerOps.Rejects error /\
      (AiHandlerOps._isRetryableError error = false
       \/ Z.of_nat requests = AiHandlerOps.maxRetries retryConfig + 1)
    | AiHandlerOps.ThrowsInvalidResponse =>
      (requests = 0%nat /\ AiHandlerOps.maxRetries retryConfig < 0)
      \/ ((0 < requests)%nat /\
          createChatCompletion (requests - 1)%nat = AiHandlerOps.Resolves None)
    end.
Proof.
  unfold AiHandlerOps._sendToOpenAI.
  destruct (AiHandlerOpsFacts.send_loop_spec Msg retryConfig createChatCompletion
              Math_random
              (S (Z.to_nat (AiHandlerOps.maxRetries retryConfig + 1)) + extra) 0%nat
              (AiHandlerOps.initialDelayMs retryConfig) [] ltac:(lia))
    as [response [requests [delays [E [Hfirst Hresp]]]]].
  change (Z.of_nat 0) with 0 in E. rewrite E, app_nil_r.
  destruct response as [[[message|]|] | error].
  - destruct Hresp as [H1 [H2 [H3 [H4 H5]]]].
    exists (AiHandlerOps.Returns message), requests, delays.
    rewrite rev_involutive. split; [reflexivity|]. split; [lia|]. split; [lia|].
    split; [exact Hfirst|]. split; [exact H4|]. now split.
  - destruct Hresp as [H1 [H2 [H3 [H4 H5]]]].
    exists AiHandlerOps.ThrowsInvalidResponse, requests, delays.
    rewrite rev_involutive. split; [reflexivity|]. split; [lia|]. split; [lia|].
    split; [exact Hfirst|]. split; [exact H4|]. right. now split.
  - destruct Hresp as [-> [-> H]].
    exists AiHandlerOps.ThrowsInvalidResponse, 0%nat, [].
    split; [reflexivity|]. split; [lia|]. split; [reflexivity|]. split; [exact I|].
    split; [intros k Hk; lia|]. left. split; [reflexivity | lia].
  - destruct Hresp as [H1 [H2 [H3 [H4 [H5 H6]]]]].
    exists (AiHandlerOps.ThrowsError error), requests, delays.
    rewrite rev_involutive. split; [reflexivity|]. split; [lia|]. split; [lia|].
    split; [exact Hfirst|]. split; [exact H4|]. split; [exact H1|]. now split.
Qed.

(** X16. The processed reply. [_processAIResponse] lists the commands found
    in the reply as its actions.  A reply without a command is passed on as
    it is; otherwise the content is strictly shorter than the reply, holds
    no run of three line feeds and has no white space at either end.  The
    metadata hold, for the social proof, the checkout plan and the
    suggested stage, the id of the last command of the type (the empty
    string when that command has no id) and nothing when there is no such
    command; human support is required exactly when a support command
    occurs. *)
Theorem processAIResponse_cleans_and_collects (aiResponse_content : jsstring) :
  let processed := AiHandlerOps._processAIResponse aiResponse_content in
  let commands := _extractSpecialCommands aiResponse_content in
  AiHandlerOps.actions processed = commands /\
  match commands with
  | [] => AiHandlerOps.content processed = aiResponse_content
  | _ :: _ =>
    (length (AiHandlerOps.content processed) < length aiResponse_content)%nat /\
    includes (AiHandlerOps.content processed) [Regex.LF; Regex.LF; Regex.LF] = false /\
    trim (AiHandlerOps.content processed) = AiHandlerOps.content processed
  end /\
  AiHandlerOps.socialProofId (AiHandlerOps.metadata processed)
  = AiHandlerOpsFacts.last_id (js "prova_social") commands /\
  AiHandlerOps.checkoutPlanId (AiHandlerOps.metadata processed)
  = AiHandlerOpsFacts.last_id (js "checkout") commands /\
  AiHandlerOps.suggestedStage (AiHandlerOps.metadata processed)
  = AiHandlerOpsFacts.last_id (js "etapa") commands /\
  AiHandlerOps.requiresHumanSupport (AiHandlerOps.metadata processed)
  = if existsb (fun c => bool_decide (AiHandler.type c = js "suporte")) commands
    then Some true else None.
Proof.
  cbv zeta. unfold AiHandlerOps._processAIResponse.
  cbn [AiHandlerOps.actions AiHandlerOps.content AiHandlerOps.metadata].
  split; [reflexivity|]. split.
  - destruct (_extractSpecialCommands aiResponse_content) as [|c l] eqn:E;
      [reflexivity|].
    cbn [length]. replace (0 <? Z.of_nat (S (length l))) with true
      by (symmetry; apply Z.ltb_lt; lia).
    split.
    + apply StripFacts.removeSpecialCommands_shrinks. rewrite E. discriminate.
    + apply StripFacts.removed_is_clean.
  - split; [|split; [|split]].
    + rewrite (AiHandlerOpsFacts.fold_last_wins AiHandlerOps.socialProofId
                 (js "prova_social") AiHandlerOpsFacts.apply_socialProofId).
      now destruct (AiHandlerOpsFacts.last_id _ _).
    + rewrite (AiHandlerOpsFacts.fold_last_wins AiHandlerOps.checkoutPlanId
                 (js "checkout") AiHandlerOpsFacts.apply_checkoutPlanId).
      now destruct (AiHandlerOpsFacts.last_id _ _).
    + rewrite (AiHandlerOpsFacts.fold_last_wins AiHandlerOps.suggestedStage
                 (js "etapa") AiHandlerOpsFacts.apply_suggestedStage).
      now destruct (AiHandlerOpsFacts.last_id _ _).
    + apply AiHandlerOpsFacts.fold_support.
Qed.

(** ** Bot configuration *)

Module BotConfigFacts.
Import BotConfig.

Lemma parseIntEnv_bounded (value : option jsstring) (defaultValue m M : Z) :
  m <= M -> m <= defaultValue <= M ->
  m <= parseIntEnv value defaultValue (Some m) (Some M) <= M.
Proof.
  intros HmM Hd. unfold parseIntEnv.
  destruct value as [value|]; [|exact Hd].
  destruct (parseInt value) as [parsedValue|]; [|exact Hd].
  destruct (Z.ltb_spec parsedValue m); [lia|].
  destruct (Z.ltb_spec M parsedValue); lia.
Qed.

(** The splitting of a reply, for every positive maximum. *)
Lemma splitMessage_total (maxCharsPerMessage : Z) (splitInParagraphs : bool)
      (content : jsstring) :
  1 <= maxCharsPerMessage ->
  exists chunks,
    _splitMessage maxCharsPerMessage splitInParagraphs content = Some chunks /\
    Forall (fun c => jslength c <= maxCharsPerMessage + 1) chunks /\
    SplitterFacts.visible (concat chunks) = SplitterFacts.visible content.
Proof.
  intros Hmax. unfold _splitMessage.
  destruct (Z.leb_spec (jslength content) maxCharsPerMessage).
  - exists [content]. split; [reflexivity|]. split.
    + apply SplitterFacts.within_one. lia.
    + cbn [concat]. now rewrite app_nil_r.
  - destruct splitInParagraphs.
    + destruct (SplitterFacts.splitParagraphs_returns maxCharsPerMessage
                  (split paragraphBreak content) Hmax [] []) as [r Hr].
      exists r. split; [exact Hr|]. split.
      * apply (SplitterFacts.splitParagraphs_within maxCharsPerMessage
                 (split paragraphBreak content) Hmax [] [] r);
          [constructor | unfold jslength; simpl; lia | exact Hr].
      * rewrite (SplitterFacts.splitParagraphs_visible maxCharsPerMessage
                   (split paragraphBreak content) Hmax [] [] r Hr).
        cbn [concat app]. apply SplitterFacts.split_visible.
    + destruct (SplitterFacts._splitTextChunks_returns content maxCharsPerMessage Hmax)
        as [r Hr].
      exists r. split; [exact Hr|]. split.
      * exact (SplitterFacts._splitTextChunks_within content maxCharsPerMessage
                                                       r Hmax Hr).
      * now apply (SplitterFacts._splitTextChunks_visible content maxCharsPerMessage).
Qed.

(** *** What [parseInt] reads *)

(** The number a run of decimal digits writes, by the place of each
    digit. *)
Fixpoint decimal (digits : jsstring) : Z :=
  match digits with
  | [] => 0
  | d :: ds => (Z.of_N d - 48) * 10 ^ Z.of_nat (length ds) + decimal ds
  end.

(** An optional sign, and the number with it. *)
Definition is_sign (sign : jsstring) : Prop :=
  sign = [] \/ sign = [PLUS] \/ sign = [MINUS].

Definition signed (sign : jsstring) (n : Z) : Z :=
  match sign with
  | c :: _ => if (c =? MINUS)%N then - n else n
  | [] => n
  end.

(** No digit comes next. *)
Definition no_digit_ahead (rest : jsstring) : Prop :=
  match rest with
  | [] => True
  | x :: _ => is_digit x = false
  end.

(** Neither white space nor a sign comes next. *)
Definition no_space_or_sign_ahead (rest : jsstring) : Prop :=
  match rest with
  | [] => True
  | x :: _ => is_space x = false /\ x <> PLUS /\ x <> MINUS
  end.

Lemma digits_value_from (digits : jsstring) (n : Z) :
  fold_left (fun n d => 10 * n + (Z.of_N d - 48)) digits n
  = n * 10 ^ Z.of_nat (length digits) + decimal digits.
Proof.
  revert n. induction digits as [|d ds IH]; intros n; cbn [fold_left decimal length].
  - change (10 ^ Z.of_nat 0) with 1. lia.
  - rewrite IH. rewrite Nat2Z.inj_succ, Z.pow_succ_r by lia. lia.
Qed.

Lemma digits_value_decimal (digits : jsstring) :
  digits_value digits = decimal digits.
Proof. unfold digits_value. rewrite digits_value_from. lia. Qed.

Lemma digit_facts (d : N) :
  is_digit d = true -> is_space d = false /\ (d =? MINUS)%N = false
                       /\ (d =? PLUS)%N = false.
Proof.
  unfold is_digit, is_space, MINUS, PLUS.
  rewrite andb_true_iff, !N.leb_le. intros [H1 H2].
  repeat split; repeat (apply orb_false_intro); try apply andb_false_iff;
    rewrite ?N.leb_gt, ?N.eqb_neq; lia.
Qed.

Lemma trimStart_body (ws body : jsstring) :
  forallb is_space ws = true ->
  match body with [] => True | x :: _ => is_space x = false end ->
  trimStart (ws ++ body) = body.
Proof.
  intros Hws Hbody. unfold trimStart.
  rewrite AiHandlerFacts.drop_while_app by exact Hws.
  destruct body as [|x body]; [reflexivity|]. cbn [drop_while]. now rewrite Hbody.
Qed.

Lemma parseInt_number (ws sign digits rest : jsstring) :
  forallb is_space ws = true -> is_sign sign -> digits <> [] ->
  forallb is_digit digits = true -> no_digit_ahead rest ->
  parseInt (ws ++ sign ++ digits ++ rest) = Some (signed sign (decimal digits)).
Proof.
  intros Hws Hsign Hne Hdig Hrest. unfold parseInt.
  destruct digits as [|d ds]; [now destruct Hne|].
  assert (Hd : is_digit d = true)
    by (cbn [forallb] in Hdig; now apply andb_true_iff in Hdig).
  destruct (digit_facts d Hd) as [Hsp [Hm Hp]].
  assert (Htake : take_while is_digit ((d :: ds) ++ rest) = d :: ds)
    by (apply WireFacts.take_while_ends; assumption).
  destruct Hsign as [-> | [-> | ->]]; cbn [app].
  - rewrite (trimStart_body ws (d :: ds ++ rest) Hws Hsp).
    rewrite Hm, Hp. change (d :: ds ++ rest) with ((d :: ds) ++ rest).
    rewrite Htake, digits_value_decimal. cbn [signed].
    f_equal; lia.
  - rewrite (trimStart_body ws (PLUS :: d :: ds ++ rest) Hws eq_refl).
    change ((PLUS =? MINUS)%N) with false. rewrite N.eqb_refl.
    change (d :: ds ++ rest) with ((d :: ds) ++ rest).
    rewrite Htake, digits_value_decimal. cbn [signed].
    change ((PLUS =? MINUS)%N) with false. f_equal; lia.
  - rewrite (trimStart_body ws (MINUS :: d :: ds ++ rest) Hws eq_refl).
    rewrite N.eqb_refl. change (d :: ds ++ rest) with ((d :: ds) ++ rest).
    rewrite Htake, digits_value_decimal. cbn [signed]. rewrite N.eqb_refl.
    f_equal; lia.
Qed.

Lemma parseInt_no_number (ws sign rest : jsstring) :
  forallb is_space ws = true -> is_sign sign -> no_digit_ahead rest ->
  (sign = [] -> no_space_or_sign_ahead rest) ->
  parseInt (ws ++ sign ++ rest) = None.
Proof.
  intros Hws Hsign Hrest Hbare. unfold parseInt.
  assert (Hnone : take_while is_digit rest = []).
  { destruct rest as [|x rest]; [reflexivity|]. cbn [take_while].
    cbn [no_digit_ahead] in Hrest. now rewrite Hrest. }
  destruct Hsign as [-> | [-> | ->]]; cbn [app].
  - specialize (Hbare eq_refl). destruct rest as [|x rest].
    + rewrite app_nil_r.
      rewrite <- (app_nil_r ws), (trimStart_body ws [] Hws I). reflexivity.
    + destruct Hbare as [Hsp [Hp Hm]].
      rewrite (trimStart_body ws (x :: rest) Hws Hsp).
      apply N.eqb_neq in Hp, Hm. rewrite Hm, Hp. now rewrite Hnone.
  - rewrite (trimStart_body ws (PLUS :: rest) Hws eq_refl).
    change ((PLUS =? MINUS)%N) with false. rewrite N.eqb_refl. now rewrite Hnone.
  - rewrite (trimStart_body ws (MINUS :: rest) Hws eq_refl).
    rewrite N.eqb_refl. now rewrite Hnone.
Qed.

End BotConfigFacts.

(** X17. What [parseIntEnv] reads. With bounds that are integers of at
    most 2^53 in size, [minValue] not above [maxValue]: when the text of
    the variable is white space, an optional sign, decimal digits and then
    no further digit, the result is the number the digits write, with its
    sign, brought into the bounds, whatever follows the digits; when no
    digit comes after the white space and the sign, or the variable is not
    set, the result is the default, which is returned as it is, also when
    it lies outside the bounds. *)
Theorem parseIntEnv_default_or_clamped
        (defaultValue minValue maxValue : Z) :
  - 2 ^ 53 <= minValue -> minValue <= maxValue -> maxValue <= 2 ^ 53 ->
  (forall ws sign digits rest : jsstring,
      forallb is_space ws = true -> BotConfigFacts.is_sign sign ->
      digits <> [] -> forallb BotConfig.is_digit digits = true ->
      BotConfigFacts.no_digit_ahead rest ->
      BotConfig.parseIntEnv (Some (ws ++ sign ++ digits ++ rest)) defaultValue
                            (Some minValue) (Some maxValue)
      = Z.max minValue
              (Z.min (BotConfigFacts.signed sign (BotConfigFacts.decimal digits))
                     maxValue)) /\
  (forall ws sign rest : jsstring,
      forallb is_space ws = true -> BotConfigFacts.is_sign sign ->
      BotConfigFacts.no_digit_ahead rest ->
      (sign = [] -> BotConfigFacts.no_space_or_sign_ahead rest) ->
      BotConfig.parseIntEnv (Some (ws ++ sign ++ rest)) defaultValue
                            (Some minValue) (Some maxValue)
      = defaultValue) /\
  BotConfig.parseIntEnv None defaultValue (Some minValue) (Some maxValue)
  = defaultValue.
Proof.
  intros _ Hle _. split; [|split; [|reflexivity]].
  - intros ws sign digits rest Hws Hsign Hne Hdig Hrest.
    unfold BotConfig.parseIntEnv.
    rewrite (BotConfigFacts.parseInt_number ws sign digits rest Hws Hsign Hne Hdig
               Hrest).
    set (n := BotConfigFacts.signed sign (BotConfigFacts.decimal digits)).
    destruct (Z.ltb_spec n minValue); [lia|].
    destruct (Z.ltb_spec maxValue n); lia.
  - intros ws sign rest Hws Hsign Hrest Hbare.
    unfold BotConfig.parseIntEnv.
    now rewrite (BotConfigFacts.parseInt_no_number ws sign rest Hws Hsign Hrest
                   Hbare).
Qed.

Lemma parseIntEnv_default_or_clamped_witness :
  BotConfig.parseIntEnv (Some (js "  " ++ js "-" ++ js "250" ++ js " chars")) 1000
                        (Some 100) (Some 4000)
  = Z.max 100 (Z.min (BotConfigFacts.signed (js "-")
                        (BotConfigFacts.decimal (js "250"))) 4000) /\
  BotConfig.parseIntEnv (Some (js " " ++ js "+" ++ js " 5")) 1000 (Some 100) (Some 4000)
  = 1000.
Proof.
  destruct (parseIntEnv_default_or_clamped 1000 100 4000
              ltac:(lia) ltac:(lia) ltac:(lia)) as [Hnum [Hnone _]].
  split.
  - apply (Hnum (js "  ") (js "-") (js "250") (js " chars")).
    + reflexivity.
    + right. right. reflexivity.
    + discriminate.
    + reflexivity.
    + reflexivity.
  - apply (Hnone (js " ") (js "+") (js " 5")).
    + reflexivity.
    + right. left. reflexivity.
    + reflexivity.
    + discriminate.
Defined.

(** X18. Splitting with the configured maximum. Whatever the environment
    variable [MAX_CHARS_PER_MESSAGE] holds, the maximum is between 100 and
    4000, and for every reply and either setting of the paragraph option
    [_splitMessage] returns, no chunk is longer than the maximum plus one,
    and the chunks, put together, have the characters of the reply that
    are not white space, in their order. *)
Theorem splitMessage_with_configured_maximum
        (env : option jsstring) (splitInParagraphs : bool) (content : jsstring) :
  100 <= BotConfig.maxCharsPerMessage env <= 4000 /\
  exists chunks,
    _splitMessage (BotConfig.maxCharsPerMessage env) splitInParagraphs content
    = Some chunks /\
    Forall (fun c => jslength c <= BotConfig.maxCharsPerMessage env + 1) chunks /\
    SplitterFacts.visible (concat chunks) = SplitterFacts.visible content.
Proof.
  assert (H : 100 <= BotConfig.maxCharsPerMessage env <= 4000)
    by (apply BotConfigFacts.parseIntEnv_bounded; lia).
  split; [exact H|]. apply BotConfigFacts.splitMessage_total. lia.
Qed.

(** X19. Requests with the configured retries. Whatever the environment
    variable [OPENAI_MAX_RETRIES] holds, [_sendToOpenAI] makes at least one
    request and at most eleven, and it ends within twelve passes of its
    loop; it throws the invalid-response error only for a request that
    resolved without a first choice. *)
Theorem sendToOpenAI_with_configured_retries
        (Msg : Type) (env : option jsstring)
        (retryConfig : AiHandlerOps.RetryConfig)
        (createChatCompletion : nat -> AiHandlerOps.outcome Msg)
        (Math_random : nat -> float) :
  AiHandlerOps.maxRetries retryConfig = BotConfig.maxRetries env ->
  exists result requests delays,
    AiHandlerOps._sendToOpenAI Msg retryConfig createChatCompletion Math_random 12
    = Some (result, requests, delays) /\
    (1 <= requests <= 11)%nat /\
    (result = AiHandlerOps.ThrowsInvalidResponse ->
     createChatCompletion (requests - 1)%nat = AiHandlerOps.Resolves None).
Proof.
  intros Hcfg.
  assert (H : 0 <= BotConfig.maxRetries env <= 10)
    by (apply BotConfigFacts.parseIntEnv_bounded; lia).
  rewrite <- Hcfg in H.
  unfold AiHandlerOps._sendToOpenAI.
  destruct (AiHandlerOpsFacts.send_loop_spec Msg retryConfig createChatCompletion
              Math_random 12 0%nat (AiHandlerOps.initialDelayMs retryConfig) []
              ltac:(lia))
    as [response [requests [delays [E [_ Hresp]]]]].
  change (Z.of_nat 0) with 0 in E. rewrite E.
  destruct response as [[[message|]|] | error].
  - destruct Hresp as [H1 [H2 _]]. eexists _, _, _. split; [reflexivity|].
    split; [lia | discriminate].
  - destruct Hresp as [H1 [H2 [_ [_ H5]]]]. eexists _, _, _. split; [reflexivity|].
    split; [lia | intros _; exact H5].
  - destruct Hresp as [_ [_ H3]]. lia.
  - destruct Hresp as [H1 [H2 _]]. eexists _, _, _. split; [reflexivity|].
    split; [lia | discriminate].
Qed.

Lemma sendToOpenAI_with_configured_retries_witness :
  exists result requests delays,
    AiHandlerOps._sendToOpenAI nat
      {| AiHandlerOps.maxRetries := 3; AiHandlerOps.initialDelayMs := 1000;
         AiHandlerOps.maxDelayMs := 15000 |}
      (fun _ => AiHandlerOps.Resolves (Some (Some 7%nat))) (fun _ => 0.5%float) 12
    = Some (result, requests, delays) /\
    (1 <= requests <= 11)%nat /\
    (result = AiHandlerOps.ThrowsInvalidResponse ->
     (fun _ : nat => AiHandlerOps.Resolves (Some (Some 7%nat))) (requests - 1)%nat
     = AiHandlerOps.Resolves None).
Proof.
  apply (sendToOpenAI_with_configured_retries nat None
           {| AiHandlerOps.maxRetries := 3; AiHandlerOps.initialDelayMs := 1000;
              AiHandlerOps.maxDelayMs := 15000 |}
           (fun _ => AiHandlerOps.Resolves (Some (Some 7%nat))) (fun _ => 0.5%float)).
  reflexivity.
Defined.

(** ** Chat handler: the fragments of one turn *)

Module GroupingFacts.
Import Batcher BatcherFacts.

Section Grouping.

Context {message : Type}.

(** The messages of a conversation among the events, in their order. *)
Definition arrivals (phoneNumber : string) (events : list (event message))
  : list message :=
  flat_map (fun e => match e with
                     | Incoming p m => if String.eqb p phoneNumber then [m] else []
                     | _ => []
                     end) events.

(** The group after more fragments. *)
Definition joined (group : option (list message)) (more : list message)
  : option (list message) :=
  match more with
  | [] => group
  | _ :: _ => Some (default [] group ++ more)
  end.

Lemma resume_group (a : nat) (h : ChatHandler message) :
  incomingMessages (resume a h) = incomingMessages h.
Proof.
  unfold resume. destruct (find (is_run a) (runs h)); [|reflexivity].
  destruct (heap h !! a) as [p|]; [|reflexivity].
  now destruct (pendingMessages p).
Qed.

Lemma abort_group (a : nat) (h : ChatHandler message) :
  incomingMessages (abort a h) = incomingMessages h.
Proof. unfold abort. now destruct (find (is_run a) (runs h)). Qed.

Lemma process_group_other (phoneNumber p : string) (h : ChatHandler message) :
  p <> phoneNumber ->
  incomingMessages (_processMessageGroup p h) !! phoneNumber
  = incomingMessages h !! phoneNumber.
Proof.
  intros Hne. unfold _processMessageGroup.
  destruct (incomingMessages h !! p) as [[|m group]|];
    cbn [incomingMessages]; try apply lookup_delete_ne; try exact Hne.
  destruct (processingChats h !! p); cbn [incomingMessages];
    apply lookup_delete_ne; exact Hne.
Qed.

Lemma handle_group (phoneNumber : string) (h : ChatHandler message)
      (e : event message) :
  e <> TimerFires phoneNumber ->
  incomingMessages (handle h e) !! phoneNumber
  = joined (incomingMessages h !! phoneNumber) (arrivals phoneNumber [e]).
Proof.
  intros Hne. destruct e as [p m | p | a | a]; cbn [handle arrivals flat_map].
  - unfold _addToMessageGroup. cbn [incomingMessages].
    destruct (String.eqb_spec p phoneNumber) as [-> | Hp]; cbn [app joined].
    + rewrite lookup_insert_eq.
      now destruct (incomingMessages h !! phoneNumber).
    + now rewrite lookup_insert_ne.
  - cbn [app joined]. apply process_group_other. congruence.
  - cbn [app joined]. now rewrite resume_group.
  - cbn [app joined]. now rewrite abort_group.
Qed.

Lemma joined_joined (group : option (list message)) (a b : list message) :
  joined (joined group a) b = joined group (a ++ b).
Proof.
  destruct a as [|x a]; [reflexivity|]. destruct b as [|y b].
  - now rewrite app_nil_r.
  - change (joined (joined group (x :: a)) (y :: b))
      with (Some ((default [] group ++ x :: a) ++ y :: b)).
    change (joined group ((x :: a) ++ y :: b))
      with (Some (default [] group ++ (x :: a) ++ y :: b)).
    now rewrite app_assoc.
Qed.

Lemma fold_group (phoneNumber : string) (events : list (event message)) :
  forall h,
    Forall (fun e => e <> TimerFires phoneNumber) events ->
    incomingMessages (fold_left handle events h) !! phoneNumber
    = joined (incomingMessages h !! phoneNumber) (arrivals phoneNumber events).
Proof.
  induction events as [|e events IH]; intros h Hall; [reflexivity|].
  apply Forall_cons_iff in Hall as [He Hall].
  cbn [fold_left]. rewrite (IH _ Hall), (handle_group phoneNumber h e He).
  rewrite joined_joined. f_equal. unfold arrivals. cbn [flat_map].
  now rewrite app_nil_r.
Qed.

Lemma no_run_without_lock (phoneNumber : string) (h : ChatHandler message) :
  consistent h -> processingChats h !! phoneNumber = None ->
  active_runs phoneNumber h = [].
Proof.
  intros C Hnone. unfold active_runs.
  destruct (List.filter _ (runs h)) as [|r rest] eqn:F; [reflexivity|].
  assert (Hin : In r (List.filter (fun r => String.eqb (run_phone r) phoneNumber)
                                  (runs h))) by (rewrite F; now left).
  apply filter_In in Hin as [Hin E]. apply String.eqb_eq in E.
  pose proof (run_registered h C r Hin) as Hreg. rewrite E in Hreg. congruence.
Qed.


End Grouping.

End GroupingFacts.

Section OneGroup.
Import Batcher BatcherFacts GroupingFacts.

(** X20. The fragments of one turn. From any state the event loop reaches
    in which a conversation has no pending group, let any events follow
    among which no timer of that conversation fires, and at least one
    message of it comes in.  Then its pending group holds exactly its
    messages that came in, in their order, whatever else happened in
    between; and when its timer fires the group is removed and handed over
    whole: with no run in flight, to a new processor that holds exactly
    these messages, with one run started for the conversation; with a run
    in flight, to the end of the pending list of that run, and no run is
    started. *)
Theorem fragments_form_one_group
        {message : Type} (before events : list (Batcher.event message))
        (phoneNumber : string) :
  let h0 := Batcher.after before in
  let h1 := fold_left Batcher.handle events h0 in
  let h2 := Batcher._processMessageGroup phoneNumber h1 in
  Batcher.incomingMessages h0 !! phoneNumber = None ->
  Forall (fun e => e <> Batcher.TimerFires phoneNumber) events ->
  GroupingFacts.arrivals phoneNumber events <> [] ->
  Batcher.incomingMessages h1 !! phoneNumber
  = Some (GroupingFacts.arrivals phoneNumber events) /\
  Batcher.incomingMessages h2 !! phoneNumber = None /\
  match Batcher.processingChats h1 !! phoneNumber with
  | None =>
    Batcher.processingChats h2 !! phoneNumber = Some (Batcher.next_address h1) /\
    Batcher.heap h2 !! Batcher.next_address h1
    = Some {| Batcher.pendingMessages := GroupingFacts.arrivals phoneNumber events;
              Batcher.isProcessing := true |} /\
    Batcher.active_runs phoneNumber h2
    = [ {| Batcher.run_phone := phoneNumber;
           Batcher.run_processor := Batcher.next_address h1;
           Batcher.run_messages := None |} ]
  | Some a =>
    exists p,
      Batcher.heap h1 !! a = Some p /\
      Batcher.processingChats h2 !! phoneNumber = Some a /\
      Batcher.heap h2 !! a
      = Some {| Batcher.pendingMessages :=
                  Batcher.pendingMessages p ++ GroupingFacts.arrivals phoneNumber events;
                Batcher.isProcessing := Batcher.isProcessing p |} /\
      Batcher.runs h2 = Batcher.runs h1
  end.
Proof.
  intros h0 h1 h2 Hempty Hall Hsome.
  assert (C : consistent h1) by (apply consistent_fold, consistent_after).
  assert (G : incomingMessages h1 !! phoneNumber = Some (arrivals phoneNumber events)).
  { unfold h1. rewrite (fold_group phoneNumber events h0 Hall), Hempty.
    destruct (arrivals phoneNumber events); [now destruct Hsome | reflexivity]. }
  split; [exact G|]. unfold h2, _processMessageGroup. rewrite G.
  destruct (arrivals phoneNumber events) as [|m ms] eqn:A; [now destruct Hsome|].
  destruct (processingChats h1 !! phoneNumber) as [a|] eqn:L.
  - destruct (registered_run h1 C phoneNumber a L) as [r [Hr [Hphone Hproc]]].
    destruct (run_allocated h1 C r Hr) as [_ [p Hp]]. rewrite Hproc in Hp.
    rewrite Hp. cbn [incomingMessages processingChats heap runs].
    split; [apply lookup_delete_eq|]. exists p.
    split; [reflexivity|]. split; [exact L|]. split; [apply lookup_insert_eq|].
    reflexivity.
  - cbn [incomingMessages processingChats heap runs next_address].
    split; [apply lookup_delete_eq|]. split; [apply lookup_insert_eq|].
    split; [apply lookup_insert_eq|].
    unfold active_runs. cbn [runs]. rewrite List.filter_app.
    fold (active_runs phoneNumber h1). rewrite (no_run_without_lock _ _ C L).
    cbn [List.filter run_phone app]. now rewrite String.eqb_refl.
Qed.

End OneGroup.

Lemma fragments_form_one_group_witness :
  let events := [ Batcher.Incoming "5511999990000" 1%nat;
                  Batcher.Incoming "5511888880000" 5%nat;
                  Batcher.Incoming "5511999990000" 2%nat ] in
  let h0 := Batcher.after (message := nat) [] in
  let h1 := fold_left Batcher.handle events h0 in
  let h2 := Batcher._processMessageGroup "5511999990000" h1 in
  Batcher.incomingMessages h1 !! "5511999990000"
  = Some (GroupingFacts.arrivals "5511999990000" events) /\
  Batcher.incomingMessages h2 !! "5511999990000" = None /\
  match Batcher.processingChats h1 !! "5511999990000" with
  | None =>
    Batcher.processingChats h2 !! "5511999990000" = Some (Batcher.next_address h1) /\
    Batcher.heap h2 !! Batcher.next_address h1
    = Some {| Batcher.pendingMessages := GroupingFacts.arrivals "5511999990000" events;
              Batcher.isProcessing := true |} /\
    Batcher.active_runs "5511999990000" h2
    = [ {| Batcher.run_phone := "5511999990000";
           Batcher.run_processor := Batcher.next_address h1;
           Batcher.run_messages := None |} ]
  | Some a =>
    exists p,
      Batcher.heap h1 !! a = Some p /\
      Batcher.processingChats h2 !! "5511999990000" = Some a /\
      Batcher.heap h2 !! a
      = Some {| Batcher.pendingMessages :=
                  Batcher.pendingMessages p
                  ++ GroupingFacts.arrivals "5511999990000" events;
                Batcher.isProcessing := Batcher.isProcessing p |} /\
      Batcher.runs h2 = Batcher.runs h1
  end.
Proof.
  apply (fragments_form_one_group (message := nat) []
           [ Batcher.Incoming "5511999990000" 1%nat;
             Batcher.Incoming "5511888880000" 5%nat;
             Batcher.Incoming "5511999990000" 2%nat ] "5511999990000").
  - reflexivity.
  - repeat constructor; discriminate.
  - vm_compute. discriminate.
Defined.

(** ** Chat handler: the spam protection *)

Module SpamProtectionFacts.
Import SpamProtection.

Section Bound.

Variable maxMessagesPerMinute : Z.

Definition bounded (counters : messageCounters) : Prop :=
  forall phoneNumber c,
    counters !! phoneNumber = Some c ->
    1 <= count c <= Z.max 1 (maxMessagesPerMinute + 1).

Lemma bounded_handle (counters : messageCounters) (e : event) :
  bounded counters -> bounded (handle true maxMessagesPerMinute counters e).
Proof.
  intros B. destruct e as [p now | p]; cbn [handle].
  - unfold check_and_count, _isSpamming. cbn [andb].
    destruct (counters !! p) as [c|] eqn:L.
    + destruct (Z.ltb_spec maxMessagesPerMinute (count c)) as [Hspam | Hok];
        [exact B|]. cbn [fst].
      intros q c' Hq. unfold _updateMessageCounter in Hq. rewrite L in Hq.
      cbv zeta in Hq. destruct (String.eqb_spec q p) as [-> | Hne].
      * rewrite lookup_insert_eq in Hq. injection Hq as <-. cbn [count].
        pose proof (B p c L).
        destruct (60000 <=? now - timestamp c); cbn [count]; lia.
      * rewrite lookup_insert_ne in Hq by congruence. exact (B q c' Hq).
    + cbn [fst]. intros q c' Hq. unfold _updateMessageCounter in Hq.
      rewrite L in Hq. cbv zeta in Hq. destruct (String.eqb_spec q p) as [-> | Hne].
      * rewrite lookup_insert_eq in Hq. injection Hq as <-. cbn [count timestamp].
        destruct (60000 <=? now - now); cbn [count]; lia.
      * rewrite lookup_insert_ne in Hq by congruence. exact (B q c' Hq).
  - unfold reset. destruct (counters !! p); [|exact B].
    intros q c' Hq. apply lookup_delete_Some in Hq as [_ Hq]. exact (B q c' Hq).
Qed.

Lemma bounded_fold (events : list event) :
  forall counters,
    bounded counters ->
    bounded (fold_left (handle true maxMessagesPerMinute) events counters).
Proof.
  induction events as [|e events IH]; intros counters B; [exact B|].
  cbn [fold_left]. apply IH. now apply bounded_handle.
Qed.

End Bound.

End SpamProtectionFacts.

(** X21. The counters of the spam protection. With the protection on,
    after any sequence of incoming messages and counter timers, at any
    times, every counter holds at least 1 and at most
    [maxMessagesPerMinute + 1]; a message is dropped exactly when the
    counter of its conversation is above [maxMessagesPerMinute], and a
    dropped message leaves the counters as they are.  So one more message
    than the configured maximum passes before the conversation is
    ignored. *)
Theorem spam_counter_stays_bounded
        (maxMessagesPerMinute : Z) (events : list SpamProtection.event)
        (phoneNumber : string) (now : Z) :
  let counters := SpamProtection.after true maxMessagesPerMinute events in
  (forall c, counters !! phoneNumber = Some c ->
             1 <= SpamProtection.count c
             <= Z.max 1 (maxMessagesPerMinute + 1)) /\
  match counters !! phoneNumber with
  | Some c =>
    if maxMessagesPerMinute <? SpamProtection.count c then
      SpamProtection.check_and_count true maxMessagesPerMinute phoneNumber now counters
      = (counters, false)
    else
      exists counters',
        SpamProtection.check_and_count true maxMessagesPerMinute phoneNumber now
                                       counters
        = (counters', true) /\
        counters' !! phoneNumber
        = Some (if 60000 <=? now - SpamProtection.timestamp c
                then {| SpamProtection.count := 1; SpamProtection.timestamp := now |}
                else {| SpamProtection.count := SpamProtection.count c + 1;
                        SpamProtection.timestamp := SpamProtection.timestamp c |})
  | None =>
    exists counters',
      SpamProtection.check_and_count true maxMessagesPerMinute phoneNumber now counters
      = (counters', true) /\
      counters' !! phoneNumber
      = Some {| SpamProtection.count := 1; SpamProtection.timestamp := now |}
  end.
Proof.
  cbv zeta. split.
  - intros c Hc.
    apply (SpamProtectionFacts.bounded_fold maxMessagesPerMinute events ∅
             ltac:(intros q c' Hq; rewrite lookup_empty in Hq; discriminate)
             phoneNumber c Hc).
  - set (counters := SpamProtection.after true maxMessagesPerMinute events).
    unfold SpamProtection.check_and_count, SpamProtection._isSpamming,
      SpamProtection._updateMessageCounter.
    destruct (counters !! phoneNumber) as [c|] eqn:L; cbn [andb]; cbv zeta.
    + destruct (maxMessagesPerMinute <? SpamProtection.count c); [reflexivity|].
      eexists. split; [reflexivity|]. rewrite lookup_insert_eq.
      now destruct (60000 <=? now - SpamProtection.timestamp c).
    + eexists. split; [reflexivity|]. rewrite lookup_insert_eq.
      cbn [SpamProtection.timestamp]. replace (now - now) with 0 by lia.
      reflexivity.
Qed.
